(** * Neon Snake: a shallow embedding of the simulation and synth core

    The development follows the Python package [neon_snake]:
    - [Config]   : the tunables of [config.py];
    - [Py]       : the few Python built-ins the code relies on
                   ([int], [round], [%], [//], [max], [min]);
    - [Effects]  : the effect pools of [effects.py];
    - [Enemies]  : spawn-point search and ripple culling of [enemies.py];
    - [Audio]    : the per-sample synthesis of [audio.py];
    - [Game]     : the scheduler, bonus placement, fruit placement and
                   the fixed step of [game.py].

    Python [int] is [Z].  Python [float] is modelled by exact rationals
    [Q]: every binary64 value is a rational, and the model performs the
    same operations in the same order without the rounding.  Calls that
    leave the rationals ([math.hypot], [math.sin], [math.pi]) and the
    random generator are inputs of the functions that use them.

    Division by zero raises in Python and yields 0 in [Q].  The
    divisors of the modelled code are non-zero constants, are guarded
    by the code itself ([duration], [attack], [decay], [levels]), or
    are positive on the states the game builds ([current_speed],
    [move_interval], [urgency]); [sample_rate] is the mixer's rate. *)

From Stdlib Require Import String.
From Stdlib Require Import ZArith QArith Qminmax Qround Qabs.
From Stdlib Require Import List Bool Lia Lqa.
Import ListNotations.

Local Open Scope Z_scope.

(* ------------------------------------------------------------------ *)
(** ** config.py *)

Module Config.

Definition WINDOW_SIZE : Z := 480.
Definition BLOCK : Z := 16.
Definition MOVES_PER_SECOND : Z := 10.
Definition SPEED_STEP : Z := 60.
Definition MAX_MOVES_PER_SECOND : Z := 16.
Definition BONUS_DURATION : Q := 7 # 2.
Definition BONUS_POINTS : Z := 35.
Definition BONUS_CHANCE : Q := 45 # 100.
Definition GRID_CELLS : Z := WINDOW_SIZE / BLOCK.
Definition SNAKE_WASH_SPEED : Q := 11.
Definition SNAKE_WASH_WIDTH : Q := 6.

Inductive Direction := UP | DOWN | LEFT | RIGHT.

Definition DIRECTIONS (d : Direction) : Z * Z :=
  match d with
  | UP => (0, -1)
  | DOWN => (0, 1)
  | LEFT => (-1, 0)
  | RIGHT => (1, 0)
  end.

Definition OPPOSITE (d : Direction) : Direction :=
  match d with
  | UP => DOWN
  | DOWN => UP
  | LEFT => RIGHT
  | RIGHT => LEFT
  end.

Definition TRAIL_LIFE : Q := 35 # 100.
Definition PARTICLE_LIFE : Q := 45 # 100.

Definition PARTICLE_DIRECTIONS : list (Q * Q) :=
  [ (1, 0); (- (1), 0); (0, 1); (0, - (1));
    (7 # 10, 7 # 10); (- (7 # 10), 7 # 10);
    (7 # 10, - (7 # 10)); (- (7 # 10), - (7 # 10)) ]%Q.

End Config.

(* ------------------------------------------------------------------ *)
(** ** Python built-ins *)

Module Py.

Local Open Scope Q_scope.

(** [int(x)] on a float truncates toward zero. *)
Definition int (x : Q) : Z := Z.quot (Qnum x) (Zpos (Qden x)).

(** [round(x)] on a float rounds to the nearest integer, ties to the
    even neighbour. *)
Definition round (x : Q) : Z :=
  let f := Qfloor x in
  let d := x - inject_Z f in
  match Qcompare d (1 # 2) with
  | Lt => f
  | Gt => (f + 1)%Z
  | Eq => if Z.even f then f else (f + 1)%Z
  end.

(** [x % 1.0]: the result has the sign of the divisor. *)
Definition mod1 (x : Q) : Q := x - inject_Z (Qfloor x).

(** [a <= b], [a < b] and [a > b] as the tests the code branches on. *)
Definition le (a b : Q) : bool := Qle_bool a b.
Definition lt (a b : Q) : bool := negb (Qle_bool b a).
Definition gt (a b : Q) : bool := lt b a.

(** [max(a, b)] keeps [a] unless [b > a]; [min(a, b)] keeps [a]
    unless [b < a].  [Qmax] and [Qmin] choose the same argument. *)
Definition max (a b : Q) : Q := Qmax a b.
Definition min (a b : Q) : Q := Qmin a b.

(** [random.uniform(a, b)] is [a + (b - a) * random.random()]. *)
Definition uniform (a b u : Q) : Q := a + (b - a) * u.

(** [range(start, stop, step)] for a positive [step]. *)
Definition range (start stop step : Z) : list Z :=
  map (fun i => (start + Z.of_nat i * step)%Z)
      (seq 0 (Z.to_nat ((stop - start + step - 1) / step))).

(** [random.choice(seq)] indexes [seq] below its length; [pick] is
    the raw draw. *)
Definition choice {A : Type} (pick : nat) (options : list A) (d : A) : A :=
  nth (Nat.modulo pick (length options)) options d.

End Py.

(* ------------------------------------------------------------------ *)
(** ** effects.py *)

Module Effects.

Local Open Scope Q_scope.

(** A particle is a dict with the keys below; ["type"] is present
    only on head sparks.  Colours are carried as an opaque index. *)
Record Particle := mkParticle {
  p_x : Q; p_y : Q; p_vx : Q; p_vy : Q;
  p_life : Q; p_size : Q; p_color : Z; p_type : option bool
}.

Record GridRipple := mkRipple {
  x : Q; y : Q; duration : Q; timer : Q;
  max_radius : Q; band_width : Q; intensity : Q; color : Z
}.

Record SnakeWash := mkWash {
  w_color : Z; progress : Q; speed : Q; width : Q
}.

Definition spawn_ripple (ripples : list GridRipple) (origin : Z * Z)
    (col : Z) (duration radius_cells band_width intensity : Q)
    : list GridRipple :=
  let cx := inject_Z (fst origin) + inject_Z Config.BLOCK / 2 in
  let cy := inject_Z (snd origin) + inject_Z Config.BLOCK / 2 in
  ripples ++ [mkRipple cx cy duration duration radius_cells
                       band_width intensity col].

Definition start_snake_wash (washes : list SnakeWash) (col : Z)
    (speed width : Q) : list SnakeWash :=
  washes ++ [mkWash col (- width) speed width].

Definition advance_particle (dt : Q) (p : Particle) : Particle :=
  mkParticle (p_x p + p_vx p * dt) (p_y p + p_vy p * dt)
             (p_vx p) (p_vy p)
             (Py.max 0 (p_life p - dt))
             (p_size p) (p_color p) (p_type p).

Definition update_particles (particles : list Particle) (dt : Q)
    : list Particle :=
  if Py.le dt 0 then particles
  else filter (fun p => Py.gt (p_life p) 0)
              (map (advance_particle dt) particles).

Definition advance_ripple (dt : Q) (r : GridRipple) : GridRipple :=
  mkRipple (x r) (y r) (duration r) (Py.max 0 (timer r - dt))
           (max_radius r) (band_width r) (intensity r) (color r).

Definition update_ripples (ripples : list GridRipple) (dt : Q)
    : list GridRipple :=
  if Py.le dt 0 then ripples
  else filter (fun r => Py.gt (timer r) 0)
              (map (advance_ripple dt) ripples).

Definition advance_wash (dt : Q) (w : SnakeWash) : SnakeWash :=
  mkWash (w_color w) (progress w + speed w * dt) (speed w) (width w).

Definition update_snake_washes (washes : list SnakeWash) (dt : Q)
    (max_index : Z) : list SnakeWash :=
  if Py.le dt 0 then washes
  else filter (fun w => Py.le (progress w - width w) (inject_Z max_index))
              (map (advance_wash dt) washes).

(** The draws of one iteration of [spawn_particles]: the direction
    and colour picks of [random.choice], and the [random.random()]
    values behind the two [random.uniform] calls. *)
Record ParticleDraw := mkParticleDraw {
  pd_dir : nat; pd_speed : Q; pd_size : Q; pd_color : nat
}.

(** The loop [for _ in range(count)], [n] iterations left, the next
    one being number [i].  [random.choice] on an empty
    [color_choices] raises [IndexError]: the result is [None]. *)
Fixpoint spawn_particles_loop (n i : nat) (draws : nat -> ParticleDraw)
    (particles : list Particle) (cx cy : Q) (color_choices : list Z)
    : option (list Particle) :=
  match n with
  | O => Some particles
  | S n' =>
      match color_choices with
      | [] => None
      | c :: cs =>
          let d := draws i in
          let '(dir_x, dir_y) :=
            Py.choice (pd_dir d) Config.PARTICLE_DIRECTIONS (0, 0) in
          let speed := Py.uniform 80 210 (pd_speed d) in
          let size := Py.uniform 3 7 (pd_size d) in
          let col := Py.choice (pd_color d) (c :: cs) c in
          spawn_particles_loop n' (S i) draws
            (particles
               ++ [mkParticle cx cy (dir_x * speed) (dir_y * speed)
                              Config.PARTICLE_LIFE size col None])
            cx cy color_choices
      end
  end.

Definition spawn_particles (draws : nat -> ParticleDraw)
    (particles : list Particle) (origin : Z * Z) (color_choices : list Z)
    (count : Z) : option (list Particle) :=
  let cx := inject_Z (fst origin) + inject_Z Config.BLOCK / 2 in
  let cy := inject_Z (snd origin) + inject_Z Config.BLOCK / 2 in
  spawn_particles_loop (Z.to_nat count) 0 draws particles cx cy
    color_choices.

End Effects.

(* ------------------------------------------------------------------ *)
(** ** enemies.py *)

Module Enemies.

Import Effects.
Local Open Scope Q_scope.

Record RippleEnemy := mkEnemy {
  e_x : Q; e_y : Q; e_speed : Q; e_size : Z; e_color : Z;
  age : Q; warmup : Q
}.

(** One attempt of [_find_spawn_point] consumes four draws:
    two [random.randint] cells and two [random.random] jitters. *)
Record PointDraw := mkPointDraw {
  d_gx : Z; d_gy : Z; d_ux : Q; d_uy : Q
}.

(** The draws of one [spawn_enemy_random] call. *)
Record EnemyDraw := mkEnemyDraw {
  d_point : nat -> PointDraw;
  d_speed : Q;
  d_size : Z;
  d_color : Z
}.

(** [math.hypot] restricted to the rationals whose squares sum to a
    rational square, where it is exact; elsewhere the root is rounded
    down on the grid of the denominator.  It instantiates the
    [hypot] input below when a concrete run is evaluated. *)
Definition hypot_q (a b : Q) : Q :=
  let s := a * a + b * b in
  Z.sqrt (Qnum s * Zpos (Qden s)) # Qden s.

Section WithHypot.

Variable hypot : Q -> Q -> Q.

Definition too_close (px py : Q) (avoid_positions : list (Q * Q))
    (min_distance_from_avoid : Q) : bool :=
  existsb (fun a => Py.lt (hypot (px - fst a) (py - snd a))
                          min_distance_from_avoid)
          avoid_positions.

Definition crowded (px py : Q) (enemies : list RippleEnemy)
    (min_spacing : Q) : bool :=
  existsb (fun e => Py.lt (hypot (px - e_x e) (py - e_y e)) min_spacing)
          enemies.

Definition candidate_point (d : PointDraw) : Q * Q :=
  let jitter := inject_Z Config.BLOCK * (35 # 100) in
  (inject_Z (d_gx d * Config.BLOCK) + inject_Z Config.BLOCK / 2
     + Py.uniform (- jitter) jitter (d_ux d),
   inject_Z (d_gy d * Config.BLOCK) + inject_Z Config.BLOCK / 2
     + Py.uniform (- jitter) jitter (d_uy d)).

(** The [for _ in range(attempts)] loop, [n] attempts left, the
    next one being attempt number [i]. *)
Fixpoint find_attempts (n i : nat) (draws : nat -> PointDraw)
    (avoid_positions : list (Q * Q)) (enemies : list RippleEnemy)
    (min_distance_from_avoid min_spacing : Q) : option (Q * Q) :=
  match n with
  | O => None
  | S n' =>
      let '(px, py) := candidate_point (draws i) in
      let retry := find_attempts n' (S i) draws avoid_positions enemies
                     min_distance_from_avoid min_spacing in
      if (negb (Nat.eqb (length avoid_positions) 0)
          && Py.gt min_distance_from_avoid 0
          && too_close px py avoid_positions min_distance_from_avoid)%bool
      then retry
      else if (Py.gt min_spacing 0
               && crowded px py enemies min_spacing)%bool
      then retry
      else Some (px, py)
  end.

Definition _find_spawn_point (draws : nat -> PointDraw)
    (avoid_positions : list (Q * Q)) (enemies : list RippleEnemy)
    (min_distance_from_avoid min_spacing : Q) : option (Q * Q) :=
  find_attempts 60 0 draws avoid_positions enemies
    min_distance_from_avoid min_spacing.

(** Returns the new enemy, if any, and the list [enemies] as the
    call leaves it ([add_to_list] appends in place). *)
Definition spawn_enemy_random (draw : EnemyDraw)
    (enemies : list RippleEnemy) (avoid_positions : list (Q * Q))
    (min_distance_from_avoid min_spacing : Q) (speed_range : Q * Q)
    (color : option Z) (warmup : Q) (add_to_list : bool)
    : option RippleEnemy * list RippleEnemy :=
  match _find_spawn_point (d_point draw) avoid_positions enemies
          min_distance_from_avoid min_spacing with
  | None => (None, enemies)
  | Some position =>
      let speed_min := fst speed_range in
      let speed_max :=
        if Py.lt (snd speed_range) speed_min then speed_min
        else snd speed_range in
      let speed :=
        if Py.gt speed_max speed_min
        then Py.uniform speed_min speed_max (d_speed draw)
        else speed_min in
      let enemy_color :=
        match color with Some c => c | None => d_color draw end in
      let enemy := mkEnemy (fst position) (snd position) speed
                           (d_size draw) enemy_color 0 warmup in
      (Some enemy,
       if add_to_list then enemies ++ [enemy] else enemies)
  end.

(** The body of the inner [for ripple in ripples] loop: does this
    ripple destroy the enemy? *)
Definition ripple_hits (enemy : RippleEnemy) (ripple : GridRipple)
    : bool :=
  if Py.le (duration ripple) 0 then false
  else
    let progress := 1 - timer ripple / duration ripple in
    if Py.le progress 0 then false
    else
      let radius_cells := max_radius ripple * progress in
      let dist_cells :=
        hypot (e_x enemy - x ripple) (e_y enemy - y ripple)
          / inject_Z Config.BLOCK in
      Py.le (Qabs (dist_cells - radius_cells)) (band_width ripple).

(** The inner loop with its [break]. *)
Fixpoint enemy_destroyed (enemy : RippleEnemy)
    (ripples : list GridRipple) : bool :=
  match ripples with
  | [] => false
  | ripple :: rest =>
      if ripple_hits enemy ripple then true
      else enemy_destroyed enemy rest
  end.

(** The outer loop, returning [(survivors, destroyed)]. *)
Fixpoint cull_loop (enemies : list RippleEnemy)
    (ripples : list GridRipple)
    : list RippleEnemy * list RippleEnemy :=
  match enemies with
  | [] => ([], [])
  | enemy :: rest =>
      let '(survivors, destroyed) := cull_loop rest ripples in
      if enemy_destroyed enemy ripples
      then (survivors, enemy :: destroyed)
      else (enemy :: survivors, destroyed)
  end.

Definition cull_enemies_hit_by_ripples (enemies : list RippleEnemy)
    (ripples : list GridRipple)
    : list RippleEnemy * list RippleEnemy :=
  match enemies, ripples with
  | [], _ => (enemies, [])
  | _, [] => (enemies, [])
  | _, _ => cull_loop enemies ripples
  end.

End WithHypot.

Section Steering.

Variable hypot : Q -> Q -> Q.

(** The factor [speed_scale] of [update_enemies], read from the age
    the loop has just stored. *)
Definition speed_scale (enemy : RippleEnemy) : Q :=
  let warmup_ratio :=
    if Py.gt (warmup enemy) 0 then age enemy / warmup enemy else 1 in
  (2 # 10) + (65 # 100) * warmup_ratio.

(** One iteration of the loop of [update_enemies]. *)
Definition steer (target_pos : Q * Q) (dt : Q) (enemy : RippleEnemy)
    : RippleEnemy :=
  let dir_x := fst target_pos - e_x enemy in
  let dir_y := snd target_pos - e_y enemy in
  let length := hypot dir_x dir_y in
  if Py.le length (1 # 1000) then enemy
  else
    let aged :=
      mkEnemy (e_x enemy) (e_y enemy) (e_speed enemy) (e_size enemy)
              (e_color enemy)
              (Py.min (warmup enemy) (age enemy + dt)) (warmup enemy) in
    let effective_speed := e_speed aged * speed_scale aged in
    let step := effective_speed * dt / length in
    mkEnemy (e_x aged + dir_x * step) (e_y aged + dir_y * step)
            (e_speed aged) (e_size aged) (e_color aged)
            (age aged) (warmup aged).

Definition update_enemies (enemies : list RippleEnemy)
    (target_pos : Q * Q) (dt : Q) : list RippleEnemy :=
  if Py.le dt 0 then enemies
  else map (steer target_pos dt) enemies.

End Steering.

(** [pygame.Rect] with integer fields, as far as [enemies_hit_snake]
    uses it: assigning [center] moves the rectangle so that its
    centre, [left + w // 2] and [top + h // 2], is the given point;
    [colliderect] is false when a side is zero and otherwise tests
    that the two rectangles overlap on both axes, touching edges not
    counting. *)
Record Rect := mkRect { r_left : Z; r_top : Z; r_w : Z; r_h : Z }.

Definition rect_centered (w h : Z) (c : Z * Z) : Rect :=
  mkRect (fst c - w / 2) (snd c - h / 2) w h.

Definition colliderect (a b : Rect) : bool :=
  (negb ((r_w a =? 0) || (r_h a =? 0) || (r_w b =? 0) || (r_h b =? 0))
   && (r_left a <? r_left b + r_w b)
   && (r_top a <? r_top b + r_h b)
   && (r_left b <? r_left a + r_w a)
   && (r_top b <? r_top a + r_h a))%Z%bool.

Definition enemy_rect (enemy : RippleEnemy) : Rect :=
  rect_centered (e_size enemy) (e_size enemy)
    (Py.int (e_x enemy), Py.int (e_y enemy)).

Definition block_rect (block : Z * Z) : Rect :=
  mkRect (fst block) (snd block) Config.BLOCK Config.BLOCK.

(** The two nested loops: the first overlapping pair returns [True]. *)
Definition enemies_hit_snake (enemies : list RippleEnemy)
    (snake_blocks : list (Z * Z)) : bool :=
  match enemies with
  | [] => false
  | _ :: _ =>
      existsb
        (fun block =>
           existsb (fun enemy => colliderect (enemy_rect enemy)
                                             (block_rect block))
                   enemies)
        snake_blocks
  end.

End Enemies.

(* ------------------------------------------------------------------ *)
(** ** audio.py *)

Module Audio.

Local Open Scope Q_scope.

(** [waveform] is a string; every value other than ["square"] and
    ["triangle"] takes the sine branch. *)
Inductive Waveform := Sine | Square | Triangle.

Record SynthPatch := mkPatch {
  freq : Q;
  duration_ms : Z;
  harmonics : list (Q * Q);
  sweep : Q;
  noise : Q;
  attack : Q;
  decay : Q;
  release : Q;
  sustain_level : Q;
  vibrato_rate : Q;
  vibrato_depth : Q;
  volume : Q;
  waveform : Waveform;
  bitcrush_levels : Z;
  fade_ms : Z;
  mix_volume : Q;
  pulse_width : Q
}.

(** The ["enemy_destroy"] entry of the patch table in [_init_audio];
    the fields it does not set keep the dataclass defaults. *)
Definition patch_enemy_destroy : SynthPatch :=
  {| freq := 170; duration_ms := 200;
     harmonics := [(1 # 2, 9 # 10); (1, 7 # 10)];
     sweep := 110; noise := 6 # 10;
     attack := 0; decay := 12 # 100; release := 2 # 10;
     sustain_level := 32 # 100;
     vibrato_rate := 0; vibrato_depth := 0;
     volume := 8 # 10; waveform := Square; bitcrush_levels := 3;
     fade_ms := 12; mix_volume := 29 # 100; pulse_width := 1 # 2 |}.

Section Synth.

(** [math.sin], [math.pi] and the successive values of
    [random.random()]; the draw used for sample [idx] is
    [random idx]. *)
Variable sin : Q -> Q.
Variable pi : Q.
Variable random : Z -> Q.

Variable sample_rate : Z.
Variable patch : SynthPatch.

Definition sample_count : Z :=
  Z.max 1 (Py.int (inject_Z (sample_rate * duration_ms patch) / 1000)).
Definition attack_n : Z :=
  Py.int (inject_Z sample_count * attack patch).
Definition decay_n : Z :=
  Py.int (inject_Z sample_count * decay patch).
Definition release_n : Z :=
  Py.int (inject_Z sample_count * release patch).
Definition sustain_start : Z := Z.min sample_count (attack_n + decay_n).
Definition sustain_end : Z :=
  Z.max sustain_start (sample_count - release_n).

Definition two_pi : Q := 2 * pi.

(** Instantaneous frequency at sample [idx], vibrato included. *)
Definition inst_freq (idx : Z) : Q :=
  let t := inject_Z idx / inject_Z sample_rate in
  let progress :=
    if (sample_count =? 0)%Z then 0
    else inject_Z idx / inject_Z sample_count in
  let f := freq patch + sweep patch * progress in
  if (Py.gt (vibrato_rate patch) 0
      && negb (Qeq_bool (vibrato_depth patch) 0))%bool
  then f + sin (two_pi * vibrato_rate patch * t) * vibrato_depth patch
  else f.

Definition wave (voice_freq t : Q) : Q :=
  let cycle_pos := Py.mod1 (voice_freq * t) in
  match waveform patch with
  | Square =>
      let pulse := Py.max (5 # 100) (Py.min (95 # 100) (pulse_width patch)) in
      if Py.lt cycle_pos pulse then 1 else - (1)
  | Triangle => 4 * Qabs (cycle_pos - (1 # 2)) - 1
  | Sine => sin (two_pi * voice_freq * t)
  end.

(** The loop over the partials, [acc] being [sample_val] so far. *)
Fixpoint partials (hs : list (Q * Q)) (f t acc : Q) : Q :=
  match hs with
  | [] => acc
  | (mult, weight) :: rest =>
      partials rest f t (acc + weight * wave (f * mult) t)
  end.

Definition sample_val (idx : Z) : Q :=
  let t := inject_Z idx / inject_Z sample_rate in
  let s := partials (harmonics patch) (inst_freq idx) t 0 in
  if Py.gt (noise patch) 0
  then s + noise patch * (random idx * 2 - 1)
  else s.

Definition env (idx : Z) : Q :=
  if (negb (attack_n =? 0) && (idx <? attack_n))%Z%bool
  then inject_Z idx / inject_Z attack_n
  else if (negb (decay_n =? 0) && (idx <? sustain_start))%Z%bool
  then 1 - (1 - sustain_level patch)
             * (inject_Z (idx - attack_n) / inject_Z decay_n)
  else if (idx <? sustain_end)%Z
  then sustain_level patch
  else if (release_n >? 0)%Z
  then sustain_level patch
         * (1 - inject_Z (idx - sustain_end)
                  / inject_Z (Z.max 1 release_n))
  else 0.

(** [val] before the bitcrush. *)
Definition enveloped (idx : Z) : Q :=
  sample_val idx * Py.max 0 (env idx).

(** The value stored in [samples[idx]]. *)
Definition rendered_sample (idx : Z) : Q :=
  let val := enveloped idx in
  if (bitcrush_levels patch >? 0)%Z
  then
    let levels := inject_Z (bitcrush_levels patch) in
    inject_Z (Py.round (val * levels)) / levels
  else val.

(** The buffer [samples] when the loop ends. *)
Definition samples : list Q :=
  map (fun i => rendered_sample (Z.of_nat i))
      (seq 0 (Z.to_nat sample_count)).

End Synth.

(** *** Normalisation: the end of [_render_patch] *)

(** [max((abs(val) for val in samples), default=1.0)] *)
Definition peak_of (samples : list Q) : Q :=
  match samples with
  | [] => 1
  | v :: rest => fold_left (fun m w => Py.max m (Qabs w)) rest (Qabs v)
  end.

Definition norm_peak (samples : list Q) : Q :=
  let peak := peak_of samples in
  if Py.le peak 0 then 1 else peak.

Definition norm_scale (volume master_sfx_volume : Q) (samples : list Q)
    : Q :=
  32767 * (volume * master_sfx_volume) / norm_peak samples.

(** The signed 16-bit buffer handed to [pygame.mixer.Sound]. *)
Definition waveform_of (volume master_sfx_volume : Q) (samples : list Q)
    : list Z :=
  let scale := norm_scale volume master_sfx_volume samples in
  map (fun val => Py.int (Py.max (- (32767)) (Py.min 32767 (val * scale))))
      samples.

(** *** Mixing and voice allocation *)

(** A [dict] keyed by effect name: lookup and item assignment. *)
Definition Dict (V : Type) : Type := string -> option V.

Definition dict_get {V : Type} (d : Dict V) (name : string) (default : V)
    : V :=
  match d name with Some v => v | None => default end.

Definition dict_set {V : Type} (d : Dict V) (name : string) (v : V)
    : Dict V :=
  fun k => if String.eqb k name then Some v else d k.

(** The engine state [play] reads and writes.  A channel is its index
    in [_channels]; [channels] holds what [get_busy()] answers for
    each, [stop()] clearing the flag and [play()] setting it. *)
Record AudioEngine := mkEngine {
  enabled : bool;
  sounds : string -> bool;
  sound_fades : Dict Z;
  mix_levels : Dict Q;
  channels : list bool;
  _reserved_channels : list (string * nat);
  _last_play : Dict Z;
  _sound_gate_ms : Z;
  _mix_events : list (Z * Q);
  _limiter_window_ms : Z;
  _limiter_ceiling : Q
}.

Definition reserved_get (reserved : list (string * nat)) (name : string)
    : option nat :=
  match find (fun kv => String.eqb (fst kv) name) reserved with
  | Some kv => Some (snd kv)
  | None => None
  end.

(** [channel in reserved], [reserved] being the set of the values. *)
Definition is_reserved (reserved : list (string * nat)) (i : nat) : bool :=
  existsb (fun kv => Nat.eqb (snd kv) i) reserved.

Fixpoint set_busy (i : nat) (v : bool) (chs : list bool) : list bool :=
  match chs, i with
  | [], _ => []
  | _ :: rest, O => v :: rest
  | c :: rest, S i' => c :: set_busy i' v rest
  end.

(** The first loop of [_find_channel]: the first channel from index
    [i] on that is neither reserved nor busy. *)
Fixpoint first_idle (reserved : list (string * nat)) (i : nat)
    (chs : list bool) : option nat :=
  match chs with
  | [] => None
  | busy :: rest =>
      if is_reserved reserved i then first_idle reserved (S i) rest
      else if negb busy then Some i
      else first_idle reserved (S i) rest
  end.

(** The second loop: the first channel that is not reserved. *)
Fixpoint first_free (reserved : list (string * nat)) (i : nat)
    (chs : list bool) : option nat :=
  match chs with
  | [] => None
  | _ :: rest =>
      if is_reserved reserved i then first_free reserved (S i) rest
      else Some i
  end.

(** Returns the channel, if any, and the busy flags as the call
    leaves them (a stolen channel is stopped). *)
Definition _find_channel (e : AudioEngine) : option nat * list bool :=
  match channels e with
  | [] => (None, channels e)
  | _ :: _ =>
      match first_idle (_reserved_channels e) 0 (channels e) with
      | Some i => (Some i, channels e)
      | None =>
          match first_free (_reserved_channels e) 0 (channels e) with
          | Some i => (Some i, set_busy i false (channels e))
          | None => (None, channels e)
          end
      end
  end.

Definition _dynamic_volume (chs : list bool) (base : Q) : Q :=
  match chs with
  | [] => Py.max 0 (Py.min 1 base)
  | _ :: _ =>
      let busy := length (filter (fun b => b) chs) in
      let ratio := inject_Z (Z.of_nat busy)
                   / inject_Z (Z.of_nat (length chs)) in
      let scale := 1 - (45 # 100) * ratio in
      let scaled := base * scale in
      Py.max (12 # 100) (Py.min 1 scaled)
  end.

(** [sum(level for _, level in events)]: the sum starts from 0. *)
Definition sum_levels (events : list (Z * Q)) : Q :=
  fold_left (fun acc ev => acc + snd ev) events 0.

(** Returns the new [_mix_events] and the level. *)
Definition _limit_volume (e : AudioEngine) (base : Q) (now : Z)
    : list (Z * Q) * Q :=
  let window := _limiter_window_ms e in
  let events :=
    filter (fun ev => (now - fst ev <? window)%Z) (_mix_events e) in
  let projected := sum_levels events + base in
  if Py.le projected (_limiter_ceiling e)
  then (events ++ [(now, base)], base)
  else
    let scale :=
      Py.max (2 # 10)
             (_limiter_ceiling e / Py.max projected (1 # 100000)) in
    let adjusted := base * scale in
    (events ++ [(now, adjusted)], adjusted).

(** What [play] asks of the mixer: the channel, the volume set on it,
    the fade-in, and the fade-out of the sound it replaces, if any. *)
Record PlayAction := mkAction {
  a_channel : nat; a_volume : Q; a_fade_ms : Z; a_fadeout : option Z
}.

Definition set_channels (chs : list bool) (e : AudioEngine) : AudioEngine :=
  mkEngine (enabled e) (sounds e) (sound_fades e) (mix_levels e) chs
    (_reserved_channels e) (_last_play e) (_sound_gate_ms e)
    (_mix_events e) (_limiter_window_ms e) (_limiter_ceiling e).

Definition set_last_play (d : Dict Z) (e : AudioEngine) : AudioEngine :=
  mkEngine (enabled e) (sounds e) (sound_fades e) (mix_levels e)
    (channels e) (_reserved_channels e) d (_sound_gate_ms e)
    (_mix_events e) (_limiter_window_ms e) (_limiter_ceiling e).

Definition set_mix_events (evs : list (Z * Q)) (e : AudioEngine)
    : AudioEngine :=
  mkEngine (enabled e) (sounds e) (sound_fades e) (mix_levels e)
    (channels e) (_reserved_channels e) (_last_play e) (_sound_gate_ms e)
    evs (_limiter_window_ms e) (_limiter_ceiling e).

(** The three statements that end both paths of [play]: set the
    volume, start the sound. *)
Definition start_on (i : nat) (base_volume : Q) (now fade : Z)
    (fadeout : option Z) (e : AudioEngine)
    : AudioEngine * option PlayAction :=
  let '(events, limited) := _limit_volume e base_volume now in
  let e := set_mix_events events e in
  let volume := _dynamic_volume (channels e) limited in
  (set_channels (set_busy i true (channels e)) e,
   Some (mkAction i volume fade fadeout)).

(** [play(name)] at the tick [now] of [pygame.time.get_ticks()], the
    pygame calls succeeding (the [except] branch only clears
    [enabled]). *)
Definition play (name : string) (now : Z) (e : AudioEngine)
    : AudioEngine * option PlayAction :=
  if negb (enabled e) then (e, None)
  else if negb (sounds e name) then (e, None)
  else
    let fade := Z.max 0 (dict_get (sound_fades e) name 18%Z) in
    let base_volume := dict_get (mix_levels e) name (4 # 10) in
    let last_tick := dict_get (_last_play e) name 0%Z in
    if (now - last_tick <? _sound_gate_ms e)%Z then (e, None)
    else
      let e := set_last_play (dict_set (_last_play e) name now) e in
      match reserved_get (_reserved_channels e) name with
      | Some i =>
          let fadeout :=
            if (String.eqb name "ripple" && nth i (channels e) false)%bool
            then Some (Z.max 120 fade)%Z else None in
          start_on i base_volume now fade fadeout e
      | None =>
          match _find_channel e with
          | (None, _) => (e, None)
          | (Some i, chs) =>
              start_on i base_volume now fade None (set_channels chs e)
          end
      end.

(** The engine [_init_audio] builds, as far as [play] reads it: 24
    idle channels, the last one reserved for ["ripple"]. *)
Definition fresh_engine (names : list string) (fades : Dict Z)
    (levels : Dict Q) : AudioEngine :=
  {| enabled := true;
     sounds := fun n => existsb (String.eqb n) names;
     sound_fades := fades;
     mix_levels := levels;
     channels := repeat false 24;
     _reserved_channels := [("ripple"%string, 23%nat)];
     _last_play := fun _ => None;
     _sound_gate_ms := 60;
     _mix_events := [];
     _limiter_window_ms := 220;
     _limiter_ceiling := 132 # 100 |}.

End Audio.

(* ------------------------------------------------------------------ *)
(** ** game.py *)

Module Game.

Import Config Effects Enemies.
Local Open Scope Q_scope.

Definition Cell : Type := (Z * Z)%type.

Definition cell_eqb (a b : Cell) : bool :=
  ((fst a =? fst b) && (snd a =? snd b))%Z%bool.

(** [cell in cells] *)
Definition cell_in (c : Cell) (cells : list Cell) : bool :=
  existsb (cell_eqb c) cells.

Record BonusFruit := mkBonus { pos : Cell; b_timer : Q }.

Record SpawnIndicator := mkIndicator {
  i_x : Q; i_y : Q; time : Q; i_duration : Q; i_color : Z;
  payload : option RippleEnemy
}.

(** Colours only travel through the simulation; an RGB triple is
    packed into one integer. *)
Definition rgb (r g b : Z) : Z := (r * 65536 + g * 256 + b)%Z.

Definition PALETTE_bonus : Z := rgb 255 208 0.
Definition SPAWN_INDICATOR_COLOR : Z := rgb 255 70 90.
Definition SPAWN_INDICATOR_DURATION : Q * Q := (9 # 10, 12 # 10).

Inductive State := running | paused | game_over_state.

(** The fields of [NeonSnake] that the simulation reads.  Window,
    audio, particles, trail and shake are written by the simulation
    and read by the renderer only. *)
Record NeonSnake := mkGame {
  score : Z;
  head : Cell;
  snake_blocks : list Cell;
  direction : Direction;
  pending_direction : Direction;
  state : State;
  fruits_eaten : Z;
  fruit_pos : Cell;
  fruit_color : Z;
  bonus : option BonusFruit;
  current_speed : Q;
  move_interval : Q;
  high_score : Z;
  enemies : list RippleEnemy;
  spawn_indicators : list SpawnIndicator;
  enemy_spawns_active : bool;
  enemy_spawn_timer : Q;
  grid_ripples : list GridRipple;
  snake_washes : list SnakeWash
}.

Definition set_score (v : Z) (g : NeonSnake) : NeonSnake :=
  mkGame v (head g) (snake_blocks g) (direction g) (pending_direction g)
    (state g) (fruits_eaten g) (fruit_pos g) (fruit_color g) (bonus g)
    (current_speed g) (move_interval g) (high_score g) (enemies g)
    (spawn_indicators g) (enemy_spawns_active g) (enemy_spawn_timer g)
    (grid_ripples g) (snake_washes g).

Definition set_head (v : Cell) (g : NeonSnake) : NeonSnake :=
  mkGame (score g) v (snake_blocks g) (direction g) (pending_direction g)
    (state g) (fruits_eaten g) (fruit_pos g) (fruit_color g) (bonus g)
    (current_speed g) (move_interval g) (high_score g) (enemies g)
    (spawn_indicators g) (enemy_spawns_active g) (enemy_spawn_timer g)
    (grid_ripples g) (snake_washes g).

Definition set_snake_blocks (v : list Cell) (g : NeonSnake) : NeonSnake :=
  mkGame (score g) (head g) v (direction g) (pending_direction g)
    (state g) (fruits_eaten g) (fruit_pos g) (fruit_color g) (bonus g)
    (current_speed g) (move_interval g) (high_score g) (enemies g)
    (spawn_indicators g) (enemy_spawns_active g) (enemy_spawn_timer g)
    (grid_ripples g) (snake_washes g).

Definition set_direction (v : Direction) (g : NeonSnake) : NeonSnake :=
  mkGame (score g) (head g) (snake_blocks g) v (pending_direction g)
    (state g) (fruits_eaten g) (fruit_pos g) (fruit_color g) (bonus g)
    (current_speed g) (move_interval g) (high_score g) (enemies g)
    (spawn_indicators g) (enemy_spawns_active g) (enemy_spawn_timer g)
    (grid_ripples g) (snake_washes g).

Definition set_state (v : State) (g : NeonSnake) : NeonSnake :=
  mkGame (score g) (head g) (snake_blocks g) (direction g)
    (pending_direction g) v (fruits_eaten g) (fruit_pos g) (fruit_color g)
    (bonus g) (current_speed g) (move_interval g) (high_score g)
    (enemies g) (spawn_indicators g) (enemy_spawns_active g)
    (enemy_spawn_timer g) (grid_ripples g) (snake_washes g).

Definition set_fruits_eaten (v : Z) (g : NeonSnake) : NeonSnake :=
  mkGame (score g) (head g) (snake_blocks g) (direction g)
    (pending_direction g) (state g) v (fruit_pos g) (fruit_color g)
    (bonus g) (current_speed g) (move_interval g) (high_score g)
    (enemies g) (spawn_indicators g) (enemy_spawns_active g)
    (enemy_spawn_timer g) (grid_ripples g) (snake_washes g).

Definition set_fruit (p : Cell) (c : Z) (g : NeonSnake) : NeonSnake :=
  mkGame (score g) (head g) (snake_blocks g) (direction g)
    (pending_direction g) (state g) (fruits_eaten g) p c
    (bonus g) (current_speed g) (move_interval g) (high_score g)
    (enemies g) (spawn_indicators g) (enemy_spawns_active g)
    (enemy_spawn_timer g) (grid_ripples g) (snake_washes g).

Definition set_bonus (v : option BonusFruit) (g : NeonSnake) : NeonSnake :=
  mkGame (score g) (head g) (snake_blocks g) (direction g)
    (pending_direction g) (state g) (fruits_eaten g) (fruit_pos g)
    (fruit_color g) v (current_speed g) (move_interval g) (high_score g)
    (enemies g) (spawn_indicators g) (enemy_spawns_active g)
    (enemy_spawn_timer g) (grid_ripples g) (snake_washes g).

Definition set_speed (s i : Q) (g : NeonSnake) : NeonSnake :=
  mkGame (score g) (head g) (snake_blocks g) (direction g)
    (pending_direction g) (state g) (fruits_eaten g) (fruit_pos g)
    (fruit_color g) (bonus g) s i (high_score g)
    (enemies g) (spawn_indicators g) (enemy_spawns_active g)
    (enemy_spawn_timer g) (grid_ripples g) (snake_washes g).

Definition set_high_score (v : Z) (g : NeonSnake) : NeonSnake :=
  mkGame (score g) (head g) (snake_blocks g) (direction g)
    (pending_direction g) (state g) (fruits_eaten g) (fruit_pos g)
    (fruit_color g) (bonus g) (current_speed g) (move_interval g) v
    (enemies g) (spawn_indicators g) (enemy_spawns_active g)
    (enemy_spawn_timer g) (grid_ripples g) (snake_washes g).

Definition set_spawn_indicators (v : list SpawnIndicator) (g : NeonSnake)
    : NeonSnake :=
  mkGame (score g) (head g) (snake_blocks g) (direction g)
    (pending_direction g) (state g) (fruits_eaten g) (fruit_pos g)
    (fruit_color g) (bonus g) (current_speed g) (move_interval g)
    (high_score g) (enemies g) v (enemy_spawns_active g)
    (enemy_spawn_timer g) (grid_ripples g) (snake_washes g).

Definition set_enemy_spawns_active (v : bool) (g : NeonSnake) : NeonSnake :=
  mkGame (score g) (head g) (snake_blocks g) (direction g)
    (pending_direction g) (state g) (fruits_eaten g) (fruit_pos g)
    (fruit_color g) (bonus g) (current_speed g) (move_interval g)
    (high_score g) (enemies g) (spawn_indicators g) v
    (enemy_spawn_timer g) (grid_ripples g) (snake_washes g).

Definition set_enemy_spawn_timer (v : Q) (g : NeonSnake) : NeonSnake :=
  mkGame (score g) (head g) (snake_blocks g) (direction g)
    (pending_direction g) (state g) (fruits_eaten g) (fruit_pos g)
    (fruit_color g) (bonus g) (current_speed g) (move_interval g)
    (high_score g) (enemies g) (spawn_indicators g)
    (enemy_spawns_active g) v (grid_ripples g) (snake_washes g).

Definition set_grid_ripples (v : list GridRipple) (g : NeonSnake)
    : NeonSnake :=
  mkGame (score g) (head g) (snake_blocks g) (direction g)
    (pending_direction g) (state g) (fruits_eaten g) (fruit_pos g)
    (fruit_color g) (bonus g) (current_speed g) (move_interval g)
    (high_score g) (enemies g) (spawn_indicators g)
    (enemy_spawns_active g) (enemy_spawn_timer g) v (snake_washes g).

Definition set_snake_washes (v : list SnakeWash) (g : NeonSnake)
    : NeonSnake :=
  mkGame (score g) (head g) (snake_blocks g) (direction g)
    (pending_direction g) (state g) (fruits_eaten g) (fruit_pos g)
    (fruit_color g) (bonus g) (current_speed g) (move_interval g)
    (high_score g) (enemies g) (spawn_indicators g)
    (enemy_spawns_active g) (enemy_spawn_timer g) (grid_ripples g) v.

(** *** Speed *)

Definition _update_speed (g : NeonSnake) : NeonSnake :=
  let target_speed :=
    if (SPEED_STEP <=? 0)%Z then inject_Z MOVES_PER_SECOND
    else
      let bonus := inject_Z (score g) / inject_Z SPEED_STEP in
      inject_Z MOVES_PER_SECOND + bonus in
  let target_speed :=
    Py.min (inject_Z MAX_MOVES_PER_SECOND) (Py.max 1 target_speed) in
  set_speed target_speed (1 / target_speed) g.

(** *** Ripple helper *)

Definition _emit_ripple (origin : Cell) (col : Z)
    (duration radius_cells band_width intensity : Q) (g : NeonSnake)
    : NeonSnake :=
  set_grid_ripples
    (spawn_ripple (grid_ripples g) origin col duration radius_cells
                  band_width intensity) g.

(** *** Game over *)

Definition game_over (g : NeonSnake) : NeonSnake :=
  match state g with
  | game_over_state => g
  | _ =>
      let g := set_state game_over_state g in
      if (score g >? high_score g)%Z then set_high_score (score g) g
      else g
  end.

(** *** Fruit spawn *)

Definition corner_cells : list Cell :=
  [ (0, 0)%Z;
    (0, WINDOW_SIZE - BLOCK)%Z;
    (WINDOW_SIZE - BLOCK, 0)%Z;
    (WINDOW_SIZE - BLOCK, WINDOW_SIZE - BLOCK)%Z ].

(** The [while True] loop of [_random_fruit_pos].  [draws] lists the
    pairs the two [random.randrange] calls return, one pair per
    iteration; [None] means the loop is still running when the
    listed draws are used up. *)
Fixpoint _random_fruit_pos (draws : list (Z * Z)) (blocks : list Cell)
    : option Cell :=
  match draws with
  | [] => None
  | (a, b) :: rest =>
      let pos := ((a * BLOCK)%Z, (b * BLOCK)%Z) in
      if cell_in pos corner_cells then _random_fruit_pos rest blocks
      else if negb (cell_in pos blocks) then Some pos
      else _random_fruit_pos rest blocks
  end.

Definition spawn_fruit (draws : list (Z * Z)) (color_pick : Z)
    (g : NeonSnake) : option NeonSnake :=
  match _random_fruit_pos draws (snake_blocks g) with
  | None => None
  | Some p => Some (set_fruit p color_pick g)
  end.

(** *** Bonus fruit helpers *)

Definition max_steps (g : NeonSnake) : Z :=
  Z.max 1 (Py.int (BONUS_DURATION / move_interval g) - 1).

Definition manhattan_steps (h c : Cell) : Z :=
  ((Z.abs (fst c - fst h) + Z.abs (snd c - snd h)) / BLOCK)%Z.

Definition _reachable_bonus_spots (g : NeonSnake) : list Cell :=
  flat_map
    (fun x =>
       flat_map
         (fun y =>
            if (cell_in (x, y) (snake_blocks g)
                || cell_eqb (x, y) (fruit_pos g))%bool
            then []
            else if (manhattan_steps (head g) (x, y) <=? max_steps g)%Z
            then [(x, y)]
            else [])
         (Py.range 0 WINDOW_SIZE BLOCK))
    (Py.range 0 WINDOW_SIZE BLOCK).

Definition _maybe_spawn_bonus (chance roll : Q) (pick : nat)
    (g : NeonSnake) : NeonSnake :=
  match bonus g with
  | Some _ => g
  | None =>
      if Py.gt roll chance then g
      else
        match _reachable_bonus_spots g with
        | [] => g
        | o :: os =>
            set_bonus
              (Some (mkBonus (Py.choice pick (o :: os) o) BONUS_DURATION))
              g
        end
  end.

(** *** Spawn scheduler *)

Definition _desired_enemy_count (g : NeonSnake) : Z :=
  let wave_bonus := (fruits_eaten g / 2)%Z in
  let score_bonus := (score g / 80)%Z in
  let desired := (1 + wave_bonus + score_bonus)%Z in
  Z.max 1 (Z.min 5 desired).

Definition _pending_spawn_count (g : NeonSnake) : Z :=
  Z.of_nat
    (length (filter (fun m => match payload m with
                              | Some _ => true
                              | None => false
                              end)
                    (spawn_indicators g))).

(** The locals [difficulty], [deficit] and [urgency] of
    [_schedule_enemy_spawn]. *)
Definition difficulty (g : NeonSnake) : Q :=
  let speed_factor :=
    Py.max 1 (current_speed g / inject_Z MOVES_PER_SECOND) in
  let score_factor := Py.min 3 (inject_Z (score g) / 60) in
  let fruit_factor := Py.min 1 (inject_Z (fruits_eaten g) / 6) in
  1 + (45 # 100) * (speed_factor - 1) + (3 # 10) * score_factor
    + (25 # 100) * fruit_factor.

Definition schedule_deficit (g : NeonSnake) : Z :=
  let active_total :=
    (Z.of_nat (length (enemies g)) + _pending_spawn_count g)%Z in
  Z.max 0 (_desired_enemy_count g - active_total).

Definition urgency (g : NeonSnake) : Q :=
  let deficit := schedule_deficit g in
  if (deficit =? 0)%Z then 8 # 10
  else 1 + (4 # 10) * inject_Z deficit.

(** [u] is the [random.random()] behind [random.uniform(1.8, 2.6)]. *)
Definition _schedule_enemy_spawn (u : Q) (g : NeonSnake) : NeonSnake :=
  let base_delay := Py.uniform (18 # 10) (26 # 10) u in
  let delay :=
    Py.max (45 # 100)
           (base_delay / Py.max (6 # 10) (difficulty g / urgency g)) in
  set_enemy_spawn_timer delay g.

Definition _start_enemy_spawns (u : Q) (g : NeonSnake) : NeonSnake :=
  if enemy_spawns_active g then g
  else _schedule_enemy_spawn u (set_enemy_spawns_active true g).

Definition _register_spawn_indicator (u : Q) (p : Q * Q) (col : Z)
    (payload : option RippleEnemy) (duration : option Q) (g : NeonSnake)
    : NeonSnake :=
  let drawn :=
    Py.uniform (fst SPAWN_INDICATOR_DURATION)
               (snd SPAWN_INDICATOR_DURATION) u in
  let countdown :=
    match duration with
    | Some d => if Qeq_bool d 0 then drawn else d
    | None => drawn
    end in
  set_spawn_indicators
    (spawn_indicators g
       ++ [mkIndicator (fst p) (snd p) countdown countdown col payload])
    g.


(** The draws of one [_spawn_enemy] call: those of
    [spawn_enemy_random], then the indicator countdown. *)
Record SpawnDraw := mkSpawnDraw {
  s_enemy : EnemyDraw;
  s_countdown : Q
}.

(** The draws of one [_tick_enemy_spawn_timer] call: one [SpawnDraw]
    per spawn attempt, then the base delay of the rescheduling. *)
Record TickDraw := mkTickDraw {
  t_spawn : nat -> SpawnDraw;
  t_delay : Q
}.

(** The draws of one [step] call. *)
Record StepDraw := mkStepDraw {
  fruit_cells : list (Z * Z);
  fruit_color_pick : Z;
  bonus_roll : Q;
  bonus_pick : nat;
  delay_u : Q
}.

Section WithHypot.

Variable hypot : Q -> Q -> Q.

(** Returns the state and the boolean result. *)
Definition _spawn_enemy (d : SpawnDraw) (g : NeonSnake)
    : NeonSnake * bool :=
  let snake_speed_px := current_speed g * inject_Z BLOCK in
  let speed_min := Py.max 28 (snake_speed_px * (4 # 10)) in
  let speed_max := Py.max (speed_min + 4) (snake_speed_px * (6 # 10)) in
  let half := inject_Z BLOCK / 2 in
  let avoid_positions :=
    [(inject_Z (fst (fruit_pos g)) + half,
      inject_Z (snd (fruit_pos g)) + half)]
    ++ match bonus g with
       | Some b => [(inject_Z (fst (pos b)) + half,
                     inject_Z (snd (pos b)) + half)]
       | None => []
       end in
  let occupied :=
    enemies g
    ++ flat_map (fun m => match payload m with
                          | Some e => [e]
                          | None => []
                          end)
                (spawn_indicators g) in
  match fst (spawn_enemy_random hypot (s_enemy d) occupied
               avoid_positions (inject_Z BLOCK * 5)
               (inject_Z BLOCK * (35 # 10)) (speed_min, speed_max)
               (Some SPAWN_INDICATOR_COLOR) (55 # 100) false) with
  | None => (g, false)
  | Some enemy =>
      (_register_spawn_indicator (s_countdown d)
         (e_x enemy, e_y enemy) (e_color enemy) (Some enemy) None g,
       true)
  end.

(** The [while attempts < spawn_budget] loop: [budget] attempts are
    left and the next one is attempt number [i].  Returns the state
    and [spawned_any]. *)
Fixpoint spawn_batch (budget i : nat) (draws : nat -> SpawnDraw)
    (spawned_any : bool) (g : NeonSnake) : NeonSnake * bool :=
  match budget with
  | O => (g, spawned_any)
  | S budget' =>
      let '(g', spawned) := _spawn_enemy (draws i) g in
      let spawned_any := (spawned_any || spawned)%bool in
      if spawned then spawn_batch budget' (S i) draws spawned_any g'
      else (g', spawned_any)
  end.

(** [desired - active_total] as [_tick_enemy_spawn_timer] computes
    it (not clamped at zero). *)
Definition tick_deficit (g : NeonSnake) : Z :=
  let desired := _desired_enemy_count g in
  let pending := _pending_spawn_count g in
  let active_total := (Z.of_nat (length (enemies g)) + pending)%Z in
  (desired - active_total)%Z.

Definition _tick_enemy_spawn_timer (d : TickDraw) (dt : Q)
    (g : NeonSnake) : NeonSnake :=
  if (negb (enemy_spawns_active g) || Py.le dt 0)%bool then g
  else
    let g := set_enemy_spawn_timer
               (Py.max 0 (enemy_spawn_timer g - dt)) g in
    if Py.gt (enemy_spawn_timer g) 0 then g
    else
      let deficit := tick_deficit g in
      if (deficit <=? 0)%Z then _schedule_enemy_spawn (t_delay d) g
      else
        let spawn_budget := Z.max 1 (Z.min 3 deficit) in
        let '(g, spawned_any) :=
          spawn_batch (Z.to_nat spawn_budget) 0 (t_spawn d) false g in
        if spawned_any then _schedule_enemy_spawn (t_delay d) g
        else set_enemy_spawn_timer (4 # 10) g.

End WithHypot.

Definition _handle_bonus_pickup (roll : Q) (pick : nat) (g : NeonSnake)
    : NeonSnake :=
  match bonus g with
  | None => g
  | Some b =>
      let bonus_pos := pos b in
      let g := set_bonus None g in
      let g := set_score (score g + BONUS_POINTS)%Z g in
      let g := _update_speed g in
      let g := _emit_ripple bonus_pos PALETTE_bonus (16 # 10)
                 (inject_Z GRID_CELLS * (9 # 10)) (14 # 10) (9 # 10) g in
      let g := _emit_ripple bonus_pos (rgb 240 250 255) 1
                 (inject_Z GRID_CELLS * (6 # 10)) (9 # 10) (5 # 10) g in
      let g := set_snake_washes
                 (start_snake_wash (snake_washes g) PALETTE_bonus
                                   (95 # 10) 8) g in
      _maybe_spawn_bonus (35 # 100) roll pick g
  end.

(** *** Logic step *)

Definition new_head (g : NeonSnake) : Cell :=
  let '(dx, dy) := DIRECTIONS (pending_direction g) in
  (((fst (head g) + dx * BLOCK) mod WINDOW_SIZE)%Z,
   ((snd (head g) + dy * BLOCK) mod WINDOW_SIZE)%Z).

(** [snake_blocks.pop()] behind its [if self.snake_blocks] guard. *)
Definition pop_tail (g : NeonSnake) : NeonSnake :=
  match snake_blocks g with
  | [] => g
  | _ :: _ => set_snake_blocks (removelast (snake_blocks g)) g
  end.

(** The fruit branch of [step], entered with the head already
    committed. *)
Definition eat_fruit (d : StepDraw) (g : NeonSnake) : option NeonSnake :=
  let g := set_score (score g + 10)%Z g in
  let g := _update_speed g in
  let g := _emit_ripple (fruit_pos g) (fruit_color g) (12 # 10)
             (inject_Z GRID_CELLS * (55 # 100)) (8 # 10) (55 # 100) g in
  let g := set_snake_washes
             (start_snake_wash (snake_washes g) (fruit_color g)
                               (125 # 10) 5) g in
  match spawn_fruit (fruit_cells d) (fruit_color_pick d) g with
  | None => None
  | Some g =>
      let g := _maybe_spawn_bonus BONUS_CHANCE (bonus_roll d)
                 (bonus_pick d) g in
      let g := set_fruits_eaten (fruits_eaten g + 1)%Z g in
      Some (if (fruits_eaten g =? 1)%Z
            then _start_enemy_spawns (delay_u d) g
            else g)
  end.

(** [step] returns [None] when the fruit placement loop has not
    ended within the listed draws. *)
Definition step (d : StepDraw) (g : NeonSnake) : option NeonSnake :=
  let nh := new_head g in
  let g := set_direction (pending_direction g) g in
  if cell_in nh (snake_blocks g) then Some (game_over g)
  else
    let g := set_head nh g in
    let g := set_snake_blocks (nh :: snake_blocks g) g in
    let after :=
      if cell_eqb (head g) (fruit_pos g) then eat_fruit d g
      else
        match bonus g with
        | Some b =>
            if cell_eqb (head g) (pos b)
            then Some (_handle_bonus_pickup (bonus_roll d) (bonus_pick d) g)
            else Some g
        | None => Some g
        end in
    match after with
    | None => None
    | Some g => Some (pop_tail g)
    end.

(** *** Reset *)

Definition _reset_game_state (draws : list (Z * Z)) (color_pick : Z)
    (g : NeonSnake) : option NeonSnake :=
  let start_x := (BLOCK * 10)%Z in
  let start_y := (BLOCK * 5)%Z in
  let g0 :=
    {| score := 0;
       head := (start_x, start_y);
       snake_blocks := [ (start_x, start_y);
                         ((start_x - BLOCK)%Z, start_y);
                         ((start_x - BLOCK * 2)%Z, start_y) ];
       direction := RIGHT;
       pending_direction := RIGHT;
       state := running;
       fruits_eaten := 0;
       fruit_pos := fruit_pos g;
       fruit_color := fruit_color g;
       bonus := None;
       current_speed := inject_Z MOVES_PER_SECOND;
       move_interval := 1 / inject_Z MOVES_PER_SECOND;
       high_score := high_score g;
       enemies := [];
       spawn_indicators := [];
       enemy_spawns_active := false;
       enemy_spawn_timer := 0;
       grid_ripples := [];
       snake_washes := [] |} in
  match spawn_fruit draws color_pick g0 with
  | None => None
  | Some g1 => Some (_update_speed g1)
  end.

(** *** Trail *)

Record TrailBlob := mkBlob { t_x : Q; t_y : Q; t_life : Q }.

(** [self.trail.pop(0)] drops the oldest blob. *)
Definition _leave_trail (trail_enabled : bool) (trail : list TrailBlob)
    (p : Cell) : list TrailBlob :=
  if negb trail_enabled then trail
  else
    let trail :=
      trail ++ [mkBlob (inject_Z (fst p)) (inject_Z (snd p)) TRAIL_LIFE] in
    if (80 <? length trail)%nat then tl trail else trail.

(** *** Bonus timer *)

Definition _tick_bonus (dt : Q) (g : NeonSnake) : NeonSnake :=
  match bonus g with
  | None => g
  | Some b =>
      if Py.le dt 0 then g
      else
        let t := b_timer b - dt in
        if Py.le t 0 then set_bonus None g
        else set_bonus (Some (mkBonus (pos b) t)) g
  end.

(** *** Spawn indicators *)

Definition set_enemies (v : list RippleEnemy) (g : NeonSnake) : NeonSnake :=
  mkGame (score g) (head g) (snake_blocks g) (direction g)
    (pending_direction g) (state g) (fruits_eaten g) (fruit_pos g)
    (fruit_color g) (bonus g) (current_speed g) (move_interval g)
    (high_score g) v (spawn_indicators g) (enemy_spawns_active g)
    (enemy_spawn_timer g) (grid_ripples g) (snake_washes g).

(** The loop of [_update_spawn_indicators] over the markers still to
    visit, with the enemy list and the survivors built so far. *)
Fixpoint indicators_loop (dt : Q) (markers : list SpawnIndicator)
    (enemies : list RippleEnemy) (survivors : list SpawnIndicator)
    : list RippleEnemy * list SpawnIndicator :=
  match markers with
  | [] => (enemies, survivors)
  | marker :: rest =>
      let t := Py.max 0 (time marker - dt) in
      if Py.le t 0 then
        match payload marker with
        | Some p =>
            let admitted :=
              mkEnemy (e_x p) (e_y p) (e_speed p) (e_size p) (e_color p)
                      0 (Py.max (35 # 100) (warmup p)) in
            indicators_loop dt rest (enemies ++ [admitted]) survivors
        | None => indicators_loop dt rest enemies survivors
        end
      else
        indicators_loop dt rest enemies
          (survivors
             ++ [mkIndicator (i_x marker) (i_y marker) t
                             (i_duration marker) (i_color marker)
                             (payload marker)])
  end.

Definition _update_spawn_indicators (dt : Q) (g : NeonSnake) : NeonSnake :=
  if Py.le dt 0 then g
  else
    let '(enemies, survivors) :=
      indicators_loop dt (spawn_indicators g) (enemies g) [] in
    set_spawn_indicators survivors (set_enemies enemies g).

(** *** Pause, input and the stepping loop of [start] *)

(** The game together with the step accumulator of the main loop. *)
Record Runner := mkRunner { game : NeonSnake; _move_accumulator : Q }.

Definition _toggle_pause (r : Runner) : Runner :=
  match state (game r) with
  | game_over_state => r
  | paused => mkRunner (set_state running (game r)) 0
  | running => mkRunner (set_state paused (game r)) (_move_accumulator r)
  end.

Inductive Key :=
| K_SPACE | K_f | K_F11 | K_r | K_q | K_c | K_v | K_p
| K_UP | K_w | K_DOWN | K_s | K_LEFT | K_a | K_RIGHT | K_d
| K_other.

Inductive Event := QUIT | KEYDOWN (key : Key) | OTHER_EVENT.

Definition KEY_TO_DIRECTION (key : Key) : option Direction :=
  match key with
  | K_UP | K_w => Some UP
  | K_DOWN | K_s => Some DOWN
  | K_LEFT | K_a => Some LEFT
  | K_RIGHT | K_d => Some RIGHT
  | _ => None
  end.

Definition direction_eqb (a b : Direction) : bool :=
  match a, b with
  | UP, UP | DOWN, DOWN | LEFT, LEFT | RIGHT, RIGHT => true
  | _, _ => false
  end.

Definition set_pending_direction (v : Direction) (g : NeonSnake)
    : NeonSnake :=
  mkGame (score g) (head g) (snake_blocks g) (direction g) v
    (state g) (fruits_eaten g) (fruit_pos g) (fruit_color g) (bonus g)
    (current_speed g) (move_interval g) (high_score g) (enemies g)
    (spawn_indicators g) (enemy_spawns_active g) (enemy_spawn_timer g)
    (grid_ripples g) (snake_washes g).

(** What one event does.  [Some (r, true)] goes on to the next event,
    [Some (r, false)] is [return False]; [None] is a restart whose
    fruit placement has not ended within [draws].  The display and
    effect toggles ([f], [F11], [c], [v], [p]) write no modelled
    field. *)
Definition handle_event (draws : list (Z * Z) * Z) (ev : Event)
    (r : Runner) : option (Runner * bool) :=
  match ev with
  | QUIT => Some (r, false)
  | OTHER_EVENT => Some (r, true)
  | KEYDOWN key =>
      let over := match state (game r) with
                  | game_over_state => true
                  | _ => false
                  end in
      match key with
      | K_SPACE =>
          if negb over then Some (_toggle_pause r, true) else Some (r, true)
      | K_f | K_F11 => Some (r, true)
      | _ =>
          if over then
            match key with
            | K_r =>
                match _reset_game_state (fst draws) (snd draws) (game r)
                with
                | Some g => Some (mkRunner g 0, true)
                | None => None
                end
            | K_q => Some (r, false)
            | _ => Some (r, true)
            end
          else
            match key with
            | K_c | K_v | K_p => Some (r, true)
            | _ =>
                match state (game r) with
                | paused => Some (r, true)
                | _ =>
                    match KEY_TO_DIRECTION key with
                    | Some new_dir =>
                        if negb (direction_eqb new_dir
                                   (OPPOSITE (direction (game r))))
                        then Some (mkRunner
                                     (set_pending_direction new_dir (game r))
                                     (_move_accumulator r), true)
                        else Some (r, true)
                    | None => Some (r, true)
                    end
                end
            end
      end
  end.

(** [handle_events]: the events of one frame in order, event number
    [i] restarting with the draws [draws i]. *)
Fixpoint handle_events (draws : nat -> list (Z * Z) * Z) (i : nat)
    (events : list Event) (r : Runner) : option (Runner * bool) :=
  match events with
  | [] => Some (r, true)
  | ev :: rest =>
      match handle_event (draws i) ev r with
      | None => None
      | Some (r', false) => Some (r', false)
      | Some (r', true) => handle_events draws (S i) rest r'
      end
  end.

(** How the stepping loop of [start] can end. *)
Inductive LoopResult :=
| Done (r : Runner)
| Stuck
| OutOfFuel.

(** [while self._move_accumulator >= self.move_interval], iteration
    number [i] stepping with the draws [draws i].  [Stuck] is a step
    whose fruit placement has not ended within its draws;
    [OutOfFuel] is the loop still running after [fuel] iterations. *)
Fixpoint step_loop (fuel : nat) (draws : nat -> StepDraw) (i : nat)
    (r : Runner) : LoopResult :=
  if Py.le (move_interval (game r)) (_move_accumulator r) then
    match fuel with
    | O => OutOfFuel
    | S fuel' =>
        match step (draws i) (game r) with
        | None => Stuck
        | Some g =>
            step_loop fuel' draws (S i)
              (mkRunner g (_move_accumulator r - move_interval g))
        end
    end
  else Done r.

(** The part of one frame of [start] that runs the simulation:
    while running, the frame time is added to the accumulator and the
    loop steps; otherwise nothing moves. *)
Definition advance (fuel : nat) (draws : nat -> StepDraw) (dt : Q)
    (r : Runner) : LoopResult :=
  match state (game r) with
  | running =>
      step_loop fuel draws 0
        (mkRunner (game r) (_move_accumulator r + dt))
  | _ => Done r
  end.

End Game.

(* ------------------------------------------------------------------ *)
(** ** The properties, in the words of the specification *)

Module Spec.

Import Config Effects Enemies Audio Game.
Local Open Scope Q_scope.

(** *** Sample pool entries *)

Definition sample_particle : Particle :=
  mkParticle 8 8 120 0 (45 # 100) 4 0 None.
Definition sample_ripple : GridRipple :=
  mkRipple 8 8 (12 # 10) (6 # 10) (165 # 10) (8 # 10) (55 # 100) 0.
Definition sample_wash : SnakeWash := mkWash 0 (- (5)) (125 # 10) 5.

(** *** Ripple band (spec, sections 3 and 8) *)

(** Distance of an enemy from a ripple origin, in grid cells. *)
Definition dist_cells (hypot : Q -> Q -> Q) (e : RippleEnemy)
    (r : GridRipple) : Q :=
  hypot (e_x e - x r) (e_y e - y r) / inject_Z BLOCK.

(** Radius at time t = max_radius * (1 - timer / duration). *)
Definition current_radius (r : GridRipple) : Q :=
  max_radius r * (1 - timer r / duration r).

Definition in_band (hypot : Q -> Q -> Q) (e : RippleEnemy)
    (r : GridRipple) : Prop :=
  Qabs (dist_cells hypot e r - current_radius r) <= band_width r.

(** "An enemy is destroyed exactly when it lies in the band of some
    ripple of positive duration." *)
Definition destroyed_iff_in_band (hypot : Q -> Q -> Q)
    (enemies : list RippleEnemy) (ripples : list GridRipple)
    (e : RippleEnemy) : Prop :=
  In e (snd (cull_enemies_hit_by_ripples hypot enemies ripples))
  <-> In e enemies
      /\ exists r, In r ripples /\ 0 < duration r /\ in_band hypot e r.

(** A freshly emitted ripple centred on the cell the enemy sits on. *)
Definition fresh_ripple : GridRipple :=
  {| x := 8; y := 8; duration := 12 # 10; timer := 12 # 10;
     max_radius := 165 # 10; band_width := 8 # 10;
     intensity := 55 # 100; color := 0 |}.

Definition enemy_at_origin : RippleEnemy :=
  {| e_x := 8; e_y := 8; e_speed := 64; e_size := 12; e_color := 0;
     age := 0; warmup := 55 # 100 |}.

(** The amended band condition: the ripple has started to expand. *)
Definition expanding_band (hypot : Q -> Q -> Q) (e : RippleEnemy)
    (r : GridRipple) : Prop :=
  0 < duration r /\ timer r < duration r /\ in_band hypot e r.

(** Scenario C of the specification: a ripple half elapsed, an enemy
    5.3 cells away and one 6.5 cells away. *)
Definition scenario_ripple : GridRipple :=
  {| x := 8; y := 8; duration := 12 # 10; timer := 6 # 10;
     max_radius := 10; band_width := 8 # 10;
     intensity := 55 # 100; color := 0 |}.

Definition enemy_near : RippleEnemy :=
  {| e_x := 8 + (848 # 10); e_y := 8; e_speed := 64; e_size := 12;
     e_color := 0; age := 0; warmup := 55 # 100 |}.

Definition enemy_far : RippleEnemy :=
  {| e_x := 8; e_y := 8 + 104; e_speed := 64; e_size := 12;
     e_color := 0; age := 0; warmup := 55 # 100 |}.

(** *** Quantization grid (spec, section 8) *)

(** "The sample equals k/L for some integer k in [-L, L]." *)
Definition on_grid_within (L : Z) (v : Q) : Prop :=
  exists k : Z, (- L <= k <= L)%Z /\ v == inject_Z k / inject_Z L.

(** *** Scheduler and placement (spec, sections 4.5, 4.6 and 8) *)

Definition clamp (lo hi v : Z) : Z :=
  if (v <? lo)%Z then lo else if (hi <? v)%Z then hi else v.

(** "1 + floor(fruits_eaten/2) + floor(score/80), clamped to [1,5]." *)
Definition desired_spec (fruits score : Z) : Z :=
  clamp 1 5 (1 + Qfloor (inject_Z fruits / 2)
               + Qfloor (inject_Z score / 80))%Z.

Definition grid_aligned (c : Cell) : Prop :=
  (fst c mod BLOCK = 0 /\ snd c mod BLOCK = 0)%Z.

(** Speed and step interval as [_update_speed] leaves them: the speed
    is clamped from below at one move per second and the interval is
    its inverse. *)
Definition speed_synced (g : NeonSnake) : Prop :=
  1 <= current_speed g /\ move_interval g == 1 / current_speed g.

(** The state [_reset_game_state] builds when the first acceptable
    fruit draw is the cell right of the head (scenario B), and the
    same start with the fruit elsewhere (scenario A). *)
Definition start_with_fruit (fruit : Cell) : NeonSnake :=
  _update_speed
    {| score := 0;
       head := (160, 80)%Z;
       snake_blocks := [ (160, 80)%Z; (144, 80)%Z; (128, 80)%Z ];
       direction := RIGHT;
       pending_direction := RIGHT;
       state := running;
       fruits_eaten := 0;
       fruit_pos := fruit;
       fruit_color := 0;
       bonus := None;
       current_speed := inject_Z MOVES_PER_SECOND;
       move_interval := 1 / inject_Z MOVES_PER_SECOND;
       high_score := 0;
       enemies := [];
       spawn_indicators := [];
       enemy_spawns_active := false;
       enemy_spawn_timer := 0;
       grid_ripples := [];
       snake_washes := [] |}.

Definition scenario_A : NeonSnake := start_with_fruit (320, 240)%Z.
Definition scenario_B : NeonSnake := start_with_fruit (176, 80)%Z.

(** A coiled snake about to turn left into its own body. *)
Definition scenario_coiled : NeonSnake :=
  set_snake_blocks
    [ (160, 80)%Z; (160, 96)%Z; (144, 96)%Z; (144, 80)%Z; (144, 64)%Z ]
    (mkGame 40 (160, 80)%Z [] DOWN LEFT running 4 (320, 240)%Z 0 None
       (current_speed scenario_A) (move_interval scenario_A) 70
       [] [] true (21 # 10) [] []).

(** Draws for one step: the fruit loop first hits a corner, then the
    snake, then a free cell; the bonus roll is above every chance. *)
Definition quiet_draw : StepDraw :=
  {| fruit_cells := [ (0, 0)%Z; (10, 5)%Z; (20, 15)%Z ];
     fruit_color_pick := 1;
     bonus_roll := 99 # 100;
     bonus_pick := 0;
     delay_u := 1 # 2 |}.

(** *** Frames: what a helper leaves untouched *)

Definition same_snake (g g' : NeonSnake) : Prop :=
  snake_blocks g' = snake_blocks g /\ head g' = head g
  /\ state g' = state g.

Definition same_speed (g g' : NeonSnake) : Prop :=
  current_speed g' = current_speed g /\ move_interval g' = move_interval g.

(** *** Spawn countdown (spec, sections 4.5 and 8) *)

(** The state of [_tick_enemy_spawn_timer] once the countdown has been
    decremented. *)
Definition decremented (dt : Q) (g : NeonSnake) : NeonSnake :=
  set_enemy_spawn_timer (Py.max 0 (enemy_spawn_timer g - dt)) g.

(** The spawn batch of a tick whose countdown has run out. *)
Definition batch_of (hypot : Q -> Q -> Q) (d : TickDraw) (dt : Q)
    (g : NeonSnake) : NeonSnake * bool :=
  let g0 := decremented dt g in
  spawn_batch hypot (Z.to_nat (Z.max 1 (Z.min 3 (tick_deficit g0)))) 0
    (t_spawn d) false g0.

(** A batch was due and nothing spawned. *)
Definition nothing_spawned (hypot : Q -> Q -> Q) (d : TickDraw) (dt : Q)
    (g : NeonSnake) : bool :=
  ((0 <? tick_deficit (decremented dt g))%Z
   && negb (snd (batch_of hypot d dt g)))%bool.

(** "Every value assigned to the spawn countdown while spawning is
    active, also after a batch in which nothing spawned, is at least
    0.45 s": the value a tick assigns when the countdown runs out. *)
Definition rescheduled_at_least_min (hypot : Q -> Q -> Q) (d : TickDraw)
    (dt : Q) (g : NeonSnake) : Prop :=
  enemy_spawns_active g = true ->
  0 < dt ->
  enemy_spawn_timer g <= dt ->
  45 # 100 <= enemy_spawn_timer (_tick_enemy_spawn_timer hypot d dt g).

(** The match after the first fruit: spawning is active, no enemy is
    alive or pending, and a tenth of a second is left on the
    countdown. *)
Definition scenario_spawning : NeonSnake :=
  set_enemy_spawn_timer (1 # 10)
    (set_enemy_spawns_active true
       (set_fruits_eaten 1 (_update_speed (set_score 10 scenario_A)))).

(** Draws that put every candidate point on the centre of the fruit
    cell (320, 240): cell (20, 15), no jitter. *)
Definition stuck_draw : TickDraw :=
  {| t_spawn := fun _ =>
       {| s_enemy :=
            {| d_point := fun _ => mkPointDraw 20 15 (1 # 2) (1 # 2);
               d_speed := 1 # 2; d_size := 12; d_color := 0 |};
          s_countdown := 1 # 2 |};
     t_delay := 1 # 2 |}.

(** Draws whose first candidate point is the centre of cell (3, 3),
    far from the fruit. *)
Definition lucky_draw : TickDraw :=
  {| t_spawn := fun _ =>
       {| s_enemy :=
            {| d_point := fun _ => mkPointDraw 3 3 (1 # 2) (1 # 2);
               d_speed := 1 # 2; d_size := 12; d_color := 0 |};
          s_countdown := 1 # 2 |};
     t_delay := 1 # 2 |}.

(** *** Reachable states *)

(** The states the modelled transitions produce: a reset from any
    earlier state, then steps and scheduler ticks in any order. *)
Inductive reachable (hypot : Q -> Q -> Q) : NeonSnake -> Prop :=
| reach_reset (draws : list (Z * Z)) (color_pick : Z) (g g' : NeonSnake) :
    _reset_game_state draws color_pick g = Some g' ->
    reachable hypot g'
| reach_step (d : StepDraw) (g g' : NeonSnake) :
    reachable hypot g ->
    step d g = Some g' ->
    reachable hypot g'
| reach_tick (d : TickDraw) (dt : Q) (g : NeonSnake) :
    reachable hypot g ->
    reachable hypot (_tick_enemy_spawn_timer hypot d dt g).

End Spec.

(* ------------------------------------------------------------------ *)
(** ** Invariants and sample data for the rest of the code *)

Module Props.

Import Config Effects Enemies Audio Game Spec.
Local Open Scope Q_scope.

(** *** Effect pools *)

Definition ripple_after (dt : Q) (r : GridRipple) : GridRipple :=
  mkRipple (x r) (y r) (duration r) (timer r - dt) (max_radius r)
           (band_width r) (intensity r) (color r).

Definition particle_after (dt : Q) (p : Particle) : Particle :=
  mkParticle (p_x p + p_vx p * dt) (p_y p + p_vy p * dt) (p_vx p) (p_vy p)
             (p_life p - dt) (p_size p) (p_color p) (p_type p).

(** A ripple as [spawn_ripple] makes it and [update_ripples] keeps
    it: alive, and not older than its duration. *)
Definition ripple_live (r : GridRipple) : Prop :=
  0 < timer r /\ timer r <= duration r.

(** A particle as [spawn_particles] emits it from the point
    [(cx, cy)]. *)
Definition burst_particle (cx cy : Q) (p : Particle) : Prop :=
  p_x p = cx /\ p_y p = cy /\ p_life p = PARTICLE_LIFE /\ p_type p = None.

Definition cell_centre (origin : Z * Z) : Q * Q :=
  (inject_Z (fst origin) + inject_Z BLOCK / 2,
   inject_Z (snd origin) + inject_Z BLOCK / 2).

Definition burst_draw : nat -> ParticleDraw :=
  fun i => mkParticleDraw i (1 # 2) (1 # 4) (S i).

(** *** Enemies *)

Definition sample_enemy : RippleEnemy :=
  {| e_x := 100; e_y := 60; e_speed := 64; e_size := 12; e_color := 0;
     age := 1 # 10; warmup := 55 # 100 |}.

Definition centre_draws : nat -> PointDraw :=
  fun i => mkPointDraw (3 + Z.of_nat i) 3 (1 # 2) (1 # 2).

Definition centre_draw_taken : PointDraw := centre_draws 7%nat.

Definition sample_enemy_draw : EnemyDraw :=
  {| d_point := centre_draws; d_speed := 1 # 2; d_size := 12;
     d_color := 0 |}.

(** A point far enough from every protected position and from every
    enemy, each test applying only when its distance is positive. *)
Definition acceptable (hypot : Q -> Q -> Q) (avoid : list (Q * Q))
    (enemies : list RippleEnemy) (min_distance_from_avoid min_spacing : Q)
    (p : Q * Q) : Prop :=
  (0 < min_distance_from_avoid ->
   forall a, In a avoid ->
             min_distance_from_avoid <= hypot (fst p - fst a) (snd p - snd a))
  /\ (0 < min_spacing ->
      forall e, In e enemies ->
                min_spacing <= hypot (fst p - e_x e) (snd p - e_y e)).

(** *** Synth *)

(** The ADSR parameters of a patch are fractions of the duration and
    a level. *)
Definition adsr_sane (patch : SynthPatch) : Prop :=
  0 <= attack patch /\ 0 <= decay patch /\ 0 <= release patch
  /\ 0 <= sustain_level patch <= 1.

(** The sum of the absolute weights of the partials. *)
Fixpoint weight_sum (hs : list (Q * Q)) : Q :=
  match hs with
  | [] => 0
  | (_, weight) :: rest => Qabs weight + weight_sum rest
  end.

(** *** Mixer *)

Definition busy_count (chs : list bool) : nat :=
  length (filter (fun b => b) chs).

(** The patch of the effect [ripple], as [_init_audio] lists it. *)
Definition patch_ripple : SynthPatch :=
  {| freq := 190; duration_ms := 360;
     harmonics := [(1 # 2, 7 # 10); (1, 1)];
     sweep := -80; noise := 15 # 100;
     attack := 6 # 1000; decay := 2 # 10; release := 35 # 100;
     sustain_level := 48 # 100;
     vibrato_rate := 24 # 10; vibrato_depth := 35 # 10;
     volume := 8 # 10; waveform := Square; bitcrush_levels := 5;
     fade_ms := 22; mix_volume := 3 # 10; pulse_width := 46 # 100 |}.

(** An engine as [_init_audio] leaves it after some play: 24 channels
    of which the first two are busy, one recent mix event. *)
Definition sample_engine : AudioEngine :=
  {| enabled := true;
     sounds := fun n => existsb (String.eqb n)
                          ["ripple"%string; "fruit"%string];
     sound_fades := fun n => if String.eqb n "ripple" then Some 10%Z
                             else None;
     mix_levels := fun n => if String.eqb n "fruit" then Some (32 # 100)
                            else None;
     channels := true :: true :: repeat false 22;
     _reserved_channels := [("ripple"%string, 23%nat)];
     _last_play := fun n => if String.eqb n "fruit" then Some 1000%Z
                            else None;
     _sound_gate_ms := 60;
     _mix_events := [(700, 4 # 10); (900, 5 # 10); (1000, 6 # 10)]%Z;
     _limiter_window_ms := 220;
     _limiter_ceiling := 132 # 100 |}.

(** The part of the engine that [_limit_volume] and the channel
    calls leave alone. *)
Definition same_config (e e' : AudioEngine) : Prop :=
  enabled e' = enabled e /\ sounds e' = sounds e
  /\ sound_fades e' = sound_fades e /\ mix_levels e' = mix_levels e
  /\ _reserved_channels e' = _reserved_channels e
  /\ _sound_gate_ms e' = _sound_gate_ms e
  /\ _last_play e' = _last_play e
  /\ length (channels e') = length (channels e).

(** *** Game *)

(** The speed [_update_speed] derives from a score. *)
Definition speed_for (s : Z) : Q :=
  Py.min (inject_Z MAX_MOVES_PER_SECOND)
         (Py.max 1 (inject_Z MOVES_PER_SECOND
                    + inject_Z s / inject_Z SPEED_STEP)).

(** Speed and step interval are the ones of the current score. *)
Definition in_sync (g : NeonSnake) : Prop :=
  current_speed g = speed_for (score g)
  /\ move_interval g = 1 / speed_for (score g).

(** A cell of the arena. *)
Definition on_arena (c : Cell) : Prop :=
  (0 <= fst c < WINDOW_SIZE /\ 0 <= snd c < WINDOW_SIZE
   /\ fst c mod BLOCK = 0 /\ snd c mod BLOCK = 0)%Z.

(** One cell further in a direction, wrapping at the edges. *)
Definition advance_cell (c : Cell) (d : Direction) : Cell :=
  (((fst c + fst (DIRECTIONS d) * BLOCK) mod WINDOW_SIZE)%Z,
   ((snd c + snd (DIRECTIONS d) * BLOCK) mod WINDOW_SIZE)%Z).

(** The body lies on the arena and starts with the head; and while
    the match is not over the second cell is where the head came
    from. *)
Definition snake_shape (g : NeonSnake) : Prop :=
  Forall on_arena (snake_blocks g)
  /\ hd_error (snake_blocks g) = Some (head g)
  /\ (state g <> game_over_state ->
      forall n, nth_error (snake_blocks g) 1 = Some n ->
                head g = advance_cell n (direction g)).

(** The buffered direction is not the reverse of the current one. *)
Definition no_reverse (g : NeonSnake) : Prop :=
  pending_direction g <> OPPOSITE (direction g).

(** The markers that carry an enemy. *)
Definition pending_of (markers : list SpawnIndicator) : nat :=
  length (filter (fun m => match payload m with
                           | Some _ => true
                           | None => false
                           end) markers).

(** An enemy as a marker releases it. *)
Definition admitted_fresh (e : RippleEnemy) : Prop :=
  age e = 0 /\ 35 # 100 <= warmup e.

(** Enemies alive or announced. *)
Definition active_total (g : NeonSnake) : Z :=
  (Z.of_nat (length (enemies g)) + _pending_spawn_count g)%Z.

(** Two markers, one due now and one later, and a live enemy. *)
Definition scenario_telegraph : NeonSnake :=
  set_enemies [sample_enemy]
    (set_spawn_indicators
       [ mkIndicator 56 56 (5 # 100) 1 0
           (Some (mkEnemy 56 56 64 12 0 (3 # 10) (2 # 10)));
         mkIndicator 200 120 (8 # 10) 1 0
           (Some (mkEnemy 200 120 70 14 0 0 (55 # 100))) ]
       scenario_spawning).

(** [_tick_bonus] over the frames of a stretch of play, and the game
    time those frames add up to. *)
Definition tick_bonus_frames (dts : list Q) (g : NeonSnake) : NeonSnake :=
  fold_left (fun g dt => _tick_bonus dt g) dts g.

Definition elapsed (dts : list Q) : Q := fold_right Qplus 0 dts.

(** A match with a bonus fruit just placed. *)
Definition scenario_bonus : NeonSnake :=
  set_bonus (Some (mkBonus (176, 96)%Z BONUS_DURATION)) scenario_A.

(** The fields the pickups count with. *)
Definition tally (g : NeonSnake) : Z * Z * Q * Q :=
  (score g, fruits_eaten g, current_speed g, move_interval g).

End Props.

(* ================================================================== *)
(** * Facts *)

(** ** Python built-ins *)

Section PyFacts.

Local Open Scope Q_scope.

Lemma py_le_iff (a b : Q) : Py.le a b = true <-> a <= b.
Proof. unfold Py.le. apply Qle_bool_iff. Qed.

Lemma py_lt_iff (a b : Q) : Py.lt a b = true <-> a < b.
Proof.
  unfold Py.lt. rewrite negb_true_iff.
  split; intro H.
  - apply Qnot_le_lt. intro Hle.
    apply Qle_bool_iff in Hle. congruence.
  - destruct (Qle_bool b a) eqn:E; [|reflexivity].
    apply Qle_bool_iff in E. exfalso. apply (Qlt_not_le _ _ H E).
Qed.

Lemma py_gt_iff (a b : Q) : Py.gt a b = true <-> b < a.
Proof. unfold Py.gt. apply py_lt_iff. Qed.

Lemma py_le_false_iff (a b : Q) : Py.le a b = false <-> b < a.
Proof.
  rewrite <- py_lt_iff. unfold Py.lt, Py.le.
  destruct (Qle_bool a b); simpl; intuition congruence.
Qed.

End PyFacts.

(** ** Effect pools *)

Section EffectsFacts.

Import Effects Spec.
Local Open Scope Q_scope.

(** C5. With [dt <= 0] each of [update_particles], [update_ripples]
    and [update_snake_washes] returns the pool it was given,
    every entry unchanged, whatever the pool and the max index. *)
Theorem update_pools_noop
    (particles : list Particle) (ripples : list GridRipple)
    (washes : list SnakeWash) (max_index : Z) (dt : Q) :
  dt <= 0 ->
  update_particles particles dt = particles
  /\ update_ripples ripples dt = ripples
  /\ update_snake_washes washes dt max_index = washes.
Proof.
  intro Hdt. apply py_le_iff in Hdt.
  unfold update_particles, update_ripples, update_snake_washes.
  rewrite Hdt. repeat split.
Qed.

Lemma update_pools_noop_witness :
  - (1 # 60) <= 0
  /\ update_particles [sample_particle] (- (1 # 60)) = [sample_particle]
  /\ update_ripples [sample_ripple] (- (1 # 60)) = [sample_ripple]
  /\ update_snake_washes [sample_wash] (- (1 # 60)) 3 = [sample_wash].
Proof.
  assert (H : - (1 # 60) <= 0) by (vm_compute; discriminate).
  split; [exact H|].
  exact (update_pools_noop [sample_particle] [sample_ripple]
           [sample_wash] 3 (- (1 # 60)) H).
Defined.

(** With a positive [dt] the pools do move: the no-op is the guard's
    doing, not the update's. *)
Example update_ripples_advances :
  update_ripples [sample_ripple] (1 # 10)
  = [mkRipple 8 8 (12 # 10) ((6 # 10) - (1 # 10)) (165 # 10) (8 # 10)
              (55 # 100) 0].
Proof. reflexivity. Qed.

End EffectsFacts.

(** ** Ripple culling *)

Section EnemiesFacts.

Import Effects Enemies Spec.
Local Open Scope Q_scope.

Variable hypot : Q -> Q -> Q.

Lemma progress_positive_iff (t d : Q) :
  0 < d -> (0 < 1 - t / d <-> t < d).
Proof.
  intro Hd.
  assert (Hne : ~ d == 0) by (intro E; rewrite E in Hd; discriminate).
  assert (Ht : t / d * d == t) by (field; exact Hne).
  remember (t / d) as q eqn:Eq. clear Eq.
  split; intro H.
  - assert (H1 : q < 1) by lra.
    apply (proj2 (Qmult_lt_r q 1 d Hd)) in H1. lra.
  - assert (H1 : q * d < 1 * d) by lra.
    apply (proj1 (Qmult_lt_r q 1 d Hd)) in H1. lra.
Qed.

Lemma ripple_hits_iff (e : RippleEnemy) (r : GridRipple) :
  ripple_hits hypot e r = true <-> expanding_band hypot e r.
Proof.
  unfold ripple_hits, expanding_band, in_band, dist_cells, current_radius.
  destruct (Py.le (duration r) 0) eqn:Ed.
  - apply py_le_iff in Ed. split; [discriminate|].
    intros [H _]. lra.
  - apply py_le_false_iff in Ed.
    destruct (Py.le (1 - timer r / duration r) 0) eqn:Ep.
    + apply py_le_iff in Ep. split; [discriminate|].
      intros [_ [H _]]. apply (progress_positive_iff _ _ Ed) in H. lra.
    + apply py_le_false_iff in Ep.
      rewrite py_le_iff. split.
      * intro H. repeat split; try assumption.
        apply (progress_positive_iff _ _ Ed). exact Ep.
      * intros [_ [_ H]]. exact H.
Qed.

Lemma enemy_destroyed_iff (e : RippleEnemy) (ripples : list GridRipple) :
  enemy_destroyed hypot e ripples = true
  <-> exists r, In r ripples /\ expanding_band hypot e r.
Proof.
  induction ripples as [|r rest IH]; simpl.
  - split; [discriminate | intros [r [[] _]]].
  - destruct (ripple_hits hypot e r) eqn:Eh.
    + split; [|reflexivity]. intros _. exists r. split; [now left|].
      apply ripple_hits_iff. exact Eh.
    + rewrite IH. split.
      * intros [r' [Hin Hb]]. exists r'. split; [now right | exact Hb].
      * intros [r' [[Heq | Hin] Hb]].
        -- subst r'. apply ripple_hits_iff in Hb. congruence.
        -- exists r'. split; assumption.
Qed.

Lemma cull_loop_split (enemies : list RippleEnemy)
    (ripples : list GridRipple) (e : RippleEnemy) :
  (In e (fst (cull_loop hypot enemies ripples))
   <-> In e enemies /\ enemy_destroyed hypot e ripples = false)
  /\ (In e (snd (cull_loop hypot enemies ripples))
      <-> In e enemies /\ enemy_destroyed hypot e ripples = true).
Proof.
  induction enemies as [|a rest [IHs IHd]]; simpl.
  - split; split; intros H; try contradiction; destruct H as [[] _].
  - destruct (cull_loop hypot rest ripples) as [survivors destroyed].
    simpl in IHs, IHd.
    destruct (enemy_destroyed hypot a ripples) eqn:Ea; simpl; split.
    + rewrite IHs. split.
      * intros [H1 H2]. auto.
      * intros [[H | H] H2]; [subst a; congruence | auto].
    + rewrite IHd. split.
      * intros [H | [H1 H2]]; [subst a; auto | auto].
      * intros [[H | H] H2]; auto.
    + rewrite IHs. split.
      * intros [H | [H1 H2]]; [subst a; auto | auto].
      * intros [[H | H] H2]; auto.
    + rewrite IHd. split.
      * intros [H1 H2]. auto.
      * intros [[H | H] H2]; [subst a; congruence | auto].
Qed.

(** C3 (amended). An enemy of the list is reported destroyed, and
    dropped from the survivors, exactly when some ripple of positive
    duration that has started to expand ([timer < duration]) has the
    enemy within [band_width] of its current radius; an enemy outside
    the band of every ripple is never removed. *)
Theorem cull_removes_iff_expanding_band
    (enemies : list RippleEnemy) (ripples : list GridRipple)
    (e : RippleEnemy) :
  let result := cull_enemies_hit_by_ripples hypot enemies ripples in
  (In e (snd result)
   <-> In e enemies /\ exists r, In r ripples /\ expanding_band hypot e r)
  /\ (In e (fst result)
      <-> In e enemies
          /\ ~ exists r, In r ripples /\ expanding_band hypot e r)
  /\ ((forall r, In r ripples -> ~ in_band hypot e r) ->
      ~ In e (snd result)).
Proof.
  intro result.
  assert (Hloop : result = cull_loop hypot enemies ripples).
  { unfold result, cull_enemies_hit_by_ripples.
    destruct enemies as [|a rest]; [reflexivity|].
    destruct ripples as [|r rs]; [|reflexivity].
    simpl. clear result.
    assert (G : forall l, cull_loop hypot l [] = (l, [])).
    { induction l as [|b l IHl]; simpl; [reflexivity|].
      rewrite IHl. reflexivity. }
    specialize (G rest). rewrite G. reflexivity. }
  rewrite Hloop.
  destruct (cull_loop_split enemies ripples e) as [Hs Hd].
  assert (Hsnd : In e (snd (cull_loop hypot enemies ripples))
                 <-> In e enemies
                     /\ exists r, In r ripples /\ expanding_band hypot e r).
  { rewrite Hd, enemy_destroyed_iff. reflexivity. }
  split; [exact Hsnd|]. split.
  - rewrite Hs, <- enemy_destroyed_iff.
    destruct (enemy_destroyed hypot e ripples); intuition congruence.
  - intros Hout Hin. apply Hsnd in Hin.
    destruct Hin as [_ [r [Hr [_ [_ Hb]]]]].
    exact (Hout r Hr Hb).
Qed.

End EnemiesFacts.

Section EnemiesRuns.

Import Effects Enemies Spec.
Local Open Scope Q_scope.

(** Whatever [math.hypot] returns away from the origin, as long as
    [hypot 0 0] is 0 the enemy on the origin of a fresh ripple is in
    the band and survives the cull. *)
Lemma fresh_ripple_spares_any_hypot (hypot : Q -> Q -> Q) :
  hypot 0 0 == 0 ->
  in_band hypot enemy_at_origin fresh_ripple
  /\ cull_enemies_hit_by_ripples hypot [enemy_at_origin] [fresh_ripple]
     = ([enemy_at_origin], []).
Proof.
  intro H0. split; [|reflexivity].
  unfold in_band, dist_cells, current_radius.
  change (e_x enemy_at_origin - x fresh_ripple) with 0.
  change (e_y enemy_at_origin - y fresh_ripple) with 0.
  rewrite H0. vm_compute. discriminate.
Qed.

(** C3 as stated fails on a ripple that has not started to expand:
    the enemy sits on the origin of a fresh ripple, inside the band
    around radius 0, and the cull keeps it. *)
Lemma cull_spares_enemy_on_fresh_ripple :
  ~ destroyed_iff_in_band hypot_q [enemy_at_origin] [fresh_ripple]
      enemy_at_origin.
Proof.
  unfold destroyed_iff_in_band. intros [_ H].
  assert (Hin : In enemy_at_origin
                  (snd (cull_enemies_hit_by_ripples hypot_q
                          [enemy_at_origin] [fresh_ripple]))).
  { apply H. split; [now left|].
    exists fresh_ripple. split; [now left|].
    split; [reflexivity|].
    unfold in_band. vm_compute. discriminate. }
  vm_compute in Hin. exact Hin.
Qed.

(** Scenario C: radius 5 cells; 5.3 cells away is destroyed, 6.5 is not. *)
Example scenario_C :
  Qred (current_radius scenario_ripple) = 5
  /\ Qred (dist_cells hypot_q enemy_near scenario_ripple) = 53 # 10
  /\ Qred (dist_cells hypot_q enemy_far scenario_ripple) = 13 # 2
  /\ cull_enemies_hit_by_ripples hypot_q [enemy_near; enemy_far]
       [scenario_ripple]
     = ([enemy_far], [enemy_near]).
Proof. repeat split; vm_compute; reflexivity. Qed.

End EnemiesRuns.

(** ** Synth: the quantization grid *)

Section RoundFacts.

Local Open Scope Q_scope.

Lemma round_ge_floor (x : Q) : (Qfloor x <= Py.round x)%Z.
Proof.
  unfold Py.round.
  destruct (Qcompare (x - inject_Z (Qfloor x)) (1 # 2)); try lia.
  destruct (Z.even (Qfloor x)); lia.
Qed.

Lemma round_le_floor_succ (x : Q) : (Py.round x <= Qfloor x + 1)%Z.
Proof.
  unfold Py.round.
  destruct (Qcompare (x - inject_Z (Qfloor x)) (1 # 2)); try lia.
  destruct (Z.even (Qfloor x)); lia.
Qed.

Lemma round_lower (x : Q) (n : Z) : inject_Z n <= x -> (n <= Py.round x)%Z.
Proof.
  intro H. apply Qfloor_resp_le in H. rewrite Qfloor_Z in H.
  pose proof (round_ge_floor x). lia.
Qed.

Lemma round_upper (x : Q) (n : Z) : x <= inject_Z n -> (Py.round x <= n)%Z.
Proof.
  intro H.
  pose proof (Qfloor_le x) as Hf.
  assert (Hfn : (Qfloor x <= n)%Z).
  { rewrite Zle_Qle. apply (Qle_trans _ x); assumption. }
  destruct (Z.eq_dec (Qfloor x) n) as [E | NE].
  - unfold Py.round.
    assert (Hd : x - inject_Z (Qfloor x) < 1 # 2).
    { rewrite E. lra. }
    rewrite (proj1 (Qlt_alt _ _) Hd). lia.
  - pose proof (round_le_floor_succ x). lia.
Qed.

End RoundFacts.

Section AudioFacts.

Import Audio Spec.
Local Open Scope Q_scope.

Variable sin : Q -> Q.
Variable pi : Q.
Variable random : Z -> Q.
Variable sample_rate : Z.

(** C4 (amended). With [bitcrush_levels = L > 0] every sample, after
    the envelope and the bitcrush and before normalisation, equals
    [k / L] for the integer [k = round(v * L)], [v] being the enveloped
    sample; [k] lies in [[-L, L]] whenever [|v| <= 1]. *)
Theorem bitcrush_on_grid (patch : SynthPatch) (idx : Z) :
  (0 < bitcrush_levels patch)%Z ->
  let L := bitcrush_levels patch in
  let v := enveloped sin pi random sample_rate patch idx in
  exists k : Z,
    k = Py.round (v * inject_Z L)
    /\ rendered_sample sin pi random sample_rate patch idx
       == inject_Z k / inject_Z L
    /\ (Qabs v <= 1 -> (- L <= k <= L)%Z).
Proof.
  intros HL L v. exists (Py.round (v * inject_Z L)).
  split; [reflexivity|]. split.
  - unfold rendered_sample. fold L. fold v.
    assert (E : (L >? 0)%Z = true) by (apply Z.gtb_lt; exact HL).
    rewrite E. reflexivity.
  - intro Hv. apply Qabs_Qle_condition in Hv. destruct Hv as [Hlo Hhi].
    assert (HLq : 0 <= inject_Z L).
    { change 0 with (inject_Z 0). rewrite <- Zle_Qle. fold L in HL. lia. }
    split.
    + apply round_lower. rewrite inject_Z_opp.
      apply (Qmult_le_compat_r _ _ _ Hlo) in HLq. lra.
    + apply round_upper.
      apply (Qmult_le_compat_r _ _ _ Hhi) in HLq. lra.
Qed.

End AudioFacts.

Section AudioRuns.

Import Audio Spec.
Local Open Scope Q_scope.

(** The first sample of ["enemy_destroy"] at 32 kHz with a noise draw
    of one half: both partials are high, the envelope is at its peak. *)
Lemma enemy_destroy_first_sample :
  rendered_sample (fun _ => 0) 0 (fun _ => 1 # 2) 32000
    patch_enemy_destroy 0 = 5 # 3.
Proof. vm_compute. reflexivity. Qed.

(** The patch is a square wave without vibrato, so neither [math.sin]
    nor [math.pi] is consulted: the value is the same for all of
    them. *)
Lemma enemy_destroy_first_sample_any_sin (sin : Q -> Q) (pi : Q) :
  rendered_sample sin pi (fun _ => 1 # 2) 32000 patch_enemy_destroy 0
  = 5 # 3.
Proof. vm_compute. reflexivity. Qed.

(** C4 as stated fails there: the sample is 5/3, off the range
    [[-3/3, 3/3]]. *)
Lemma bitcrush_leaves_unit_range :
  ~ on_grid_within (bitcrush_levels patch_enemy_destroy)
      (rendered_sample (fun _ => 0) 0 (fun _ => 1 # 2) 32000
         patch_enemy_destroy 0).
Proof.
  rewrite enemy_destroy_first_sample.
  intros [k [Hk Heq]].
  unfold Qeq, Qdiv, Qmult, Qinv in Heq. simpl in Heq, Hk. lia.
Qed.

Lemma bitcrush_on_grid_witness :
  (0 < bitcrush_levels patch_enemy_destroy)%Z
  /\ exists k : Z,
       k = Py.round
             (enveloped (fun _ => 0) 0 (fun _ => 1 # 2) 32000
                patch_enemy_destroy 0
              * inject_Z (bitcrush_levels patch_enemy_destroy))
       /\ rendered_sample (fun _ => 0) 0 (fun _ => 1 # 2) 32000
            patch_enemy_destroy 0
          == inject_Z k / inject_Z (bitcrush_levels patch_enemy_destroy)
       /\ (Qabs (enveloped (fun _ => 0) 0 (fun _ => 1 # 2) 32000
                   patch_enemy_destroy 0) <= 1 ->
           (- bitcrush_levels patch_enemy_destroy <= k
            <= bitcrush_levels patch_enemy_destroy)%Z).
Proof.
  assert (H : (0 < bitcrush_levels patch_enemy_destroy)%Z) by reflexivity.
  split; [exact H|].
  exact (bitcrush_on_grid (fun _ => 0) 0 (fun _ => 1 # 2) 32000
           patch_enemy_destroy 0 H).
Defined.

End AudioRuns.

(** ** Cells and lists of cells *)

Section CellFacts.

Import Config Game.

Lemma cell_eqb_eq (a b : Cell) : cell_eqb a b = true <-> a = b.
Proof.
  unfold cell_eqb. destruct a as [a1 a2], b as [b1 b2]. simpl.
  rewrite andb_true_iff, !Z.eqb_eq. split.
  - intros [H1 H2]. congruence.
  - intro H. inversion H. auto.
Qed.

Lemma cell_in_iff (c : Cell) (cells : list Cell) :
  cell_in c cells = true <-> In c cells.
Proof.
  unfold cell_in. rewrite existsb_exists. split.
  - intros [b [Hin Heq]]. apply cell_eqb_eq in Heq. congruence.
  - intro Hin. exists c. split; [exact Hin | now apply cell_eqb_eq].
Qed.

Lemma cell_in_false_iff (c : Cell) (cells : list Cell) :
  cell_in c cells = false <-> ~ In c cells.
Proof.
  rewrite <- cell_in_iff. destruct (cell_in c cells); intuition congruence.
Qed.

Lemma choice_in {A : Type} (pick : nat) (o : A) (os : list A) :
  In (Py.choice pick (o :: os) o) (o :: os).
Proof.
  unfold Py.choice. apply nth_In.
  apply Nat.mod_upper_bound. simpl. discriminate.
Qed.

End CellFacts.

(** ** Desired enemy count *)

Section DesiredFacts.

Import Config Game Spec.

Lemma Qfloor_div_pos (a : Z) (p : positive) :
  Qfloor (inject_Z a / inject_Z (Zpos p)) = (a / Zpos p)%Z.
Proof.
  unfold Qdiv, Qmult, Qinv, inject_Z. simpl.
  rewrite Z.mul_1_r. reflexivity.
Qed.

(** C8. The desired concurrent enemy count is
    [1 + floor(fruits_eaten/2) + floor(score/80)] clamped to [[1, 5]],
    hence always between 1 and 5. *)
Theorem desired_enemy_count_clamped (g : NeonSnake) :
  _desired_enemy_count g = desired_spec (fruits_eaten g) (score g)
  /\ (1 <= _desired_enemy_count g <= 5)%Z.
Proof.
  unfold _desired_enemy_count, desired_spec, clamp.
  change 2%Q with (inject_Z 2). change 80%Q with (inject_Z 80).
  rewrite !Qfloor_div_pos.
  set (d := (1 + fruits_eaten g / 2 + score g / 80)%Z).
  destruct (d <? 1)%Z eqn:E1; [apply Z.ltb_lt in E1 | apply Z.ltb_ge in E1];
    destruct (5 <? d)%Z eqn:E2;
    [apply Z.ltb_lt in E2 | apply Z.ltb_ge in E2
    |apply Z.ltb_lt in E2 | apply Z.ltb_ge in E2]; lia.
Qed.

Example desired_enemy_count_values :
  map (fun fs => _desired_enemy_count
                   (set_fruits_eaten (fst fs) (set_score (snd fs) scenario_A)))
      [ (0, 0); (1, 10); (2, 20); (3, 65); (4, 80); (6, 160); (40, 900) ]%Z
  = [ 1; 1; 2; 2; 4; 5; 5 ]%Z.
Proof. reflexivity. Qed.

End DesiredFacts.

(** ** Fruit placement *)

Section FruitFacts.

Import Config Game Spec.

Lemma random_fruit_pos_cons (a b : Z) (rest : list (Z * Z))
    (blocks : list Cell) :
  _random_fruit_pos ((a, b) :: rest) blocks
  = if cell_in (a * BLOCK, b * BLOCK)%Z corner_cells
    then _random_fruit_pos rest blocks
    else if negb (cell_in (a * BLOCK, b * BLOCK)%Z blocks)
         then Some (a * BLOCK, b * BLOCK)%Z
         else _random_fruit_pos rest blocks.
Proof. reflexivity. Qed.

Lemma random_fruit_pos_sound (draws : list (Z * Z)) (blocks : list Cell)
    (p : Cell) :
  _random_fruit_pos draws blocks = Some p ->
  (exists a b, In (a, b) draws /\ p = (a * BLOCK, b * BLOCK)%Z)
  /\ ~ In p corner_cells /\ ~ In p blocks.
Proof.
  induction draws as [|[a b] rest IH]; [discriminate|].
  rewrite random_fruit_pos_cons.
  destruct (cell_in (a * BLOCK, b * BLOCK)%Z corner_cells) eqn:Ec.
  - intro H. destruct (IH H) as [[a' [b' [Hin Hp]]] Hrest].
    split; [exists a', b'; split; [now right | exact Hp] | exact Hrest].
  - destruct (cell_in (a * BLOCK, b * BLOCK)%Z blocks) eqn:Eb;
      cbn [negb].
    + intro H. destruct (IH H) as [[a' [b' [Hin Hp]]] Hrest].
      split; [exists a', b'; split; [now right | exact Hp] | exact Hrest].
    + intro H. inversion H; subst p.
      split; [exists a, b; split; [now left | reflexivity]|].
      split; apply cell_in_false_iff; assumption.
Qed.

(** The loop ends as soon as a draw is neither a corner nor on the
    snake. *)
Lemma random_fruit_pos_returns (draws : list (Z * Z)) (blocks : list Cell) :
  (exists a b, In (a, b) draws
               /\ ~ In (a * BLOCK, b * BLOCK)%Z corner_cells
               /\ ~ In (a * BLOCK, b * BLOCK)%Z blocks) ->
  exists p, _random_fruit_pos draws blocks = Some p.
Proof.
  induction draws as [|[a b] rest IH]; intros [a' [b' [Hin [Hc Hb]]]].
  - destruct Hin.
  - rewrite random_fruit_pos_cons.
    assert (Hrest : (a', b') = (a, b) \/
                    exists p, _random_fruit_pos rest blocks = Some p).
    { destruct Hin as [Heq | Hin]; [left; congruence|].
      right. apply IH. exists a', b'. auto. }
    destruct (cell_in (a * BLOCK, b * BLOCK)%Z corner_cells) eqn:Ec.
    + destruct Hrest as [Heq | Hex]; [|exact Hex].
      inversion Heq; subst a' b'. apply cell_in_iff in Ec. contradiction.
    + destruct (cell_in (a * BLOCK, b * BLOCK)%Z blocks) eqn:Eb;
        cbn [negb]; [|eexists; reflexivity].
      destruct Hrest as [Heq | Hex]; [|exact Hex].
      inversion Heq; subst a' b'. apply cell_in_iff in Eb. contradiction.
Qed.

(** C9. A fruit position produced by [spawn_fruit] is grid-aligned, is
    none of the four corner cells and is no cell of the snake body the
    spawn started from. *)
Theorem spawned_fruit_is_free_cell (draws : list (Z * Z)) (color_pick : Z)
    (g g' : NeonSnake) :
  spawn_fruit draws color_pick g = Some g' ->
  grid_aligned (fruit_pos g')
  /\ ~ In (fruit_pos g')
          [ (0, 0); (0, WINDOW_SIZE - BLOCK); (WINDOW_SIZE - BLOCK, 0);
            (WINDOW_SIZE - BLOCK, WINDOW_SIZE - BLOCK) ]%Z
  /\ ~ In (fruit_pos g') (snake_blocks g)
  /\ snake_blocks g' = snake_blocks g.
Proof.
  unfold spawn_fruit.
  destruct (_random_fruit_pos draws (snake_blocks g)) as [p|] eqn:E;
    [|discriminate].
  intro H. inversion H; subst g'. simpl.
  destruct (random_fruit_pos_sound _ _ _ E) as [[a [b [_ Hp]]] [Hc Hb]].
  split; [|split; [exact Hc | split; [exact Hb | reflexivity]]].
  subst p. unfold grid_aligned. simpl. split; apply Z.mod_mul; discriminate.
Qed.

Lemma spawned_fruit_is_free_cell_witness :
  spawn_fruit (fruit_cells quiet_draw) 1 scenario_B
  = Some (set_fruit (320, 240)%Z 1 scenario_B)
  /\ grid_aligned (320, 240)%Z
  /\ ~ In (320, 240)%Z [ (0, 0); (0, 464); (464, 0); (464, 464) ]%Z
  /\ ~ In (320, 240)%Z [ (160, 80); (144, 80); (128, 80) ]%Z.
Proof.
  assert (H : spawn_fruit (fruit_cells quiet_draw) 1 scenario_B
              = Some (set_fruit (320, 240)%Z 1 scenario_B))
    by reflexivity.
  split; [exact H|].
  destruct (spawned_fruit_is_free_cell _ _ _ _ H) as [Ha [Hc [Hb _]]].
  exact (conj Ha (conj Hc Hb)).
Defined.

End FruitFacts.

(** ** Bonus placement *)

Section BonusFacts.

Import Config Game Spec.
Local Open Scope Q_scope.

Lemma reachable_bonus_spots_spec (g : NeonSnake) (c : Cell) :
  In c (_reachable_bonus_spots g) ->
  In (fst c) (Py.range 0 WINDOW_SIZE BLOCK)
  /\ In (snd c) (Py.range 0 WINDOW_SIZE BLOCK)
  /\ ~ In c (snake_blocks g)
  /\ c <> fruit_pos g
  /\ (manhattan_steps (head g) c <= max_steps g)%Z.
Proof.
  unfold _reachable_bonus_spots. intro H.
  apply in_flat_map in H. destruct H as [cx [Hx H]].
  apply in_flat_map in H. destruct H as [cy [Hy H]].
  destruct (cell_in (cx, cy) (snake_blocks g)) eqn:Eb;
    [destruct H|].
  destruct (cell_eqb (cx, cy) (fruit_pos g)) eqn:Ef;
    [destruct H|].
  simpl in H.
  destruct (manhattan_steps (head g) (cx, cy) <=? max_steps g)%Z eqn:Ed;
    [|destruct H].
  destruct H as [H | []]. subst c. simpl.
  repeat split; try assumption.
  - apply cell_in_false_iff. exact Eb.
  - intro E. apply cell_eqb_eq in E. congruence.
  - apply Z.leb_le. exact Ed.
Qed.

Lemma maybe_spawn_bonus_picks_spot (chance roll : Q) (pick : nat)
    (g : NeonSnake) (b : BonusFruit) :
  bonus g = None ->
  bonus (_maybe_spawn_bonus chance roll pick g) = Some b ->
  In (pos b) (_reachable_bonus_spots g).
Proof.
  unfold _maybe_spawn_bonus. intros Hnone.
  rewrite Hnone.
  destruct (Py.gt roll chance); [congruence|].
  destruct (_reachable_bonus_spots g) as [|o os] eqn:E; [congruence|].
  simpl. intro H. inversion H; subst b. simpl. apply choice_in.
Qed.

(** C10. Every cell enumerated by [_reachable_bonus_spots] differs
    from every snake body cell and from the fruit position, so the
    bonus that [_maybe_spawn_bonus] places overlaps neither. *)
Theorem bonus_spots_avoid_snake_and_fruit (g : NeonSnake) :
  (forall c, In c (_reachable_bonus_spots g) ->
             ~ In c (snake_blocks g) /\ c <> fruit_pos g)
  /\ (forall chance roll pick b,
        bonus g = None ->
        bonus (_maybe_spawn_bonus chance roll pick g) = Some b ->
        ~ In (pos b) (snake_blocks g) /\ pos b <> fruit_pos g).
Proof.
  assert (H : forall c, In c (_reachable_bonus_spots g) ->
                        ~ In c (snake_blocks g) /\ c <> fruit_pos g).
  { intros c Hc.
    destruct (reachable_bonus_spots_spec g c Hc) as [_ [_ [Hb [Hf _]]]].
    split; assumption. }
  split; [exact H|].
  intros chance roll pick b Hnone Hb. apply H.
  exact (maybe_spawn_bonus_picks_spot chance roll pick g b Hnone Hb).
Qed.

Lemma spot_below_head :
  In (176, 96)%Z (_reachable_bonus_spots scenario_B).
Proof. apply cell_in_iff. vm_compute. reflexivity. Qed.

Lemma bonus_spots_avoid_snake_and_fruit_witness :
  In (176, 96)%Z (_reachable_bonus_spots scenario_B)
  /\ ~ In (176, 96)%Z (snake_blocks scenario_B)
  /\ (176, 96)%Z <> fruit_pos scenario_B.
Proof.
  split; [exact spot_below_head|].
  exact (proj1 (bonus_spots_avoid_snake_and_fruit scenario_B)
           (176, 96)%Z spot_below_head).
Defined.

(** [int] truncates; on a non-negative float it is the floor. *)
Lemma int_floor_nonneg (q : Q) : 0 <= q -> Py.int q = Qfloor q.
Proof.
  intro H. unfold Py.int. destruct q as [n d]. simpl.
  apply Z.quot_div_nonneg; [|reflexivity].
  unfold Qle in H. simpl in H. lia.
Qed.

Lemma update_speed_synced (g : NeonSnake) : speed_synced (_update_speed g).
Proof.
  unfold speed_synced, _update_speed. simpl. split; [|reflexivity].
  unfold Py.min, Py.max.
  apply Q.min_glb; [vm_compute; discriminate | apply Q.le_max_l].
Qed.

Lemma steps_left_at_least_three (g : NeonSnake) :
  speed_synced g ->
  0 <= BONUS_DURATION / move_interval g
  /\ (3 <= Qfloor (BONUS_DURATION / move_interval g))%Z.
Proof.
  intros [Hs Hmi].
  assert (Hne : ~ current_speed g == 0) by (intro E; rewrite E in Hs; lra).
  assert (Hq : BONUS_DURATION / move_interval g
               == BONUS_DURATION * current_speed g).
  { rewrite Hmi. field. exact Hne. }
  unfold BONUS_DURATION in *.
  assert (Hge : inject_Z 3 <= (7 # 2) / move_interval g).
  { rewrite Hq. change (inject_Z 3) with 3. lra. }
  split.
  - apply (Qle_trans _ (inject_Z 3)); [vm_compute; discriminate | exact Hge].
  - apply Qfloor_resp_le in Hge. rewrite Qfloor_Z in Hge. exact Hge.
Qed.

(** C7. On a state whose speed and step interval are as
    [_update_speed] leaves them, every bonus candidate lies within
    [floor(BONUS_DURATION / move_interval) - 1] grid steps (Manhattan)
    of the head. *)
Theorem bonus_spots_within_reach (g : NeonSnake) (c : Cell) :
  speed_synced g ->
  In c (_reachable_bonus_spots g) ->
  (manhattan_steps (head g) c
   <= Qfloor (BONUS_DURATION / move_interval g) - 1)%Z.
Proof.
  intros Hs Hc.
  destruct (reachable_bonus_spots_spec g c Hc) as [_ [_ [_ [_ Hd]]]].
  destruct (steps_left_at_least_three g Hs) as [H0 H3].
  unfold max_steps in Hd. rewrite (int_floor_nonneg _ H0) in Hd. lia.
Qed.

Lemma scenario_B_synced : speed_synced scenario_B.
Proof. apply update_speed_synced. Qed.

Lemma bonus_spots_within_reach_witness :
  speed_synced scenario_B
  /\ In (176, 96)%Z (_reachable_bonus_spots scenario_B)
  /\ (manhattan_steps (head scenario_B) (176, 96)%Z
      <= Qfloor (BONUS_DURATION / move_interval scenario_B) - 1)%Z.
Proof.
  split; [exact scenario_B_synced|]. split; [exact spot_below_head|].
  exact (bonus_spots_within_reach scenario_B (176, 96)%Z
           scenario_B_synced spot_below_head).
Defined.

Example scenario_B_reach :
  manhattan_steps (head scenario_B) (176, 96)%Z = 2%Z
  /\ max_steps scenario_B = 34%Z
  /\ Qfloor (BONUS_DURATION / move_interval scenario_B) = 35%Z
  /\ length (_reachable_bonus_spots scenario_B) = 851%nat.
Proof. repeat split; vm_compute; reflexivity. Qed.

End BonusFacts.

(** ** The fixed step *)

Section StepFacts.

Import Config Game Spec.
Local Open Scope Q_scope.

Lemma In_removelast {A : Type} (a : A) (l : list A) :
  In a (removelast l) -> In a l.
Proof.
  induction l as [|b l IH]; simpl; [tauto|].
  destruct l as [|c l]; [tauto|].
  intros [H | H]; [now left | right; apply IH; exact H].
Qed.

Lemma NoDup_removelast {A : Type} (l : list A) :
  NoDup l -> NoDup (removelast l).
Proof.
  induction 1 as [|a l Hnotin Hnd IH]; simpl; [constructor|].
  destruct l as [|c l]; [constructor|].
  constructor; [|exact IH].
  intro Hin. apply Hnotin. apply In_removelast. exact Hin.
Qed.

Lemma length_removelast_cons {A : Type} (a : A) (l : list A) :
  length (removelast (a :: l)) = length l.
Proof.
  revert a. induction l as [|b l IH]; intro a; [reflexivity|].
  change (removelast (a :: b :: l)) with (a :: removelast (b :: l)).
  cbn [length]. f_equal. apply IH.
Qed.

Lemma maybe_spawn_bonus_frame (chance roll : Q) (pick : nat)
    (g : NeonSnake) :
  same_snake g (_maybe_spawn_bonus chance roll pick g)
  /\ same_speed g (_maybe_spawn_bonus chance roll pick g).
Proof.
  unfold _maybe_spawn_bonus, same_snake, same_speed.
  destruct (bonus g); [tauto|].
  destruct (Py.gt roll chance); [tauto|].
  destruct (_reachable_bonus_spots g); [tauto|].
  unfold set_bonus. cbn. tauto.
Qed.

Lemma start_enemy_spawns_frame (u : Q) (g : NeonSnake) :
  same_snake g (_start_enemy_spawns u g)
  /\ same_speed g (_start_enemy_spawns u g).
Proof.
  unfold _start_enemy_spawns, same_snake, same_speed.
  destruct (enemy_spawns_active g); [tauto|].
  unfold _schedule_enemy_spawn, set_enemy_spawn_timer,
    set_enemy_spawns_active. cbn. tauto.
Qed.

Lemma eat_fruit_frame (d : StepDraw) (g g' : NeonSnake) :
  eat_fruit d g = Some g' -> same_snake g g' /\ speed_synced g'.
Proof.
  unfold eat_fruit.
  set (g1 := _update_speed (set_score (score g + 10)%Z g)).
  set (g2 := _emit_ripple _ _ _ _ _ _ g1).
  set (g3 := set_snake_washes _ g2).
  assert (H3 : same_snake g g3 /\ same_speed g1 g3).
  { unfold same_snake, same_speed. subst g3 g2 g1. cbn. tauto. }
  unfold spawn_fruit.
  destruct (_random_fruit_pos (fruit_cells d) (snake_blocks g3)) as [p|];
    [|discriminate].
  set (g4 := set_fruit p (fruit_color_pick d) g3).
  assert (H4 : same_snake g3 g4 /\ same_speed g3 g4).
  { unfold same_snake, same_speed. subst g4. cbn. tauto. }
  set (g5 := _maybe_spawn_bonus _ _ _ g4).
  pose proof (maybe_spawn_bonus_frame BONUS_CHANCE (bonus_roll d)
                (bonus_pick d) g4) as H5. fold g5 in H5.
  set (g6 := set_fruits_eaten _ g5).
  assert (H6 : same_snake g5 g6 /\ same_speed g5 g6).
  { unfold same_snake, same_speed. subst g6. cbn. tauto. }
  pose proof (start_enemy_spawns_frame (delay_u d) g6) as H7.
  pose proof (update_speed_synced (set_score (score g + 10)%Z g)) as Hs.
  fold g1 in Hs.
  intro H. injection H as Hg'. subst g'.
  assert (Hall : same_snake g g6 /\ same_speed g1 g6).
  { unfold same_snake, same_speed in *. intuition congruence. }
  clear H3 H4 H5 H6.
  unfold same_snake, same_speed, speed_synced in *.
  destruct Hall as [[Ha [Hb Hc]] [Hd He]].
  destruct H7 as [[Ha' [Hb' Hc']] [Hd' He']].
  match goal with |- context [if ?c then _ else _] => destruct c end.
  - rewrite Ha', Hb', Hc', Hd', He', Ha, Hb, Hc, Hd, He. tauto.
  - rewrite Ha, Hb, Hc, Hd, He. tauto.
Qed.

Lemma handle_bonus_pickup_frame (roll : Q) (pick : nat) (g : NeonSnake)
    (b : BonusFruit) :
  bonus g = Some b ->
  same_snake g (_handle_bonus_pickup roll pick g)
  /\ speed_synced (_handle_bonus_pickup roll pick g).
Proof.
  intro Hb. unfold _handle_bonus_pickup. rewrite Hb.
  set (g1 := _update_speed _).
  set (g2 := _emit_ripple _ _ _ _ _ _ g1).
  set (g3 := _emit_ripple _ _ _ _ _ _ g2).
  set (g4 := set_snake_washes _ g3).
  assert (H4 : same_snake g g4 /\ same_speed g1 g4).
  { unfold same_snake, same_speed. subst g4 g3 g2 g1. cbn. tauto. }
  pose proof (maybe_spawn_bonus_frame (35 # 100) roll pick g4) as H5.
  pose proof (update_speed_synced
                (set_score (score (set_bonus None g) + BONUS_POINTS)%Z
                           (set_bonus None g))) as Hs.
  fold g1 in Hs.
  unfold same_snake, same_speed, speed_synced in *.
  destruct H4 as [[Ha [Hb' Hc]] [Hd He]].
  destruct H5 as [[Ha' [Hb'' Hc']] [Hd' He']].
  rewrite Ha', Hb'', Hc', Hd', He', Ha, Hb', Hc, Hd, He. tauto.
Qed.

End StepFacts.

Section StepTheorems.

Import Config Game Spec.
Local Open Scope Q_scope.

Lemma pop_tail_frame (g : NeonSnake) :
  snake_blocks (pop_tail g) = removelast (snake_blocks g)
  /\ head (pop_tail g) = head g /\ state (pop_tail g) = state g
  /\ same_speed g (pop_tail g) /\ score (pop_tail g) = score g.
Proof.
  unfold pop_tail, same_speed.
  destruct (snake_blocks g) as [|a l] eqn:E.
  - rewrite E. simpl. tauto.
  - unfold set_snake_blocks. cbn. tauto.
Qed.

Lemma game_over_frame (g : NeonSnake) :
  state (game_over g) = game_over_state
  /\ snake_blocks (game_over g) = snake_blocks g
  /\ head (game_over g) = head g
  /\ same_speed g (game_over g).
Proof.
  unfold game_over, same_speed.
  destruct (state g) eqn:E; cbn;
    try (destruct (score g >? high_score g)%Z; cbn); tauto.
Qed.

(** The collision branch: the match ends and the head is not
    committed. *)
Lemma step_collision (d : StepDraw) (g : NeonSnake) :
  In (new_head g) (snake_blocks g) ->
  step d g = Some (game_over (set_direction (pending_direction g) g)).
Proof.
  intro Hin. apply cell_in_iff in Hin. unfold step.
  change (snake_blocks (set_direction (pending_direction g) g))
    with (snake_blocks g).
  rewrite Hin. reflexivity.
Qed.

(** Every other branch: the head is inserted and the tail is popped,
    whether or not something was picked up. *)
Lemma step_moves (d : StepDraw) (g g' : NeonSnake) :
  ~ In (new_head g) (snake_blocks g) ->
  step d g = Some g' ->
  snake_blocks g' = removelast (new_head g :: snake_blocks g)
  /\ head g' = new_head g
  /\ state g' = state g
  /\ (speed_synced g -> speed_synced g').
Proof.
  intro Hfree. apply cell_in_false_iff in Hfree. unfold step.
  change (snake_blocks (set_direction (pending_direction g) g))
    with (snake_blocks g).
  rewrite Hfree.
  set (g1 := set_snake_blocks _ (set_head _ (set_direction _ g))).
  assert (H1 : snake_blocks g1 = new_head g :: snake_blocks g
               /\ head g1 = new_head g /\ state g1 = state g
               /\ same_speed g g1).
  { unfold same_speed. subst g1. cbn. tauto. }
  destruct H1 as [Hb [Hh [Hst [Hcs Hmi]]]].
  assert (Hpop : forall g2,
             same_snake g1 g2 ->
             (speed_synced g -> speed_synced g2) ->
             snake_blocks (pop_tail g2)
             = removelast (new_head g :: snake_blocks g)
             /\ head (pop_tail g2) = new_head g
             /\ state (pop_tail g2) = state g
             /\ (speed_synced g -> speed_synced (pop_tail g2))).
  { intros g2 [Hb2 [Hh2 Hst2]] Hs2.
    destruct (pop_tail_frame g2) as [Pb [Ph [Pst [[Pcs Pmi] _]]]].
    rewrite Pb, Ph, Pst, Hb2, Hh2, Hst2, Hb, Hh, Hst.
    split; [reflexivity|]. split; [reflexivity|]. split; [reflexivity|].
    intro Hs. specialize (Hs2 Hs).
    unfold speed_synced in *. rewrite Pcs, Pmi. exact Hs2. }
  assert (Hsame : speed_synced g -> speed_synced g1).
  { unfold speed_synced. rewrite Hcs, Hmi. tauto. }
  destruct (cell_eqb (head g1) (fruit_pos g1)).
  - destruct (eat_fruit d g1) as [g2|] eqn:E; [|discriminate].
    intro H. injection H as <-.
    destruct (eat_fruit_frame d g1 g2 E) as [Hsn Hsp].
    apply Hpop; [exact Hsn | intros _; exact Hsp].
  - destruct (bonus g1) as [b|] eqn:Eb.
    + destruct (cell_eqb (head g1) (pos b)).
      * intro H. injection H as <-.
        destruct (handle_bonus_pickup_frame (bonus_roll d) (bonus_pick d)
                    g1 b Eb) as [Hsn Hsp].
        apply Hpop; [exact Hsn | intros _; exact Hsp].
      * intro H. injection H as <-.
        apply Hpop; [unfold same_snake; tauto | exact Hsame].
    + intro H. injection H as <-.
      apply Hpop; [unfold same_snake; tauto | exact Hsame].
Qed.

(** The snake body keeps its length through every step that returns,
    fruit pickup included: the tail is popped on every path that
    commits the head. *)
Lemma step_keeps_length (d : StepDraw) (g g' : NeonSnake) :
  step d g = Some g' ->
  length (snake_blocks g') = length (snake_blocks g).
Proof.
  intro H.
  destruct (cell_in (new_head g) (snake_blocks g)) eqn:E.
  - apply cell_in_iff in E. rewrite (step_collision d g E) in H.
    injection H as <-.
    destruct (game_over_frame (set_direction (pending_direction g) g))
      as [_ [Hb _]].
    rewrite Hb. reflexivity.
  - apply cell_in_false_iff in E.
    destruct (step_moves d g g' E H) as [Hb _].
    rewrite Hb. apply length_removelast_cons.
Qed.

(** [step] returns unless the fruit is picked up and no listed draw is
    a free, non-corner cell. *)
Lemma step_returns (d : StepDraw) (g : NeonSnake) :
  (new_head g = fruit_pos g ->
   exists a b, In (a, b) (fruit_cells d)
               /\ ~ In (a * BLOCK, b * BLOCK)%Z corner_cells
               /\ ~ In (a * BLOCK, b * BLOCK)%Z
                       (new_head g :: snake_blocks g)) ->
  exists g', step d g = Some g'.
Proof.
  intro Hdraw. unfold step.
  change (snake_blocks (set_direction (pending_direction g) g))
    with (snake_blocks g).
  destruct (cell_in (new_head g) (snake_blocks g)); [eexists; reflexivity|].
  set (g1 := set_snake_blocks _ (set_head _ (set_direction _ g))).
  destruct (cell_eqb (head g1) (fruit_pos g1)) eqn:Ef.
  - apply cell_eqb_eq in Ef.
    assert (Hf : new_head g = fruit_pos g) by exact Ef.
    destruct (random_fruit_pos_returns _ _ (Hdraw Hf)) as [p Hp].
    unfold eat_fruit, spawn_fruit.
    match goal with
    | |- context [_random_fruit_pos ?ds ?bl] =>
        change (_random_fruit_pos ds bl)
          with (_random_fruit_pos (fruit_cells d)
                  (new_head g :: snake_blocks g))
    end.
    rewrite Hp. eexists. reflexivity.
  - destruct (bonus g1) as [b|]; [|eexists; reflexivity].
    destruct (cell_eqb (head g1) (pos b)); eexists; reflexivity.
Qed.

End StepTheorems.

Section StepRuns.

Import Config Game Spec.
Local Open Scope Q_scope.

Lemma reset_gives_scenario_B :
  _reset_game_state [ (0, 0); (10, 5); (11, 5) ]%Z 0 scenario_coiled
  = Some (set_high_score 70 scenario_B).
Proof. reflexivity. Qed.

Lemma reset_synced (draws : list (Z * Z)) (color_pick : Z)
    (g g' : NeonSnake) :
  _reset_game_state draws color_pick g = Some g' -> speed_synced g'.
Proof.
  unfold _reset_game_state.
  match goal with
  | |- context [spawn_fruit draws color_pick ?g0] =>
      destruct (spawn_fruit draws color_pick g0) as [g1|]
  end; [|discriminate].
  intro H. injection H as <-. apply update_speed_synced.
Qed.

(** C2. One step keeps the body cells pairwise distinct; and when the
    stepped head equals a body cell the step ends the match and
    leaves the head and the body list as they were. *)
Theorem step_keeps_body_distinct (d : StepDraw) (g g' : NeonSnake) :
  state g = running ->
  NoDup (snake_blocks g) ->
  step d g = Some g' ->
  NoDup (snake_blocks g')
  /\ (In (new_head g) (snake_blocks g) ->
      state g' = game_over_state
      /\ head g' = head g
      /\ snake_blocks g' = snake_blocks g).
Proof.
  intros _ Hnd Hstep.
  destruct (cell_in (new_head g) (snake_blocks g)) eqn:E.
  - apply cell_in_iff in E.
    rewrite (step_collision d g E) in Hstep. injection Hstep as <-.
    destruct (game_over_frame (set_direction (pending_direction g) g))
      as [Hst [Hb [Hh _]]].
    rewrite Hb, Hh, Hst. cbn [snake_blocks head set_direction].
    split; [exact Hnd | intros _; repeat split].
  - apply cell_in_false_iff in E.
    destruct (step_moves d g g' E Hstep) as [Hb _].
    split; [|intro Hin; contradiction].
    rewrite Hb. apply NoDup_removelast. constructor; assumption.
Qed.

Lemma coiled_body_distinct : NoDup (snake_blocks scenario_coiled).
Proof.
  repeat constructor; simpl; intuition discriminate.
Qed.

Lemma step_keeps_body_distinct_witness :
  state scenario_coiled = running
  /\ NoDup (snake_blocks scenario_coiled)
  /\ In (new_head scenario_coiled) (snake_blocks scenario_coiled)
  /\ exists g',
       step quiet_draw scenario_coiled = Some g'
       /\ NoDup (snake_blocks g')
       /\ state g' = game_over_state
       /\ head g' = head scenario_coiled
       /\ snake_blocks g' = snake_blocks scenario_coiled.
Proof.
  assert (Hin : In (new_head scenario_coiled)
                   (snake_blocks scenario_coiled)).
  { apply cell_in_iff. reflexivity. }
  split; [reflexivity|]. split; [exact coiled_body_distinct|].
  split; [exact Hin|].
  exists (game_over (set_direction LEFT scenario_coiled)).
  assert (Hstep : step quiet_draw scenario_coiled
                  = Some (game_over (set_direction LEFT scenario_coiled)))
    by reflexivity.
  split; [exact Hstep|].
  destruct (step_keeps_body_distinct quiet_draw scenario_coiled _
              eq_refl coiled_body_distinct Hstep) as [Hnd Hover].
  split; [exact Hnd | exact (Hover Hin)].
Defined.

(** Scenario A: one step to the right, no pickup, no collision. *)
Example scenario_A_step :
  exists g', step quiet_draw scenario_A = Some g'
             /\ head g' = (176, 80)%Z
             /\ snake_blocks g' = [ (176, 80); (160, 80); (144, 80) ]%Z
             /\ state g' = running /\ score g' = 0%Z.
Proof. eexists. split; [reflexivity|]. repeat split. Qed.

(** C1, at the failing input.  Scenario B: the fruit lies on the
    head's next cell.  The step scores the fruit and places a new one,
    and the body still has three cells: the tail is popped on the
    fruit path as on every other. *)
Theorem fruit_step_does_not_grow :
  new_head scenario_B = fruit_pos scenario_B
  /\ length (snake_blocks scenario_B) = 3%nat
  /\ exists g',
       step quiet_draw scenario_B = Some g'
       /\ state g' = running
       /\ score g' = 10%Z
       /\ fruits_eaten g' = 1%Z
       /\ fruit_pos g' = (320, 240)%Z
       /\ snake_blocks g' = [ (176, 80); (160, 80); (144, 80) ]%Z
       /\ length (snake_blocks g') = 3%nat.
Proof.
  split; [reflexivity|]. split; [reflexivity|].
  destruct (step quiet_draw scenario_B) as [g'|] eqn:E;
    [|vm_compute in E; discriminate].
  exists g'. split; [reflexivity|].
  vm_compute in E. injection E as <-. repeat split.
Qed.

End StepRuns.

(** ** The spawn countdown *)

Section SchedulerFacts.

Import Config Enemies Game Spec.
Local Open Scope Q_scope.

Variable hypot : Q -> Q -> Q.

Lemma uniform_in_range (a b u : Q) :
  a <= b -> 0 <= u <= 1 -> a <= Py.uniform a b u <= b.
Proof.
  intros Hab [H0 H1]. unfold Py.uniform.
  assert (Hd : 0 <= b - a) by lra.
  pose proof (Qmult_le_0_compat _ _ Hd H0) as Hlo.
  assert (H1u : 0 <= 1 - u) by lra.
  pose proof (Qmult_le_0_compat _ _ Hd H1u) as Hhi.
  split; [lra|].
  assert (E : (b - a) * (1 - u) == (b - a) - (b - a) * u) by ring.
  rewrite E in Hhi. lra.
Qed.

(** The delay [_schedule_enemy_spawn] assigns. *)
Lemma schedule_delay (u : Q) (g : NeonSnake) :
  0 <= u <= 1 ->
  exists base,
    18 # 10 <= base <= 26 # 10
    /\ enemy_spawn_timer (_schedule_enemy_spawn u g)
       = Py.max (45 # 100)
                (base / Py.max (6 # 10) (difficulty g / urgency g))
    /\ 45 # 100 <= enemy_spawn_timer (_schedule_enemy_spawn u g).
Proof.
  intro Hu. exists (Py.uniform (18 # 10) (26 # 10) u).
  split; [apply uniform_in_range; [vm_compute; discriminate | exact Hu]|].
  unfold _schedule_enemy_spawn, set_enemy_spawn_timer.
  cbn [enemy_spawn_timer]. split; [reflexivity|].
  unfold Py.max at 1. apply Q.le_max_l.
Qed.

(** C6 (amended). When the countdown of an active scheduler runs out,
    the tick either reschedules through [_schedule_enemy_spawn], and
    the new countdown is [max(0.45, base / max(0.6, difficulty /
    urgency))] for a base in [[1.8, 2.6]] and so at least 0.45 s; or a
    batch was due and nothing spawned, and the new countdown is the
    fixed retry delay of 0.4 s. *)
Theorem spawn_timer_rescheduling (d : TickDraw) (dt : Q) (g : NeonSnake) :
  0 <= t_delay d <= 1 ->
  enemy_spawns_active g = true ->
  0 < dt ->
  enemy_spawn_timer g <= dt ->
  let g' := _tick_enemy_spawn_timer hypot d dt g in
  (nothing_spawned hypot d dt g = true
   /\ enemy_spawn_timer g' = 4 # 10)
  \/ (nothing_spawned hypot d dt g = false
      /\ exists base gs,
           18 # 10 <= base <= 26 # 10
           /\ (gs = decremented dt g \/ gs = fst (batch_of hypot d dt g))
           /\ g' = _schedule_enemy_spawn (t_delay d) gs
           /\ enemy_spawn_timer g'
              = Py.max (45 # 100)
                       (base / Py.max (6 # 10)
                                      (difficulty gs / urgency gs))
           /\ 45 # 100 <= enemy_spawn_timer g').
Proof.
  intros Hu Hact Hdt Hexp g'.
  assert (Hresched : forall gs,
            gs = decremented dt g \/ gs = fst (batch_of hypot d dt g) ->
            g' = _schedule_enemy_spawn (t_delay d) gs ->
            exists base gs0,
              18 # 10 <= base <= 26 # 10
              /\ (gs0 = decremented dt g
                  \/ gs0 = fst (batch_of hypot d dt g))
              /\ g' = _schedule_enemy_spawn (t_delay d) gs0
              /\ enemy_spawn_timer g'
                 = Py.max (45 # 100)
                          (base / Py.max (6 # 10)
                                         (difficulty gs0 / urgency gs0))
              /\ 45 # 100 <= enemy_spawn_timer g').
  { intros gs Hgs E. destruct (schedule_delay (t_delay d) gs Hu)
      as [base [Hb [Ht Hmin]]].
    exists base, gs. rewrite E. auto. }
  subst g'. revert Hresched.
  unfold _tick_enemy_spawn_timer, nothing_spawned, batch_of.
  rewrite Hact.
  assert (Hle : Py.le dt 0 = false) by (apply py_le_false_iff; exact Hdt).
  rewrite Hle. cbn [negb orb].
  fold (decremented dt g). set (g0 := decremented dt g).
  assert (Hgt : Py.gt (enemy_spawn_timer g0) 0 = false).
  { destruct (Py.gt (enemy_spawn_timer g0) 0) eqn:E; [|reflexivity].
    apply py_gt_iff in E. exfalso.
    assert (Hmax : enemy_spawn_timer g0 <= 0).
    { subst g0. unfold decremented, set_enemy_spawn_timer.
      cbn [enemy_spawn_timer]. unfold Py.max.
      apply Q.max_lub; lra. }
    lra. }
  rewrite Hgt.
  destruct (tick_deficit g0 <=? 0)%Z eqn:Edef.
  - intro Hresched. right.
    assert (E0 : (0 <? tick_deficit g0)%Z = false).
    { apply Z.ltb_ge. apply Z.leb_le. exact Edef. }
    rewrite E0. split; [reflexivity|].
    apply (Hresched g0); [now left | reflexivity].
  - assert (E0 : (0 <? tick_deficit g0)%Z = true).
    { apply Z.ltb_lt. apply Z.leb_gt. exact Edef. }
    rewrite E0. cbn [andb].
    destruct (spawn_batch hypot
                (Z.to_nat (Z.max 1 (Z.min 3 (tick_deficit g0)))) 0
                (t_spawn d) false g0) as [gb spawned_any].
    cbn [snd]. destruct spawned_any; cbn [negb]; intro Hresched.
    + right. split; [reflexivity|].
      apply (Hresched gb); [now right | reflexivity].
    + left. split; reflexivity.
Qed.

End SchedulerFacts.

Section SchedulerRuns.

Import Config Enemies Game Spec.
Local Open Scope Q_scope.

(** C6 as stated fails when the batch spawns nothing: every candidate
    point of the search lies on the fruit, the search gives up, and
    the countdown is set to 0.4 s. *)
Lemma retry_delay_below_min :
  ~ rescheduled_at_least_min hypot_q stuck_draw (2 # 10) scenario_spawning.
Proof.
  unfold rescheduled_at_least_min. intro H.
  assert (Ht : enemy_spawn_timer
                 (_tick_enemy_spawn_timer hypot_q stuck_draw (2 # 10)
                    scenario_spawning) = 4 # 10)
    by (vm_compute; reflexivity).
  rewrite Ht in H.
  assert (Hbad : 45 # 100 <= 4 # 10).
  { apply H; [reflexivity | reflexivity | vm_compute; discriminate]. }
  vm_compute in Hbad. apply Hbad. reflexivity.
Qed.

Lemma spawn_timer_rescheduling_witness :
  0 <= t_delay lucky_draw <= 1
  /\ enemy_spawns_active scenario_spawning = true
  /\ 0 < 2 # 10
  /\ enemy_spawn_timer scenario_spawning <= 2 # 10
  /\ ((nothing_spawned hypot_q lucky_draw (2 # 10) scenario_spawning = true
       /\ enemy_spawn_timer
            (_tick_enemy_spawn_timer hypot_q lucky_draw (2 # 10)
               scenario_spawning) = 4 # 10)
      \/ (nothing_spawned hypot_q lucky_draw (2 # 10) scenario_spawning
          = false
          /\ exists base gs,
               18 # 10 <= base <= 26 # 10
               /\ (gs = decremented (2 # 10) scenario_spawning
                   \/ gs = fst (batch_of hypot_q lucky_draw (2 # 10)
                                  scenario_spawning))
               /\ _tick_enemy_spawn_timer hypot_q lucky_draw (2 # 10)
                    scenario_spawning
                  = _schedule_enemy_spawn (t_delay lucky_draw) gs
               /\ enemy_spawn_timer
                    (_tick_enemy_spawn_timer hypot_q lucky_draw (2 # 10)
                       scenario_spawning)
                  = Py.max (45 # 100)
                           (base / Py.max (6 # 10)
                                          (difficulty gs / urgency gs))
               /\ 45 # 100
                  <= enemy_spawn_timer
                       (_tick_enemy_spawn_timer hypot_q lucky_draw (2 # 10)
                          scenario_spawning))).
Proof.
  assert (Hu : 0 <= t_delay lucky_draw <= 1)
    by (split; vm_compute; discriminate).
  assert (Ha : enemy_spawns_active scenario_spawning = true)
    by reflexivity.
  assert (Hdt : 0 < 2 # 10) by reflexivity.
  assert (He : enemy_spawn_timer scenario_spawning <= 2 # 10)
    by (vm_compute; discriminate).
  split; [exact Hu|]. split; [exact Ha|]. split; [exact Hdt|].
  split; [exact He|].
  exact (spawn_timer_rescheduling hypot_q lucky_draw (2 # 10)
           scenario_spawning Hu Ha Hdt He).
Defined.

Example lucky_tick_values :
  Qred (enemy_spawn_timer
          (_tick_enemy_spawn_timer hypot_q lucky_draw (2 # 10)
             scenario_spawning)) = 2112 # 1319
  /\ length (spawn_indicators
               (_tick_enemy_spawn_timer hypot_q lucky_draw (2 # 10)
                  scenario_spawning)) = 1%nat.
Proof. split; vm_compute; reflexivity. Qed.

End SchedulerRuns.

(** ** The speed invariant on reachable states *)

Section ReachableFacts.

Import Config Enemies Game Spec.
Local Open Scope Q_scope.

Variable hypot : Q -> Q -> Q.

Lemma spawn_enemy_same_speed (d : SpawnDraw) (g : NeonSnake) :
  same_speed g (fst (_spawn_enemy hypot d g)).
Proof.
  unfold _spawn_enemy, same_speed.
  match goal with
  | |- context [match ?r with Some _ => _ | None => _ end] => destruct r
  end; cbn; tauto.
Qed.

Lemma spawn_batch_same_speed (budget : nat) :
  forall (i : nat) (draws : nat -> SpawnDraw) (any : bool) (g : NeonSnake),
    same_speed g (fst (spawn_batch hypot budget i draws any g)).
Proof.
  induction budget as [|b IH]; intros i draws any g.
  - unfold same_speed. cbn. tauto.
  - cbn [spawn_batch].
    pose proof (spawn_enemy_same_speed (draws i) g) as Hs.
    destruct (_spawn_enemy hypot (draws i) g) as [g1 spawned].
    cbn [fst] in Hs. destruct spawned.
    + specialize (IH (S i) draws (any || true)%bool g1).
      unfold same_speed in *. destruct IH as [I1 I2], Hs as [S1 S2].
      rewrite I1, I2. tauto.
    + cbn [fst]. exact Hs.
Qed.

Lemma tick_same_speed (d : TickDraw) (dt : Q) (g : NeonSnake) :
  same_speed g (_tick_enemy_spawn_timer hypot d dt g).
Proof.
  unfold _tick_enemy_spawn_timer.
  destruct (negb (enemy_spawns_active g) || Py.le dt 0)%bool;
    [unfold same_speed; tauto|].
  set (g0 := set_enemy_spawn_timer _ g).
  assert (H0 : same_speed g g0) by (unfold same_speed; subst g0; cbn; tauto).
  destruct (Py.gt (enemy_spawn_timer g0) 0); [exact H0|].
  destruct (tick_deficit g0 <=? 0)%Z.
  - unfold same_speed in *. cbn. exact H0.
  - pose proof (spawn_batch_same_speed
                  (Z.to_nat (Z.max 1 (Z.min 3 (tick_deficit g0)))) 0
                  (t_spawn d) false g0) as Hb.
    destruct (spawn_batch hypot _ 0 (t_spawn d) false g0) as [gb any].
    cbn [fst] in Hb.
    assert (Hgb : same_speed g gb).
    { unfold same_speed in *. destruct Hb as [B1 B2], H0 as [A1 A2].
      rewrite B1, B2. tauto. }
    destruct any; unfold same_speed in *; cbn; exact Hgb.
Qed.

(** Every reachable state has its speed clamped from below at one
    move per second and its step interval equal to the inverse. *)
Lemma reachable_synced (g : NeonSnake) :
  reachable hypot g -> speed_synced g.
Proof.
  induction 1 as [draws c g g' Hr | d g g' Hreach IH Hstep
                 | d dt g Hreach IH].
  - exact (reset_synced draws c g g' Hr).
  - destruct (cell_in (new_head g) (snake_blocks g)) eqn:E.
    + apply cell_in_iff in E. rewrite (step_collision d g E) in Hstep.
      injection Hstep as <-.
      destruct (game_over_frame (set_direction (pending_direction g) g))
        as [_ [_ [_ [Hc Hm]]]].
      unfold speed_synced in *. rewrite Hc, Hm. exact IH.
    + apply cell_in_false_iff in E.
      destruct (step_moves d g g' E Hstep) as [_ [_ [_ Hs]]].
      exact (Hs IH).
  - destruct (tick_same_speed d dt g) as [Hc Hm].
    unfold speed_synced in *. rewrite Hc, Hm. exact IH.
Qed.

End ReachableFacts.

(** ** Grid steps are exact on the grid *)

Section GridFacts.

Import Config Game Spec.

Lemma range_grid (v : Z) :
  In v (Py.range 0 WINDOW_SIZE BLOCK) ->
  (0 <= v < WINDOW_SIZE /\ v mod BLOCK = 0)%Z.
Proof.
  unfold Py.range. intro H. apply in_map_iff in H.
  destruct H as [i [Hv Hi]]. apply in_seq in Hi.
  change (Z.to_nat ((WINDOW_SIZE - 0 + BLOCK - 1) / BLOCK)) with 30%nat in Hi.
  subst v. unfold WINDOW_SIZE, BLOCK. split; [lia|].
  rewrite Z.add_0_l. apply Z.mod_mul. discriminate.
Qed.

Lemma bonus_spot_on_grid (g : NeonSnake) (c : Cell) :
  In c (_reachable_bonus_spots g) ->
  grid_aligned c
  /\ (0 <= fst c < WINDOW_SIZE)%Z /\ (0 <= snd c < WINDOW_SIZE)%Z.
Proof.
  intro H.
  destruct (reachable_bonus_spots_spec g c H) as [Hx [Hy _]].
  apply range_grid in Hx. apply range_grid in Hy.
  unfold grid_aligned. tauto.
Qed.

(** Between grid-aligned cells the floor division of
    [manhattan_steps] loses nothing: it is the Manhattan distance
    counted in cells. *)
Lemma manhattan_steps_exact (h c : Cell) :
  grid_aligned h -> grid_aligned c ->
  (manhattan_steps h c * BLOCK
   = Z.abs (fst c - fst h) + Z.abs (snd c - snd h))%Z.
Proof.
  unfold grid_aligned, manhattan_steps, BLOCK.
  intros [Hh1 Hh2] [Hc1 Hc2].
  apply Z.mod_divide in Hh1, Hh2, Hc1, Hc2; try discriminate.
  assert (Hd : (16 | Z.abs (fst c - fst h) + Z.abs (snd c - snd h))%Z).
  { apply Z.divide_add_r; apply Z.divide_abs_r;
      apply Z.divide_sub_r; assumption. }
  destruct Hd as [k Hk]. rewrite Hk.
  rewrite Z.div_mul by discriminate. reflexivity.
Qed.

End GridFacts.

(* ================================================================== *)
(** * The rest of the code *)

(** ** More on the Python built-ins *)

Section PyMoreFacts.

Local Open Scope Q_scope.

Lemma py_le_false_iff_lt (a b : Q) : Py.lt a b = false <-> b <= a.
Proof.
  unfold Py.lt. rewrite negb_false_iff. apply Qle_bool_iff.
Qed.

Lemma py_max_r (a b : Q) : a < b -> Py.max a b = b.
Proof.
  intro H. unfold Py.max, Qmax, GenericMinMax.gmax.
  rewrite (proj1 (Qlt_alt _ _) H). reflexivity.
Qed.

Lemma py_max_l (a b : Q) : b <= a -> Py.max a b = a.
Proof.
  intro H. unfold Py.max, Qmax, GenericMinMax.gmax.
  destruct (Qcompare a b) eqn:E; try reflexivity.
  apply Qlt_alt in E. exfalso. apply (Qlt_not_le _ _ E H).
Qed.

(** [max(a, b)] is [b] up to the choice of representative when
    [a <= b]. *)
Lemma py_max_r_or_eq (a b : Q) : a <= b -> Py.max a b == b.
Proof. intro H. unfold Py.max. apply Q.max_r. exact H. Qed.

Lemma py_max_bounds (a b : Q) : a <= Py.max a b /\ b <= Py.max a b.
Proof. unfold Py.max. split; [apply Q.le_max_l | apply Q.le_max_r]. Qed.

Lemma py_min_bounds (a b : Q) : Py.min a b <= a /\ Py.min a b <= b.
Proof. unfold Py.min. split; [apply Q.le_min_l | apply Q.le_min_r]. Qed.

Lemma py_max_lub (a b c : Q) : a <= c -> b <= c -> Py.max a b <= c.
Proof. unfold Py.max. apply Q.max_lub. Qed.

Lemma py_min_glb (a b c : Q) : c <= a -> c <= b -> c <= Py.min a b.
Proof. unfold Py.min. apply Q.min_glb. Qed.

Lemma py_max_cases (a b : Q) : Py.max a b = a \/ Py.max a b = b.
Proof.
  unfold Py.max, Qmax, GenericMinMax.gmax.
  destruct (Qcompare a b); auto.
Qed.

Lemma py_min_cases (a b : Q) : Py.min a b = a \/ Py.min a b = b.
Proof.
  unfold Py.min, Qmin, GenericMinMax.gmin.
  destruct (Qcompare a b); auto.
Qed.

End PyMoreFacts.

(** ** Effect pools under a positive time step *)

Section PoolFacts.

Import Config Effects Enemies Spec Props.
Local Open Scope Q_scope.

Lemma filter_map_commute {A B : Type} (f : A -> B) (p : B -> bool)
    (l : list A) :
  filter p (map f l) = map f (filter (fun a => p (f a)) l).
Proof.
  induction l as [|a l IH]; simpl; [reflexivity|].
  destruct (p (f a)); simpl; rewrite IH; reflexivity.
Qed.

Lemma map_filter_ext {A B : Type} (f g : A -> B) (p q : A -> bool)
    (l : list A) :
  (forall a, In a l -> p a = q a) ->
  (forall a, In a l -> q a = true -> f a = g a) ->
  map f (filter p l) = map g (filter q l).
Proof.
  induction l as [|a l IH]; intros Hp Hf; simpl; [reflexivity|].
  rewrite (Hp a (or_introl eq_refl)).
  assert (IH' : map f (filter p l) = map g (filter q l)).
  { apply IH; intros; [apply Hp | apply Hf]; simpl; auto. }
  destruct (q a) eqn:E; simpl; rewrite IH'; [|reflexivity].
  rewrite (Hf a (or_introl eq_refl) E). reflexivity.
Qed.

Lemma survives_iff (t dt : Q) :
  Py.gt (Py.max 0 (t - dt)) 0 = Py.lt dt t.
Proof.
  destruct (Py.lt dt t) eqn:E.
  - apply py_lt_iff in E. rewrite py_max_r by lra.
    apply py_gt_iff. lra.
  - destruct (Py.gt (Py.max 0 (t - dt)) 0) eqn:G; [|reflexivity].
    apply py_gt_iff in G.
    destruct (Qlt_le_dec dt t) as [Hlt | Hle].
    + apply py_lt_iff in Hlt. congruence.
    + rewrite py_max_l in G by lra. lra.
Qed.

(** X1. Under a positive [dt], [update_particles] and
    [update_ripples] keep exactly the entries whose remaining time
    exceeds [dt], in their order, with that time reduced by [dt]
    (particles also moved by [velocity * dt]) and nothing else
    changed. *)
Theorem pools_keep_what_outlives_dt (particles : list Particle)
    (ripples : list GridRipple) (dt : Q) :
  0 < dt ->
  update_particles particles dt
  = map (particle_after dt)
        (filter (fun p => Py.lt dt (p_life p)) particles)
  /\ update_ripples ripples dt
     = map (ripple_after dt)
           (filter (fun r => Py.lt dt (timer r)) ripples).
Proof.
  intro Hdt. apply py_le_false_iff in Hdt.
  unfold update_particles, update_ripples. rewrite Hdt. split.
  - rewrite filter_map_commute. apply map_filter_ext.
    + intros p _. apply survives_iff.
    + intros p _ Hp. apply py_lt_iff in Hp.
      unfold advance_particle, particle_after.
      rewrite py_max_r by lra. reflexivity.
  - rewrite filter_map_commute. apply map_filter_ext.
    + intros r _. apply survives_iff.
    + intros r _ Hr. apply py_lt_iff in Hr.
      unfold advance_ripple, ripple_after.
      rewrite py_max_r by lra. reflexivity.
Qed.

Lemma pools_keep_what_outlives_dt_witness :
  0 < 1 # 2
  /\ update_particles [sample_particle] (1 # 2) = []
  /\ update_ripples [sample_ripple] (1 # 2)
     = [ripple_after (1 # 2) sample_ripple].
Proof.
  assert (H : 0 < 1 # 2) by reflexivity.
  split; [exact H|].
  exact (pools_keep_what_outlives_dt [sample_particle] [sample_ripple]
           (1 # 2) H).
Defined.

End PoolFacts.

(** ** Ripples: update, then cull *)

Section RippleOrderFacts.

Import Config Effects Enemies Spec Props.
Local Open Scope Q_scope.

Variable hypot : Q -> Q -> Q.

Lemma cull_is_loop (enemies : list RippleEnemy) (ripples : list GridRipple) :
  cull_enemies_hit_by_ripples hypot enemies ripples
  = cull_loop hypot enemies ripples.
Proof.
  unfold cull_enemies_hit_by_ripples.
  destruct enemies as [|a rest]; [reflexivity|].
  destruct ripples as [|r rs]; [|reflexivity].
  assert (G : forall l, cull_loop hypot l [] = (l, [])).
  { induction l as [|b l IHl]; simpl; [reflexivity|].
    rewrite IHl. reflexivity. }
  rewrite G. reflexivity.
Qed.

Lemma cull_destroyed_iff (enemies : list RippleEnemy)
    (ripples : list GridRipple) (e : RippleEnemy) :
  In e (snd (cull_enemies_hit_by_ripples hypot enemies ripples))
  <-> In e enemies /\ exists r, In r ripples /\ expanding_band hypot e r.
Proof.
  rewrite cull_is_loop.
  destruct (cull_loop_split hypot enemies ripples e) as [_ Hd].
  rewrite Hd, enemy_destroyed_iff. reflexivity.
Qed.

Lemma updated_ripple_expanding (ripples : list GridRipple) (dt : Q)
    (r : GridRipple) :
  0 < dt ->
  Forall ripple_live ripples ->
  In r (update_ripples ripples dt) ->
  0 < timer r /\ timer r < duration r.
Proof.
  intros Hdt Hlive Hin.
  unfold update_ripples in Hin.
  rewrite (proj2 (py_le_false_iff dt 0) Hdt) in Hin.
  apply filter_In in Hin. destruct Hin as [Hin Hpos].
  apply in_map_iff in Hin. destruct Hin as [r0 [Hr Hin0]].
  rewrite Forall_forall in Hlive. destruct (Hlive r0 Hin0) as [_ Hle].
  apply py_gt_iff in Hpos. subst r. unfold advance_ripple in *.
  cbn [timer duration] in *.
  split; [exact Hpos|].
  destruct (py_max_cases 0 (timer r0 - dt)) as [E | E]; rewrite E in *; lra.
Qed.

(** X2. In the order [_update_effects] runs them, the ripple update
    under a positive [dt] and then the cull, an enemy is destroyed
    exactly when it lies in the band of some ripple: a ripple that
    entered the update alive and no older than its duration leaves it
    with [0 < timer < duration], so the cull's guard on ripples that
    have not started never applies. *)
Theorem cull_after_update_follows_band (enemies : list RippleEnemy)
    (ripples : list GridRipple) (dt : Q) (e : RippleEnemy) :
  0 < dt ->
  Forall ripple_live ripples ->
  destroyed_iff_in_band hypot enemies (update_ripples ripples dt) e.
Proof.
  intros Hdt Hlive. unfold destroyed_iff_in_band.
  rewrite cull_destroyed_iff. split.
  - intros [He [r [Hr [Hd [_ Hb]]]]]. split; [exact He|].
    exists r. auto.
  - intros [He [r [Hr [Hd Hb]]]]. split; [exact He|].
    exists r. split; [exact Hr|].
    destruct (updated_ripple_expanding ripples dt r Hdt Hlive Hr)
      as [_ Hlt].
    unfold expanding_band. auto.
Qed.

(** [spawn_ripple] appends a live ripple when the duration is
    positive, and the update keeps ripples live. *)
Lemma spawn_ripple_live (ripples : list GridRipple) (origin : Z * Z)
    (col : Z) (d radius bw i : Q) :
  0 < d ->
  Forall ripple_live ripples ->
  Forall ripple_live (spawn_ripple ripples origin col d radius bw i).
Proof.
  intros Hd Hl. unfold spawn_ripple. apply Forall_app. split; [exact Hl|].
  constructor; [|constructor]. unfold ripple_live. cbn. lra.
Qed.

Lemma update_ripples_live (ripples : list GridRipple) (dt : Q) :
  Forall ripple_live ripples ->
  Forall ripple_live (update_ripples ripples dt).
Proof.
  intro Hl. destruct (Qlt_le_dec 0 dt) as [Hdt | Hdt].
  - apply Forall_forall. intros r Hr.
    destruct (updated_ripple_expanding ripples dt r Hdt Hl Hr).
    unfold ripple_live. lra.
  - unfold update_ripples. rewrite (proj2 (py_le_iff dt 0) Hdt). exact Hl.
Qed.

End RippleOrderFacts.

Section RippleOrderRuns.

Import Config Effects Enemies Spec Props.
Local Open Scope Q_scope.

Lemma cull_after_update_follows_band_witness :
  0 < 1 # 10
  /\ Forall ripple_live [fresh_ripple]
  /\ destroyed_iff_in_band hypot_q [enemy_at_origin]
       (update_ripples [fresh_ripple] (1 # 10)) enemy_at_origin.
Proof.
  assert (H : 0 < 1 # 10) by reflexivity.
  assert (L : Forall ripple_live [fresh_ripple]).
  { constructor; [|constructor]. split; [reflexivity|].
    vm_compute. discriminate. }
  split; [exact H|]. split; [exact L|].
  exact (cull_after_update_follows_band hypot_q [enemy_at_origin]
           [fresh_ripple] (1 # 10) enemy_at_origin H L).
Defined.

End RippleOrderRuns.

(** ** Particle bursts *)

Section BurstFacts.

Import Config Effects Spec Props.
Local Open Scope Q_scope.

Lemma spawn_particles_loop_appends (n : nat) :
  forall (i : nat) (draws : nat -> ParticleDraw) (particles : list Particle)
         (cx cy : Q) (c : Z) (cs : list Z),
  exists burst,
    spawn_particles_loop n i draws particles cx cy (c :: cs)
    = Some (particles ++ burst)
    /\ length burst = n
    /\ Forall (burst_particle cx cy) burst.
Proof.
  induction n as [|n IH]; intros i draws particles cx cy c cs.
  - exists []. cbn. rewrite app_nil_r. repeat split. constructor.
  - cbn [spawn_particles_loop].
    destruct (Py.choice (pd_dir (draws i)) PARTICLE_DIRECTIONS (0, 0))
      as [dir_x dir_y].
    match goal with
    | |- context [spawn_particles_loop n (S i) draws (particles ++ [?p])] =>
        destruct (IH (S i) draws (particles ++ [p]) cx cy c cs)
          as [burst [E [Hlen Hall]]];
        exists (p :: burst)
    end.
    rewrite E, <- app_assoc. cbn [app length]. rewrite Hlen.
    repeat split. constructor; [|exact Hall].
    unfold burst_particle. cbn. auto.
Qed.

Lemma burst_expires (cx cy dt : Q) (burst : list Particle) :
  PARTICLE_LIFE <= dt ->
  Forall (burst_particle cx cy) burst ->
  update_particles burst dt = [].
Proof.
  intros Hdt Hall.
  assert (Hpos : 0 < dt).
  { apply (Qlt_le_trans _ PARTICLE_LIFE); [reflexivity | exact Hdt]. }
  unfold update_particles. rewrite (proj2 (py_le_false_iff dt 0) Hpos).
  induction Hall as [|p burst [_ [_ [Hlife _]]] _ IH]; [reflexivity|].
  cbn [map filter]. rewrite IH.
  assert (E : Py.gt (p_life (advance_particle dt p)) 0 = false).
  { unfold advance_particle. cbn [p_life]. rewrite Hlife.
    rewrite py_max_l by lra.
    destruct (Py.gt 0 0) eqn:G; [|reflexivity].
    apply py_gt_iff in G. lra. }
  rewrite E. reflexivity.
Qed.

(** X3. [spawn_particles] with a non-empty colour list appends
    exactly [count] particles (none when [count] is negative) to the
    pool, each at the centre of the origin cell with the full
    [PARTICLE_LIFE]; the whole burst is gone after one update with
    [dt >= PARTICLE_LIFE].  With an empty colour list and a positive
    count the call fails ([random.choice] on an empty sequence). *)
Theorem spawn_particles_burst (draws : nat -> ParticleDraw)
    (particles : list Particle) (origin : Z * Z) (color_choices : list Z)
    (count : Z) :
  (color_choices = [] -> (0 < count)%Z ->
   spawn_particles draws particles origin color_choices count = None)
  /\ (color_choices <> [] ->
      exists burst,
        spawn_particles draws particles origin color_choices count
        = Some (particles ++ burst)
        /\ length burst = Z.to_nat count
        /\ Forall (burst_particle (fst (cell_centre origin))
                                  (snd (cell_centre origin))) burst
        /\ forall dt, PARTICLE_LIFE <= dt ->
                      update_particles burst dt = []).
Proof.
  split.
  - intros -> Hc. unfold spawn_particles.
    destruct (Z.to_nat count) as [|n] eqn:E; [lia | reflexivity].
  - intro Hne. destruct color_choices as [|c cs]; [congruence|].
    unfold spawn_particles.
    destruct (spawn_particles_loop_appends (Z.to_nat count) 0 draws
                particles (fst (cell_centre origin))
                (snd (cell_centre origin)) c cs)
      as [burst [E [Hlen Hall]]].
    exists burst. split; [exact E|]. split; [exact Hlen|].
    split; [exact Hall|].
    intros dt Hdt. exact (burst_expires _ _ dt burst Hdt Hall).
Qed.

Lemma spawn_particles_burst_witness :
  [1; 2]%Z <> []
  /\ exists burst,
       spawn_particles burst_draw [sample_particle] (176, 80)%Z [1; 2]%Z 22
       = Some ([sample_particle] ++ burst)
       /\ length burst = 22%nat
       /\ update_particles burst PARTICLE_LIFE = [].
Proof.
  assert (H : [1; 2]%Z <> []) by discriminate.
  split; [exact H|].
  destruct (proj2 (spawn_particles_burst burst_draw [sample_particle]
                     (176, 80)%Z [1; 2]%Z 22) H)
    as [burst [E [Hlen [_ Hgone]]]].
  exists burst. split; [exact E|]. split; [exact Hlen|].
  apply Hgone. apply Qle_refl.
Defined.

End BurstFacts.

(** ** Enemies: cull, spawn search, steering, collision *)

Section EnemyMoreFacts.

Import Config Effects Enemies Spec Props.
Local Open Scope Q_scope.

Variable hypot : Q -> Q -> Q.

Lemma cull_loop_filters (enemies : list RippleEnemy)
    (ripples : list GridRipple) :
  cull_loop hypot enemies ripples
  = (filter (fun e => negb (enemy_destroyed hypot e ripples)) enemies,
     filter (fun e => enemy_destroyed hypot e ripples) enemies).
Proof.
  induction enemies as [|a rest IH]; [reflexivity|].
  cbn [cull_loop filter]. rewrite IH.
  destruct (enemy_destroyed hypot a ripples); reflexivity.
Qed.

(** X4. The cull splits the enemy list in two without losing,
    duplicating or reordering anything: the survivors are the enemies
    no ripple hits, the destroyed the ones some ripple hits, each in
    the order of the input, and their lengths add up to the input's. *)
Theorem cull_partitions (enemies : list RippleEnemy)
    (ripples : list GridRipple) :
  let result := cull_enemies_hit_by_ripples hypot enemies ripples in
  fst result
  = filter (fun e => negb (enemy_destroyed hypot e ripples)) enemies
  /\ snd result = filter (fun e => enemy_destroyed hypot e ripples) enemies
  /\ (length (fst result) + length (snd result) = length enemies)%nat.
Proof.
  intro result. subst result.
  rewrite cull_is_loop, cull_loop_filters. cbn [fst snd].
  split; [reflexivity|]. split; [reflexivity|].
  induction enemies as [|a rest IH]; [reflexivity|].
  cbn [filter]. destruct (enemy_destroyed hypot a ripples);
    cbn [negb length]; lia.
Qed.

Lemma too_close_false_iff (px py : Q) (avoid : list (Q * Q)) (md : Q) :
  too_close hypot px py avoid md = false
  <-> forall a, In a avoid -> md <= hypot (px - fst a) (py - snd a).
Proof.
  unfold too_close. induction avoid as [|a rest IH]; cbn [existsb].
  - split; [intros _ a [] | reflexivity].
  - rewrite orb_false_iff, IH, py_le_false_iff_lt. split.
    + intros [Ha Hrest] b [<- | Hb]; [exact Ha | exact (Hrest b Hb)].
    + intro H. split; [apply H; now left | intros b Hb; apply H; now right].
Qed.

Lemma crowded_false_iff (px py : Q) (enemies : list RippleEnemy) (ms : Q) :
  crowded hypot px py enemies ms = false
  <-> forall e, In e enemies -> ms <= hypot (px - e_x e) (py - e_y e).
Proof.
  unfold crowded. induction enemies as [|a rest IH]; cbn [existsb].
  - split; [intros _ a [] | reflexivity].
  - rewrite orb_false_iff, IH, py_le_false_iff_lt. split.
    + intros [Ha Hrest] b [<- | Hb]; [exact Ha | exact (Hrest b Hb)].
    + intro H. split; [apply H; now left | intros b Hb; apply H; now right].
Qed.

(** The two tests of one attempt pass exactly on an acceptable
    point. *)
Lemma attempt_passes_iff (px py : Q) (avoid : list (Q * Q))
    (enemies : list RippleEnemy) (md ms : Q) :
  ((negb (Nat.eqb (length avoid) 0) && Py.gt md 0
    && too_close hypot px py avoid md)
   || (Py.gt ms 0 && crowded hypot px py enemies ms))%bool = false
  <-> acceptable hypot avoid enemies md ms (px, py).
Proof.
  unfold acceptable. cbn [fst snd].
  rewrite orb_false_iff, !andb_false_iff.
  rewrite too_close_false_iff, crowded_false_iff.
  assert (Hmd : Py.gt md 0 = false <-> ~ 0 < md).
  { rewrite <- py_gt_iff. destruct (Py.gt md 0); intuition congruence. }
  assert (Hms : Py.gt ms 0 = false <-> ~ 0 < ms).
  { rewrite <- py_gt_iff. destruct (Py.gt ms 0); intuition congruence. }
  rewrite Hmd, Hms. rewrite negb_false_iff, Nat.eqb_eq.
  split.
  - intros [H1 H2]. split.
    + intros Hpos a Ha. destruct H1 as [[Hnil | Hn] | Hok].
      * destruct avoid; [destruct Ha | discriminate].
      * contradiction.
      * exact (Hok a Ha).
    + intros Hpos e He. destruct H2 as [Hn | Hok];
        [contradiction | exact (Hok e He)].
  - intros [H1 H2]. split.
    + destruct (Qlt_le_dec 0 md) as [Hpos | Hle].
      * right. exact (H1 Hpos).
      * left. right. intro Hpos. apply (Qlt_not_le _ _ Hpos Hle).
    + destruct (Qlt_le_dec 0 ms) as [Hpos | Hle].
      * right. exact (H2 Hpos).
      * left. intro Hpos. apply (Qlt_not_le _ _ Hpos Hle).
Qed.

Lemma find_attempts_first (n : nat) :
  forall (i : nat) (draws : nat -> PointDraw) (avoid : list (Q * Q))
         (enemies : list RippleEnemy) (md ms : Q),
  match find_attempts hypot n i draws avoid enemies md ms with
  | Some p =>
      exists k, (k < n)%nat
                /\ p = candidate_point (draws (i + k)%nat)
                /\ acceptable hypot avoid enemies md ms p
                /\ forall j, (j < k)%nat ->
                             ~ acceptable hypot avoid enemies md ms
                                 (candidate_point (draws (i + j)%nat))
  | None =>
      forall j, (j < n)%nat ->
                ~ acceptable hypot avoid enemies md ms
                    (candidate_point (draws (i + j)%nat))
  end.
Proof.
  induction n as [|n IH]; intros i draws avoid enemies md ms.
  - cbn. intros j Hj. lia.
  - cbn [find_attempts].
    destruct (candidate_point (draws i)) as [px py] eqn:Ec.
    pose proof (attempt_passes_iff px py avoid enemies md ms) as Hpass.
    specialize (IH (S i) draws avoid enemies md ms).
    assert (Hshift : forall j, (S i + j = i + S j)%nat) by (intro; lia).
    destruct (negb (Nat.eqb (length avoid) 0) && Py.gt md 0
              && too_close hypot px py avoid md)%bool eqn:E1;
      [|destruct (Py.gt ms 0 && crowded hypot px py enemies ms)%bool eqn:E2].
    3: { exists 0%nat. rewrite Nat.add_0_r, Ec.
         split; [lia|]. split; [reflexivity|].
         split; [apply Hpass; reflexivity | intros j Hj; lia]. }
    all: assert (Hrej : ~ acceptable hypot avoid enemies md ms (px, py))
           by (intro Ha; apply Hpass in Ha; cbn in Ha; discriminate).
    all: destruct (find_attempts hypot n (S i) draws avoid enemies md ms)
           as [p|].
    all: try (destruct IH as [k [Hk [Hp [Hacc Hfirst]]]];
              exists (S k); rewrite <- Hshift;
              split; [lia|]; split; [exact Hp|]; split; [exact Hacc|];
              intros j Hj; destruct j as [|j];
              [rewrite Nat.add_0_r, Ec; exact Hrej
              |rewrite <- Hshift; apply Hfirst; lia]).
    all: intros j Hj; destruct j as [|j];
         [rewrite Nat.add_0_r, Ec; exact Hrej
         |rewrite <- Hshift; apply IH; lia].
Qed.

(** X5. [_find_spawn_point] returns the first of its 60 candidate
    points that is acceptable: at least [min_distance_from_avoid]
    from every protected position and at least [min_spacing] from
    every listed enemy (a test with a non-positive distance, or with
    nothing to avoid, passes).  It returns nothing exactly when none
    of the 60 candidates is acceptable. *)
Theorem find_spawn_point_first_acceptable (draws : nat -> PointDraw)
    (avoid : list (Q * Q)) (enemies : list RippleEnemy) (md ms : Q) :
  match _find_spawn_point hypot draws avoid enemies md ms with
  | Some p =>
      exists k, (k < 60)%nat
                /\ p = candidate_point (draws k)
                /\ acceptable hypot avoid enemies md ms p
                /\ forall j, (j < k)%nat ->
                             ~ acceptable hypot avoid enemies md ms
                                 (candidate_point (draws j))
  | None =>
      forall j, (j < 60)%nat ->
                ~ acceptable hypot avoid enemies md ms
                    (candidate_point (draws j))
  end.
Proof.
  unfold _find_spawn_point.
  pose proof (find_attempts_first 60 0 draws avoid enemies md ms) as H.
  destruct (find_attempts hypot 60 0 draws avoid enemies md ms) as [p|].
  - destruct H as [k [Hk [Hp [Hacc Hfirst]]]].
    exists k. split; [exact Hk|]. split; [exact Hp|].
    split; [exact Hacc | exact Hfirst].
  - intros j Hj. exact (H j Hj).
Qed.

(** X6. [spawn_enemy_random] fails exactly when the point search
    does, leaving the list as it was.  Otherwise the new enemy sits
    on the point found, has age 0, the given warmup, and a speed
    within the range (the lower bound when the range is empty or
    reversed); with [add_to_list] it is appended to the list, and
    without it the list is untouched. *)
Theorem spawn_enemy_random_result (draw : EnemyDraw)
    (enemies : list RippleEnemy) (avoid : list (Q * Q)) (md ms : Q)
    (speed_range : Q * Q) (color : option Z) (wu : Q) (add_to_list : bool) :
  0 <= d_speed draw <= 1 ->
  match spawn_enemy_random hypot draw enemies avoid md ms speed_range
          color wu add_to_list with
  | (Some enemy, l) =>
      _find_spawn_point hypot (d_point draw) avoid enemies md ms
      = Some (e_x enemy, e_y enemy)
      /\ age enemy = 0 /\ warmup enemy = wu
      /\ fst speed_range <= e_speed enemy
      /\ (e_speed enemy <= snd speed_range
          \/ e_speed enemy = fst speed_range)
      /\ l = (if add_to_list then enemies ++ [enemy] else enemies)
  | (None, l) =>
      _find_spawn_point hypot (d_point draw) avoid enemies md ms = None
      /\ l = enemies
  end.
Proof.
  intros Hu. unfold spawn_enemy_random.
  destruct (_find_spawn_point hypot (d_point draw) avoid enemies md ms)
    as [[px py]|]; [|split; reflexivity].
  cbn [fst snd e_x e_y age warmup e_speed].
  split; [reflexivity|]. split; [reflexivity|]. split; [reflexivity|].
  destruct speed_range as [lo hi]. cbn [fst snd].
  destruct (Py.lt hi lo) eqn:Erev.
  - assert (Eg : Py.gt lo lo = false).
    { destruct (Py.gt lo lo) eqn:G; [|reflexivity].
      apply py_gt_iff in G. lra. }
    rewrite Eg. split; [apply Qle_refl|]. split; [now right | reflexivity].
  - apply py_le_false_iff_lt in Erev.
    destruct (Py.gt hi lo) eqn:Eg.
    + destruct (uniform_in_range lo hi (d_speed draw) Erev Hu) as [H1 H2].
      split; [exact H1|]. split; [now left | reflexivity].
    + split; [apply Qle_refl|]. split; [now right | reflexivity].
Qed.

(** X7. Under a positive [dt], [update_enemies] keeps the number and
    order of the enemies and changes only position and age.  An
    enemy within 0.001 of the target is left as it is.  Any other
    enemy of non-negative age and speed ages by [dt] up to its
    warmup, moves by a non-negative multiple of the vector to the
    target, and the multiple is its speed times a factor between 0.2
    and 0.85 times [dt] over the distance. *)
Theorem update_enemies_steers (enemies : list RippleEnemy)
    (target : Q * Q) (dt : Q) :
  0 < dt ->
  update_enemies hypot enemies target dt = map (steer hypot target dt) enemies
  /\ forall e,
       0 <= age e -> 0 <= e_speed e ->
       let e' := steer hypot target dt e in
       let len := hypot (fst target - e_x e) (snd target - e_y e) in
       e_speed e' = e_speed e /\ e_size e' = e_size e
       /\ e_color e' = e_color e /\ warmup e' = warmup e
       /\ (len <= 1 # 1000 -> e' = e)
       /\ (1 # 1000 < len ->
           age e' = Py.min (warmup e) (age e + dt)
           /\ (0 < warmup e -> 0 <= age e' <= warmup e)
           /\ exists factor,
                2 # 10 <= factor <= 85 # 100
                /\ 0 <= e_speed e * factor * dt / len
                /\ e_x e' = e_x e + (fst target - e_x e)
                                     * (e_speed e * factor * dt / len)
                /\ e_y e' = e_y e + (snd target - e_y e)
                                     * (e_speed e * factor * dt / len)).
Proof.
  intro Hdt. split.
  { unfold update_enemies.
    rewrite (proj2 (py_le_false_iff dt 0) Hdt). reflexivity. }
  intros e Hage Hspeed e' len.
  assert (Hf : e_speed e' = e_speed e /\ e_size e' = e_size e
               /\ e_color e' = e_color e /\ warmup e' = warmup e).
  { subst e'. unfold steer. fold len.
    destruct (Py.le len (1 # 1000)); cbn; auto. }
  destruct Hf as [F1 [F2 [F3 F4]]].
  split; [exact F1|]. split; [exact F2|]. split; [exact F3|].
  split; [exact F4|]. split.
  - intro H. subst e'. unfold steer. fold len.
    rewrite (proj2 (py_le_iff len (1 # 1000)) H). reflexivity.
  - intro El. subst e'. unfold steer. fold len.
    rewrite (proj2 (py_le_false_iff len (1 # 1000)) El).
    cbn [e_speed e_size e_color warmup age e_x e_y].
    split; [reflexivity|].
    set (a' := Py.min (warmup e) (age e + dt)).
    assert (Ha'lo : 0 < warmup e -> 0 <= a').
    { intro Hw. apply py_min_glb; lra. }
    assert (Ha'hi : a' <= warmup e) by apply py_min_bounds.
    split; [intro Hw; split; [exact (Ha'lo Hw) | exact Ha'hi]|].
    set (e1 := mkEnemy (e_x e) (e_y e) (e_speed e) (e_size e) (e_color e)
                       a' (warmup e)).
    exists (speed_scale e1).
    assert (Hfac : 2 # 10 <= speed_scale e1 <= 85 # 100).
    { unfold speed_scale, e1. cbn [age warmup].
      destruct (Py.gt (warmup e) 0) eqn:Ew.
      - apply py_gt_iff in Ew.
        assert (Hne : ~ warmup e == 0) by (intro E; rewrite E in Ew; lra).
        assert (Hr0 : 0 <= a' / warmup e).
        { apply Qle_shift_div_l; [exact Ew | lra]. }
        assert (Hr1 : a' / warmup e <= 1).
        { apply Qle_shift_div_r; [exact Ew | lra]. }
        remember (a' / warmup e) as q. clear Heqq. split; lra.
      - split; vm_compute; discriminate. }
    split; [exact Hfac|].
    assert (Hstep : 0 <= e_speed e * speed_scale e1 * dt / len).
    { apply Qle_shift_div_l; [lra|]. rewrite Qmult_0_l.
      apply Qmult_le_0_compat; [|lra].
      apply Qmult_le_0_compat; lra. }
    split; [exact Hstep|]. split; reflexivity.
Qed.

End EnemyMoreFacts.

Section EnemyMoreRuns.

Import Config Effects Enemies Spec Props.
Local Open Scope Q_scope.

Lemma spawn_enemy_random_result_witness :
  0 <= d_speed sample_enemy_draw <= 1
  /\ match spawn_enemy_random hypot_q sample_enemy_draw [sample_enemy]
             [(328, 248)] 80 56 (64, 96) (Some 7%Z) (55 # 100) true with
     | (Some enemy, l) =>
         _find_spawn_point hypot_q (d_point sample_enemy_draw)
           [(328, 248)] [sample_enemy] 80 56
         = Some (e_x enemy, e_y enemy)
         /\ age enemy = 0 /\ warmup enemy = 55 # 100
         /\ fst (64, 96) <= e_speed enemy
         /\ (e_speed enemy <= snd (64, 96) \/ e_speed enemy = fst (64, 96))
         /\ l = [sample_enemy] ++ [enemy]
     | (None, l) =>
         _find_spawn_point hypot_q (d_point sample_enemy_draw)
           [(328, 248)] [sample_enemy] 80 56 = None
         /\ l = [sample_enemy]
     end.
Proof.
  assert (H : 0 <= d_speed sample_enemy_draw <= 1)
    by (split; vm_compute; discriminate).
  split; [exact H|].
  exact (spawn_enemy_random_result hypot_q sample_enemy_draw [sample_enemy]
           [(328, 248)] 80 56 (64, 96) (Some 7%Z) (55 # 100) true H).
Defined.

(** The first seven candidates, the centres of the cells (3, 3) to
    (9, 3), are less than 56 pixels from the enemy at (100, 60); the
    eighth, the centre of cell (10, 3), is taken. *)
Example spawn_search_skips_crowded_point :
  _find_spawn_point hypot_q centre_draws [(328, 248)] [sample_enemy] 80 56
  = Some (candidate_point centre_draw_taken).
Proof. vm_compute. reflexivity. Qed.

Lemma update_enemies_steers_witness :
  0 < 1 # 60
  /\ 0 <= age sample_enemy
  /\ 0 <= e_speed sample_enemy
  /\ update_enemies hypot_q [sample_enemy] (184, 88) (1 # 60)
     = [steer hypot_q (184, 88) (1 # 60) sample_enemy]
  /\ age (steer hypot_q (184, 88) (1 # 60) sample_enemy)
     = Py.min (warmup sample_enemy) (age sample_enemy + (1 # 60)).
Proof.
  assert (Hdt : 0 < 1 # 60) by reflexivity.
  assert (Ha : 0 <= age sample_enemy) by (vm_compute; discriminate).
  assert (Hs : 0 <= e_speed sample_enemy) by (vm_compute; discriminate).
  split; [exact Hdt|]. split; [exact Ha|]. split; [exact Hs|].
  destruct (update_enemies_steers hypot_q [sample_enemy] (184, 88)
              (1 # 60) Hdt) as [Hmap Hall].
  split; [exact Hmap|].
  destruct (Hall sample_enemy Ha Hs) as [_ [_ [_ [_ [_ Hfar]]]]].
  apply Hfar. vm_compute. reflexivity.
Defined.

End EnemyMoreRuns.

Section CollisionFacts.

Import Config Enemies Props.

(** X8. [enemies_hit_snake] is false when there is no enemy or no
    body cell, and true as soon as some enemy of positive size has
    its (truncated) centre inside some body cell. *)
Theorem enemy_inside_cell_hits (enemies : list RippleEnemy)
    (blocks : list (Z * Z)) :
  enemies_hit_snake [] blocks = false
  /\ enemies_hit_snake enemies [] = false
  /\ forall e b,
       In e enemies -> In b blocks ->
       (0 < e_size e)%Z ->
       (fst b <= Py.int (e_x e) < fst b + BLOCK)%Z ->
       (snd b <= Py.int (e_y e) < snd b + BLOCK)%Z ->
       enemies_hit_snake enemies blocks = true.
Proof.
  split; [reflexivity|]. split; [destruct enemies; reflexivity|].
  intros e b He Hb Hsize Hx Hy.
  unfold enemies_hit_snake. destruct enemies as [|e0 rest]; [destruct He|].
  apply existsb_exists. exists b. split; [exact Hb|].
  apply existsb_exists. exists e. split; [exact He|].
  unfold colliderect, enemy_rect, block_rect, rect_centered, BLOCK in *.
  cbn [r_left r_top r_w r_h fst snd].
  assert (Hhalf : (0 <= e_size e / 2 /\ e_size e / 2 < e_size e)%Z).
  { split; [apply Z.div_pos; lia | apply Z.div_lt; lia]. }
  repeat rewrite andb_true_iff. rewrite negb_true_iff.
  repeat rewrite orb_false_iff. repeat rewrite Z.ltb_lt.
  repeat rewrite Z.eqb_neq. lia.
Qed.

End CollisionFacts.

Section CollisionRuns.

Import Config Enemies Props.

Lemma enemy_inside_cell_hits_witness :
  In sample_enemy [sample_enemy]
  /\ In (96, 48)%Z [ (160, 80); (96, 48) ]%Z
  /\ (0 < e_size sample_enemy)%Z
  /\ enemies_hit_snake [sample_enemy] [ (160, 80); (96, 48) ]%Z = true.
Proof.
  assert (He : In sample_enemy [sample_enemy]) by (now left).
  assert (Hb : In (96, 48)%Z [ (160, 80); (96, 48) ]%Z)
    by (right; now left).
  assert (Hs : (0 < e_size sample_enemy)%Z) by reflexivity.
  split; [exact He|]. split; [exact Hb|]. split; [exact Hs|].
  apply (proj2 (proj2 (enemy_inside_cell_hits [sample_enemy]
                         [ (160, 80); (96, 48) ]%Z))
           sample_enemy (96, 48)%Z He Hb Hs);
    vm_compute; split; congruence.
Defined.

End CollisionRuns.

(** ** Synth: envelope and amplitude *)

Section IntFacts.

Local Open Scope Q_scope.

Lemma int_nonneg (q : Q) : 0 <= q -> (0 <= Py.int q)%Z.
Proof.
  intro H. rewrite (int_floor_nonneg q H).
  apply Qfloor_resp_le in H. exact H.
Qed.

Lemma int_neg (q : Q) : q <= 0 -> Py.int q = (- Qfloor (- q))%Z.
Proof.
  intro H. unfold Py.int. destruct q as [n d]. simpl.
  unfold Qle in H. simpl in H.
  assert (Hn : (n <= 0)%Z) by lia.
  rewrite <- (Z.opp_involutive n) at 1.
  rewrite Z.quot_opp_l by discriminate.
  rewrite Z.quot_div_nonneg by lia. reflexivity.
Qed.

(** [int] keeps a value between two integers between them. *)
Lemma int_between (a b : Z) (q : Q) :
  inject_Z a <= q <= inject_Z b -> (a <= Py.int q <= b)%Z.
Proof.
  intros [Ha Hb].
  destruct (Qlt_le_dec q 0) as [Hneg | Hpos].
  - rewrite int_neg by lra.
    assert (H1 : inject_Z (- b) <= - q) by (rewrite inject_Z_opp; lra).
    assert (H2 : - q <= inject_Z (- a)) by (rewrite inject_Z_opp; lra).
    apply Qfloor_resp_le in H1. rewrite Qfloor_Z in H1.
    pose proof (Qfloor_le (- q)) as H3.
    assert (H4 : (Qfloor (- q) <= - a)%Z).
    { rewrite Zle_Qle. apply (Qle_trans _ (- q)); assumption. }
    lia.
  - rewrite int_floor_nonneg by exact Hpos.
    apply Qfloor_resp_le in Ha. rewrite Qfloor_Z in Ha.
    pose proof (Qfloor_le q) as H3.
    assert (H4 : (Qfloor q <= b)%Z).
    { rewrite Zle_Qle. apply (Qle_trans _ q); assumption. }
    lia.
Qed.

Lemma int_proper (q q' : Q) : q == q' -> Py.int q = Py.int q'.
Proof.
  intro E. destruct (Qlt_le_dec q 0) as [Hneg | Hpos].
  - rewrite (int_neg q) by lra. rewrite (int_neg q') by lra.
    rewrite E. reflexivity.
  - rewrite (int_floor_nonneg q) by exact Hpos.
    rewrite (int_floor_nonneg q') by lra.
    rewrite E. reflexivity.
Qed.

Lemma mod1_range (q : Q) : 0 <= Py.mod1 q < 1.
Proof.
  unfold Py.mod1. pose proof (Qfloor_le q) as H1.
  pose proof (Qlt_floor q) as H2.
  rewrite inject_Z_plus in H2. change (inject_Z 1) with 1 in H2.
  split; lra.
Qed.

(** A quotient of integers [0 <= a < b] lies in [[0, 1)]. *)
Lemma ratio_in_unit (a b : Z) :
  (0 <= a < b)%Z -> 0 <= inject_Z a / inject_Z b < 1.
Proof.
  intros [Ha Hab].
  assert (Hb : 0 < inject_Z b).
  { change 0 with (inject_Z 0). rewrite <- Zlt_Qlt. lia. }
  assert (Ha' : 0 <= inject_Z a).
  { change 0 with (inject_Z 0). rewrite <- Zle_Qle. lia. }
  assert (Hab' : inject_Z a < inject_Z b) by (rewrite <- Zlt_Qlt; lia).
  split.
  - apply Qle_shift_div_l; [exact Hb | lra].
  - apply Qlt_shift_div_r; [exact Hb | lra].
Qed.

Lemma mult_unit_le (s f : Q) : 0 <= s -> 0 <= f <= 1 -> 0 <= s * f <= s.
Proof.
  intros Hs [Hf0 Hf1]. split.
  - apply Qmult_le_0_compat; assumption.
  - assert (H : f * s <= 1 * s).
    { apply Qmult_le_compat_r; assumption. }
    rewrite (Qmult_comm s f). lra.
Qed.

End IntFacts.

Section EnvelopeFacts.

Import Audio Props.
Local Open Scope Q_scope.

Variable sample_rate : Z.
Variable patch : SynthPatch.

Lemma sample_count_pos : (1 <= sample_count sample_rate patch)%Z.
Proof. unfold sample_count. lia. Qed.

Lemma stage_length_nonneg (fraction : Q) :
  0 <= fraction ->
  (0 <= Py.int (inject_Z (sample_count sample_rate patch) * fraction))%Z.
Proof.
  intro H. apply int_nonneg. apply Qmult_le_0_compat; [|exact H].
  change 0 with (inject_Z 0). rewrite <- Zle_Qle.
  pose proof sample_count_pos. lia.
Qed.

Lemma env_range (idx : Z) :
  adsr_sane patch ->
  (0 <= idx < sample_count sample_rate patch)%Z ->
  0 <= env sample_rate patch idx <= 1.
Proof.
  intros [Ha [Hd [Hr [Hs0 Hs1]]]] [Hi0 HiN].
  pose proof (stage_length_nonneg _ Ha) as HA.
  pose proof (stage_length_nonneg _ Hd) as HD.
  pose proof (stage_length_nonneg _ Hr) as HR.
  unfold env, sustain_end, sustain_start.
  fold (attack_n sample_rate patch) in *.
  fold (decay_n sample_rate patch) in *.
  fold (release_n sample_rate patch) in *.
  set (A := attack_n sample_rate patch) in *.
  set (D := decay_n sample_rate patch) in *.
  set (R := release_n sample_rate patch) in *.
  set (N := sample_count sample_rate patch) in *.
  set (s := sustain_level patch) in *.
  destruct (negb (A =? 0)%Z && (idx <? A)%Z)%bool eqn:E1.
  - apply andb_true_iff in E1. destruct E1 as [_ E1].
    apply Z.ltb_lt in E1.
    destruct (ratio_in_unit idx A (conj Hi0 E1)). split; lra.
  - assert (HiA : (A <= idx)%Z).
    { apply andb_false_iff in E1. destruct E1 as [E1 | E1].
      - apply negb_false_iff, Z.eqb_eq in E1. lia.
      - apply Z.ltb_ge in E1. exact E1. }
    destruct (negb (D =? 0)%Z && (idx <? Z.min N (A + D))%Z)%bool eqn:E2.
    + apply andb_true_iff in E2. destruct E2 as [_ E2].
      apply Z.ltb_lt in E2.
      assert (Hf : (0 <= idx - A < D)%Z) by lia.
      destruct (ratio_in_unit _ _ Hf) as [Hf0 Hf1].
      assert (Hs' : 0 <= 1 - s) by lra.
      destruct (mult_unit_le (1 - s) _ Hs' (conj Hf0 (Qlt_le_weak _ _ Hf1)))
        as [Hm0 Hm1].
      split; lra.
    + destruct (idx <? Z.max (Z.min N (A + D)) (N - R))%Z eqn:E3;
        [split; assumption|].
      apply Z.ltb_ge in E3.
      destruct (R >? 0)%Z eqn:E4; [|split; [apply Qle_refl | discriminate]].
      apply Z.gtb_lt in E4.
      assert (Hmax : Z.max 1 R = R) by lia. rewrite Hmax.
      assert (Hg : (0 <= idx - Z.max (Z.min N (A + D)) (N - R) < R)%Z)
        by lia.
      destruct (ratio_in_unit _ _ Hg) as [Hg0 Hg1].
      set (g := inject_Z (idx - Z.max (Z.min N (A + D)) (N - R))
                / inject_Z R) in *.
      assert (Hg' : 0 <= 1 - g <= 1) by (split; lra).
      destruct (mult_unit_le s (1 - g) Hs0 Hg') as [Hm0 Hm1].
      split; lra.
Qed.

(** X9. For a patch whose attack, decay and release fractions are
    non-negative and whose sustain level lies in [[0, 1]], the
    envelope of every sample of the buffer lies in [[0, 1]]; and when
    the attack stage is not empty the buffer starts from silence, the
    envelope of the first sample being 0. *)
Theorem envelope_in_unit_interval (idx : Z) :
  adsr_sane patch ->
  (0 <= idx < sample_count sample_rate patch)%Z ->
  0 <= env sample_rate patch idx <= 1
  /\ ((0 < attack_n sample_rate patch)%Z -> env sample_rate patch 0 == 0).
Proof.
  intros Hsane Hidx. split; [exact (env_range idx Hsane Hidx)|].
  intro HA. unfold env.
  assert (E : (negb (attack_n sample_rate patch =? 0)%Z
               && (0 <? attack_n sample_rate patch)%Z)%bool = true).
  { apply andb_true_iff. split.
    - apply negb_true_iff, Z.eqb_neq. lia.
    - apply Z.ltb_lt. exact HA. }
  rewrite E. unfold Qdiv. change (inject_Z 0) with 0. apply Qmult_0_l.
Qed.

End EnvelopeFacts.

Section AmplitudeFacts.

Import Audio Props.
Local Open Scope Q_scope.

Variable sin : Q -> Q.
Variable pi : Q.
Variable random : Z -> Q.
Variable sample_rate : Z.
Variable patch : SynthPatch.

Hypothesis sin_bounded : forall a, Qabs (sin a) <= 1.
Hypothesis random_unit : forall i, 0 <= random i <= 1.

Lemma wave_bounded (voice_freq t : Q) :
  Qabs (wave sin pi patch voice_freq t) <= 1.
Proof.
  unfold wave. destruct (waveform patch).
  - apply sin_bounded.
  - destruct (Py.lt _ _); vm_compute; discriminate.
  - pose proof (mod1_range (voice_freq * t)) as [H0 H1].
    set (c := Py.mod1 (voice_freq * t)) in *.
    assert (Hc : Qabs (c - (1 # 2)) <= 1 # 2).
    { apply Qabs_Qle_condition. split; lra. }
    pose proof (Qabs_nonneg (c - (1 # 2))) as Hn.
    apply Qabs_Qle_condition. split; lra.
Qed.

Lemma partials_bounded (hs : list (Q * Q)) :
  forall f t acc,
    Qabs (partials sin pi patch hs f t acc) <= Qabs acc + weight_sum hs.
Proof.
  induction hs as [|[mult weight] rest IH]; intros f t acc.
  - cbn. lra.
  - cbn [partials weight_sum].
    specialize (IH f t (acc + weight * wave sin pi patch (f * mult) t)).
    pose proof (Qabs_triangle acc
                  (weight * wave sin pi patch (f * mult) t)) as Ht.
    rewrite Qabs_Qmult in Ht.
    pose proof (wave_bounded (f * mult) t) as Hw.
    pose proof (Qabs_nonneg weight) as Hnw.
    pose proof (Qabs_nonneg (wave sin pi patch (f * mult) t)) as Hn.
    destruct (mult_unit_le (Qabs weight) _ Hnw (conj Hn Hw)) as [_ Hm].
    lra.
Qed.

Lemma sample_val_bounded (idx : Z) :
  Qabs (sample_val sin pi random sample_rate patch idx)
  <= weight_sum (harmonics patch) + Py.max 0 (noise patch).
Proof.
  unfold sample_val.
  match goal with
  | |- context [partials sin pi patch ?hs ?f ?t 0] =>
      pose proof (partials_bounded hs f t 0) as Hp;
      set (s := partials sin pi patch hs f t 0) in *
  end.
  change (Qabs 0) with 0 in Hp.
  destruct (py_max_bounds 0 (noise patch)) as [Hm0 Hm1].
  destruct (Py.gt (noise patch) 0) eqn:En; [|lra].
  apply py_gt_iff in En.
  pose proof (Qabs_triangle s (noise patch * (random idx * 2 - 1))) as Ht.
  rewrite Qabs_Qmult in Ht.
  assert (Hr : Qabs (random idx * 2 - 1) <= 1).
  { destruct (random_unit idx). apply Qabs_Qle_condition. split; lra. }
  pose proof (Qabs_nonneg (random idx * 2 - 1)) as Hrn.
  rewrite (Qabs_pos (noise patch)) in Ht by lra.
  destruct (mult_unit_le (noise patch) _ (Qlt_le_weak _ _ En)
              (conj Hrn Hr)) as [_ Hm].
  lra.
Qed.

(** X10. With [math.sin] of magnitude at most 1 and noise draws in
    [[0, 1]], every enveloped sample of a patch with sane ADSR
    parameters has magnitude at most the sum of the absolute harmonic
    weights plus the noise weight: the amount by which a sample can
    leave [[-1, 1]] before normalisation. *)
Theorem enveloped_amplitude_bound (idx : Z) :
  adsr_sane patch ->
  (0 <= idx < sample_count sample_rate patch)%Z ->
  Qabs (enveloped sin pi random sample_rate patch idx)
  <= weight_sum (harmonics patch) + Py.max 0 (noise patch).
Proof.
  intros Hsane Hidx. unfold enveloped.
  destruct (env_range sample_rate patch idx Hsane Hidx) as [He0 He1].
  rewrite (py_max_r_or_eq 0 (env sample_rate patch idx) He0).
  rewrite Qabs_Qmult.
  rewrite (Qabs_pos (env sample_rate patch idx)) by exact He0.
  pose proof (sample_val_bounded idx) as Hs.
  pose proof (Qabs_nonneg (sample_val sin pi random sample_rate patch idx))
    as Hn.
  destruct (mult_unit_le _ _ Hn (conj He0 He1)) as [_ Hm].
  lra.
Qed.

End AmplitudeFacts.

Section AmplitudeRuns.

Import Audio Props.
Local Open Scope Q_scope.

Lemma enemy_destroy_sane : adsr_sane patch_enemy_destroy.
Proof. repeat split; vm_compute; discriminate. Qed.

Lemma ripple_sane : adsr_sane patch_ripple.
Proof. repeat split; vm_compute; discriminate. Qed.

Lemma envelope_in_unit_interval_witness :
  adsr_sane patch_ripple
  /\ (0 <= 700 < sample_count 32000 patch_ripple)%Z
  /\ (0 < attack_n 32000 patch_ripple)%Z
  /\ 0 <= env 32000 patch_ripple 700 <= 1
  /\ env 32000 patch_ripple 0 == 0.
Proof.
  assert (Hi : (0 <= 700 < sample_count 32000 patch_ripple)%Z)
    by (vm_compute; split; congruence).
  assert (HA : (0 < attack_n 32000 patch_ripple)%Z) by reflexivity.
  split; [exact ripple_sane|]. split; [exact Hi|].
  split; [exact HA|].
  destruct (envelope_in_unit_interval 32000 patch_ripple 700
              ripple_sane Hi) as [Hrange Hstart].
  split; [exact Hrange | exact (Hstart HA)].
Defined.

Lemma enveloped_amplitude_bound_witness :
  (forall a : Q, Qabs ((fun _ => 0) a) <= 1)
  /\ (forall i : Z, 0 <= (fun _ => 1 # 2) i <= 1)
  /\ adsr_sane patch_enemy_destroy
  /\ (0 <= 0 < sample_count 32000 patch_enemy_destroy)%Z
  /\ Qabs (enveloped (fun _ => 0) 0 (fun _ => 1 # 2) 32000
             patch_enemy_destroy 0)
     <= weight_sum (harmonics patch_enemy_destroy)
        + Py.max 0 (noise patch_enemy_destroy).
Proof.
  assert (Hs : forall a : Q, Qabs ((fun _ : Q => 0) a) <= 1)
    by (intro; vm_compute; discriminate).
  assert (Hr : forall i : Z, 0 <= (fun _ : Z => 1 # 2) i <= 1)
    by (intro; split; vm_compute; discriminate).
  assert (Hi : (0 <= 0 < sample_count 32000 patch_enemy_destroy)%Z)
    by (vm_compute; split; congruence).
  split; [exact Hs|]. split; [exact Hr|].
  split; [exact enemy_destroy_sane|]. split; [exact Hi|].
  exact (enveloped_amplitude_bound (fun _ => 0) 0 (fun _ => 1 # 2) 32000
           patch_enemy_destroy Hs Hr 0 enemy_destroy_sane Hi).
Defined.

Example enemy_destroy_envelope_values :
  map (fun i => Qred (env 32000 patch_enemy_destroy i))
      [0; 384; 768; 5120; 5760; 6399]%Z
  = [1; 33 # 50; 8 # 25; 8 # 25; 4 # 25; 1 # 4000].
Proof. vm_compute. reflexivity. Qed.

End AmplitudeRuns.

(** ** Synth: normalisation *)

Section NormFacts.

Import Audio Props.
Local Open Scope Q_scope.

Lemma fold_max_ge (rest : list Q) :
  forall m,
    m <= fold_left (fun m w => Py.max m (Qabs w)) rest m
    /\ forall w, In w rest ->
                 Qabs w <= fold_left (fun m w => Py.max m (Qabs w)) rest m.
Proof.
  induction rest as [|a rest IH]; intro m; cbn [fold_left].
  - split; [apply Qle_refl | intros w []].
  - destruct (IH (Py.max m (Qabs a))) as [H1 H2].
    destruct (py_max_bounds m (Qabs a)) as [Hm Ha].
    split; [lra|].
    intros w [<- | Hw]; [lra | exact (H2 w Hw)].
Qed.

Lemma peak_dominates (samples : list Q) (v : Q) :
  In v samples -> Qabs v <= norm_peak samples /\ 0 < norm_peak samples.
Proof.
  intro Hin. unfold norm_peak.
  assert (Hp : Qabs v <= peak_of samples).
  { destruct samples as [|a rest]; [destruct Hin|].
    cbn [peak_of]. destruct (fold_max_ge rest (Qabs a)) as [H1 H2].
    destruct Hin as [<- | Hw]; [exact H1 | exact (H2 v Hw)]. }
  destruct (Py.le (peak_of samples) 0) eqn:E.
  - apply py_le_iff in E. split; lra.
  - apply py_le_false_iff in E. split; [exact Hp | exact E].
Qed.

Lemma clamp_range (q : Q) :
  inject_Z (- 32767) <= Py.max (- (32767)) (Py.min 32767 q)
  <= inject_Z 32767.
Proof.
  change (inject_Z (- 32767)) with (- (32767)).
  change (inject_Z 32767) with 32767.
  split; [apply py_max_bounds|].
  apply py_max_lub; [vm_compute; discriminate | apply py_min_bounds].
Qed.

Lemma clamp_inactive (q : Q) :
  - (32767) <= q <= 32767 ->
  Py.max (- (32767)) (Py.min 32767 q) == q.
Proof.
  intros [H1 H2]. unfold Py.max, Py.min.
  rewrite (Q.min_r _ _ H2). apply Q.max_r. exact H1.
Qed.

(** X11. Every sample of the buffer handed to the mixer lies in
    [[-32767, 32767]].  When patch volume times master volume lies in
    [[0, 1]] the clamp never acts: each output is [int(val * scale)]
    and [val * scale] has magnitude at most 32767 times that
    product. *)
Theorem waveform_within_int16 (volume master : Q) (samples : list Q) :
  (forall z, In z (waveform_of volume master samples) ->
             (- 32767 <= z <= 32767)%Z)
  /\ (0 <= volume * master <= 1 ->
      waveform_of volume master samples
      = map (fun val => Py.int (val * norm_scale volume master samples))
            samples
      /\ forall val, In val samples ->
           Qabs (val * norm_scale volume master samples)
           <= 32767 * (volume * master)).
Proof.
  split.
  - intros z Hz. unfold waveform_of in Hz. apply in_map_iff in Hz.
    destruct Hz as [val [<- _]]. apply int_between. apply clamp_range.
  - intros [Hv0 Hv1].
    assert (Hb : forall val, In val samples ->
                   Qabs (val * norm_scale volume master samples)
                   <= 32767 * (volume * master)).
    { intros val Hin. destruct (peak_dominates samples val Hin) as [Hp Hpos].
      unfold norm_scale. set (P := norm_peak samples) in *.
      set (c := 32767 * (volume * master)).
      assert (Hc : 0 <= c) by (unfold c; lra).
      assert (Hne : ~ P == 0) by (intro E; rewrite E in Hpos; lra).
      rewrite Qabs_Qmult.
      assert (Hs : 0 <= c / P).
      { apply Qle_shift_div_l; [exact Hpos | lra]. }
      rewrite (Qabs_pos (c / P)) by exact Hs.
      assert (Hm : Qabs val * (c / P) <= P * (c / P)).
      { apply Qmult_le_compat_r; assumption. }
      assert (E : P * (c / P) == c) by (field; exact Hne).
      lra. }
    split; [|exact Hb].
    unfold waveform_of. apply map_ext_in. intros val Hin.
    apply int_proper. apply clamp_inactive.
    specialize (Hb val Hin). apply Qabs_Qle_condition in Hb.
    destruct Hb as [Hlo Hhi]. split; lra.
Qed.

Lemma waveform_within_int16_witness :
  0 <= (8 # 10) * (45 # 100) <= 1
  /\ waveform_of (8 # 10) (45 # 100) [5 # 3; - (2 # 3); 0]
     = [11796; -4718; 0]%Z.
Proof.
  assert (H : 0 <= (8 # 10) * (45 # 100) <= 1)
    by (split; vm_compute; discriminate).
  split; [exact H|].
  rewrite (proj1 (proj2 (waveform_within_int16 (8 # 10) (45 # 100)
                           [5 # 3; - (2 # 3); 0]) H)).
  vm_compute. reflexivity.
Defined.

End NormFacts.

(** ** Mixer: ducking and limiting *)

Section VolumeFacts.

Import Audio Props.
Local Open Scope Q_scope.

Lemma busy_ratio_in_unit (c : bool) (rest : list bool) :
  0 <= inject_Z (Z.of_nat (length (filter (fun b => b) (c :: rest))))
       / inject_Z (Z.of_nat (length (c :: rest))) <= 1.
Proof.
  pose proof (filter_length_le (fun b : bool => b) (c :: rest)) as Hle.
  set (k := length (filter (fun b => b) (c :: rest))) in *.
  set (n := length (c :: rest)) in *.
  assert (Hn : (0 < n)%nat) by (unfold n; simpl; lia).
  assert (Hnq : 0 < inject_Z (Z.of_nat n)).
  { change 0 with (inject_Z 0). rewrite <- Zlt_Qlt. lia. }
  assert (Hk0 : 0 <= inject_Z (Z.of_nat k)).
  { change 0 with (inject_Z 0). rewrite <- Zle_Qle. lia. }
  assert (Hkn : inject_Z (Z.of_nat k) <= inject_Z (Z.of_nat n)).
  { rewrite <- Zle_Qle. lia. }
  split.
  - apply Qle_shift_div_l; [exact Hnq | lra].
  - apply Qle_shift_div_r; [exact Hnq | lra].
Qed.

(** X12. [_dynamic_volume] returns a value in [[0.12, 1]] when the
    engine has channels and in [[0, 1]] when it has none; for a
    non-negative base it never returns more than the base unless the
    0.12 floor applies; and with every channel idle it is the base
    clamped to [[0.12, 1]]. *)
Theorem dynamic_volume_bounds (chs : list bool) (base : Q) :
  (match chs with [] => 0 | _ :: _ => 12 # 100 end)
  <= _dynamic_volume chs base <= 1
  /\ (0 <= base -> _dynamic_volume chs base <= Py.max (12 # 100) base)
  /\ (chs <> [] -> busy_count chs = 0%nat ->
      _dynamic_volume chs base
      == Py.max (12 # 100) (Py.min 1 base)).
Proof.
  unfold _dynamic_volume. destruct chs as [|c rest].
  - split; [|split].
    + split; [apply py_max_bounds|].
      apply py_max_lub; [vm_compute; discriminate | apply py_min_bounds].
    + intro Hb. destruct (py_max_bounds (12 # 100) base) as [_ Hm].
      apply py_max_lub; [lra|].
      destruct (py_min_bounds 1 base). lra.
    + intro H. congruence.
  - pose proof (busy_ratio_in_unit c rest) as [Hr0 Hr1].
    set (ratio := inject_Z (Z.of_nat (length (filter (fun b => b)
                                                (c :: rest))))
                  / inject_Z (Z.of_nat (length (c :: rest)))) in *.
    split; [|split].
    + split; [apply py_max_bounds|].
      apply py_max_lub; [vm_compute; discriminate | apply py_min_bounds].
    + intro Hb.
      destruct (py_max_bounds (12 # 100) base) as [Hm1 Hm2].
      apply py_max_lub; [exact Hm1|].
      destruct (py_min_bounds 1 (base * (1 - (45 # 100) * ratio)))
        as [_ Hmin].
      assert (Hscale : 0 <= 1 - (45 # 100) * ratio <= 1)
        by (split; lra).
      destruct (mult_unit_le base _ Hb Hscale) as [_ Hmul].
      lra.
    + intros _ Hidle. unfold busy_count in Hidle.
      assert (E : ratio == 0).
      { unfold ratio. rewrite Hidle. reflexivity. }
      assert (E2 : base * (1 - (45 # 100) * ratio) == base).
      { rewrite E. ring. }
      unfold Py.max, Py.min. rewrite E2. reflexivity.
Qed.

Lemma dynamic_volume_bounds_witness :
  0 <= 32 # 100
  /\ channels sample_engine <> []
  /\ 12 # 100 <= _dynamic_volume (channels sample_engine) (32 # 100) <= 1
  /\ _dynamic_volume (channels sample_engine) (32 # 100)
     <= Py.max (12 # 100) (32 # 100).
Proof.
  assert (Hb : 0 <= 32 # 100) by (vm_compute; discriminate).
  assert (Hn : channels sample_engine <> []) by discriminate.
  split; [exact Hb|]. split; [exact Hn|].
  destruct (dynamic_volume_bounds (channels sample_engine) (32 # 100))
    as [Hr [Hle _]].
  split; [exact Hr | exact (Hle Hb)].
Defined.

Lemma sum_levels_from (events : list (Z * Q)) :
  forall acc,
    fold_left (fun acc ev => acc + snd ev) events acc
    == acc + sum_levels events.
Proof.
  unfold sum_levels.
  induction events as [|ev rest IH]; intro acc; cbn [fold_left].
  - ring.
  - rewrite (IH (acc + snd ev)), (IH (0 + snd ev)). ring.
Qed.



Example limiter_scales_crowded_request :
  Qred (snd (_limit_volume sample_engine (32 # 100) 1100)) = 528 # 1775.
Proof. vm_compute. reflexivity. Qed.

End VolumeFacts.

(** ** Mixer: voice allocation *)

Section ChannelFacts.

Import Audio Props.

Variable reserved : list (string * nat).

Lemma first_idle_spec (chs : list bool) :
  forall i,
    match first_idle reserved i chs with
    | Some k =>
        exists j, k = (i + j)%nat /\ (j < length chs)%nat
                  /\ is_reserved reserved k = false
                  /\ nth j chs false = false
                  /\ forall j', (j' < j)%nat ->
                       is_reserved reserved (i + j') = true
                       \/ nth j' chs false = true
    | None =>
        forall j, (j < length chs)%nat ->
                  is_reserved reserved (i + j) = true
                  \/ nth j chs false = true
    end.
Proof.
  induction chs as [|busy rest IH]; intro i; cbn [first_idle].
  - intros j Hj. cbn in Hj. lia.
  - specialize (IH (S i)).
    assert (Hshift : forall j, (S i + j = i + S j)%nat) by (intro; lia).
    destruct (is_reserved reserved i) eqn:Er;
      [|destruct busy eqn:Eb; cbn [negb]].
    3: { exists 0%nat. rewrite Nat.add_0_r. cbn [length nth].
         split; [reflexivity|]. split; [lia|]. split; [exact Er|].
         split; [reflexivity|]. intros j' Hj'. lia. }
    all: destruct (first_idle reserved (S i) rest) as [k|].
    all: try (destruct IH as [j [Hk [Hj [Hres [Hidle Hbefore]]]]];
              exists (S j); rewrite <- Hshift; cbn [length nth];
              split; [exact Hk|]; split; [lia|]; split; [exact Hres|];
              split; [exact Hidle|];
              intros j' Hj'; destruct j' as [|j'];
              [rewrite Nat.add_0_r; cbn [nth]; auto
              |rewrite <- Hshift; cbn [nth]; apply Hbefore; lia]).
    all: intros j Hj; cbn [length] in Hj; destruct j as [|j];
         [rewrite Nat.add_0_r; cbn [nth]; auto
         |rewrite <- Hshift; cbn [nth]; apply IH; lia].
Qed.

Lemma first_free_spec (chs : list bool) :
  forall i,
    match first_free reserved i chs with
    | Some k =>
        exists j, k = (i + j)%nat /\ (j < length chs)%nat
                  /\ is_reserved reserved k = false
                  /\ forall j', (j' < j)%nat ->
                       is_reserved reserved (i + j') = true
    | None =>
        forall j, (j < length chs)%nat ->
                  is_reserved reserved (i + j) = true
    end.
Proof.
  induction chs as [|busy rest IH]; intro i; cbn [first_free].
  - intros j Hj. cbn in Hj. lia.
  - specialize (IH (S i)).
    assert (Hshift : forall j, (S i + j = i + S j)%nat) by (intro; lia).
    destruct (is_reserved reserved i) eqn:Er.
    + destruct (first_free reserved (S i) rest) as [k|].
      * destruct IH as [j [Hk [Hj [Hres Hbefore]]]].
        exists (S j). rewrite <- Hshift. cbn [length].
        split; [exact Hk|]. split; [lia|]. split; [exact Hres|].
        intros j' Hj'. destruct j' as [|j'];
          [rewrite Nat.add_0_r; exact Er
          |rewrite <- Hshift; apply Hbefore; lia].
      * intros j Hj. cbn [length] in Hj. destruct j as [|j];
          [rewrite Nat.add_0_r; exact Er
          |rewrite <- Hshift; apply IH; lia].
    + exists 0%nat. rewrite Nat.add_0_r. cbn [length].
      split; [reflexivity|]. split; [lia|]. split; [exact Er|].
      intros j' Hj'. lia.
Qed.

End ChannelFacts.

Section FindChannelFacts.

Import Audio Props.

(** X14. [_find_channel] never hands out a reserved channel.  It
    returns the first channel that is neither reserved nor busy and
    leaves every channel as it is; when every unreserved channel is
    busy it stops and returns the first unreserved one; and it
    returns nothing exactly when every channel is reserved (or there
    is none). *)
Theorem find_channel_policy (e : AudioEngine) :
  let chs := channels e in
  let res := _reserved_channels e in
  match _find_channel e with
  | (Some k, chs') =>
      (k < length chs)%nat
      /\ is_reserved res k = false
      /\ (nth k chs false = false ->
          chs' = chs
          /\ forall j, (j < k)%nat ->
               is_reserved res j = true \/ nth j chs false = true)
      /\ (nth k chs false = true ->
          chs' = set_busy k false chs
          /\ (forall j, (j < k)%nat -> is_reserved res j = true)
          /\ forall j, (j < length chs)%nat ->
               is_reserved res j = true \/ nth j chs false = true)
  | (None, chs') =>
      chs' = chs
      /\ forall j, (j < length chs)%nat -> is_reserved res j = true
  end.
Proof.
  intros chs res. unfold _find_channel. fold chs. fold res.
  pose proof (first_idle_spec res chs 0) as Hidle.
  pose proof (first_free_spec res chs 0) as Hfree.
  destruct chs as [|c rest] eqn:Echs.
  { split; [reflexivity|]. intros j Hj. cbn in Hj. lia. }
  rewrite <- Echs in *.
  destruct (first_idle res 0 chs) as [k|].
  - destruct Hidle as [j [Hk [Hj [Hres [Hfree_k Hbefore]]]]].
    cbn [Nat.add] in Hk. subst j.
    split; [exact Hj|]. split; [exact Hres|]. split.
    + intros _. split; [reflexivity|]. exact Hbefore.
    + intro Hbusy. congruence.
  - destruct (first_free res 0 chs) as [k|].
    + destruct Hfree as [j [Hk [Hj [Hres Hbefore]]]].
      cbn [Nat.add] in Hk. subst j.
      assert (Hbusy : nth k chs false = true).
      { destruct (Hidle k Hj) as [H | H]; [cbn [Nat.add] in H; congruence
                                          | exact H]. }
      split; [exact Hj|]. split; [exact Hres|]. split.
      * intro H. congruence.
      * intros _. split; [reflexivity|]. split; [exact Hbefore|].
        exact Hidle.
    + split; [reflexivity|]. exact Hfree.
Qed.

Example find_channel_prefers_idle :
  _find_channel sample_engine = (Some 2%nat, channels sample_engine).
Proof. reflexivity. Qed.

Example find_channel_steals_first :
  _find_channel (set_channels (repeat true 24) sample_engine)
  = (Some 0%nat, false :: repeat true 23).
Proof. reflexivity. Qed.

End FindChannelFacts.

(** ** Mixer: [play] *)

Section PlayFacts.

Import Audio Props.
Local Open Scope Q_scope.

Lemma set_busy_length (i : nat) (v : bool) (chs : list bool) :
  length (set_busy i v chs) = length chs.
Proof.
  revert i. induction chs as [|c rest IH]; intro i;
    [destruct i; reflexivity|].
  destruct i as [|i]; cbn [set_busy length]; [reflexivity|].
  rewrite IH. reflexivity.
Qed.

Lemma set_busy_nth (i : nat) (v : bool) (chs : list bool) :
  (i < length chs)%nat -> nth i (set_busy i v chs) false = v.
Proof.
  revert i. induction chs as [|c rest IH]; intros i Hi; cbn in Hi; [lia|].
  destruct i as [|i]; cbn [set_busy nth]; [reflexivity|].
  apply IH. lia.
Qed.

Lemma dynamic_volume_range (chs : list bool) (base : Q) :
  0 <= _dynamic_volume chs base <= 1
  /\ (chs <> [] -> 12 # 100 <= _dynamic_volume chs base).
Proof.
  unfold _dynamic_volume. destruct chs as [|c rest].
  - split; [|congruence].
    split; [apply py_max_bounds|].
    apply py_max_lub; [vm_compute; discriminate | apply py_min_bounds].
  - match goal with
    | |- context [Py.max (12 # 100) ?m] =>
        destruct (py_max_bounds (12 # 100) m) as [Hlo _];
        assert (Hhi : Py.max (12 # 100) m <= 1)
          by (apply py_max_lub;
              [vm_compute; discriminate | apply py_min_bounds])
    end.
    split; [split; [|exact Hhi] | intros _; exact Hlo].
    apply (Qle_trans _ (12 # 100)); [vm_compute; discriminate | exact Hlo].
Qed.

Lemma find_channel_some (e : AudioEngine) (k : nat) (chs' : list bool) :
  _find_channel e = (Some k, chs') ->
  (k < length (channels e))%nat
  /\ is_reserved (_reserved_channels e) k = false
  /\ length chs' = length (channels e).
Proof.
  unfold _find_channel.
  pose proof (first_idle_spec (_reserved_channels e) (channels e) 0)
    as Hidle.
  pose proof (first_free_spec (_reserved_channels e) (channels e) 0)
    as Hfree.
  destruct (channels e) as [|c rest] eqn:Echs; [discriminate|].
  rewrite <- Echs in *.
  destruct (first_idle (_reserved_channels e) 0 (channels e)) as [k0|].
  - intro H. injection H as <- <-.
    destruct Hidle as [j [Hk [Hj [Hres _]]]]. cbn [Nat.add] in Hk.
    subst j. auto.
  - destruct (first_free (_reserved_channels e) 0 (channels e)) as [k0|];
      [|discriminate].
    intro H. injection H as <- <-.
    destruct Hfree as [j [Hk [Hj [Hres _]]]]. cbn [Nat.add] in Hk.
    subst j. rewrite set_busy_length. auto.
Qed.

Lemma start_on_spec (i : nat) (base : Q) (now fade : Z)
    (fadeout : option Z) (e e1 : AudioEngine) (r : option PlayAction) :
  start_on i base now fade fadeout e = (e1, r) ->
  same_config e e1
  /\ channels e1 = set_busy i true (channels e)
  /\ exists a, r = Some a /\ a_channel a = i /\ a_fade_ms a = fade
               /\ 0 <= a_volume a <= 1
               /\ (channels e <> [] -> 12 # 100 <= a_volume a).
Proof.
  unfold start_on.
  destruct (_limit_volume e base now) as [events limited].
  intro H. injection H as <- <-.
  split; [|split].
  - unfold same_config. cbn. rewrite set_busy_length. repeat split.
  - reflexivity.
  - eexists. split; [reflexivity|]. cbn [a_channel a_fade_ms a_volume].
    split; [reflexivity|]. split; [reflexivity|].
    cbn [channels set_mix_events].
    apply dynamic_volume_range.
Qed.

(** X15. Once [play] has started an effect at tick [now], a request
    for the same effect less than the gate (60 ms) later does
    nothing at all: no channel is touched and the engine state is
    unchanged.  An effect that has never been played is treated as
    played at tick 0, so a first request before the gate has elapsed
    since tick 0 is dropped too. *)
Theorem play_gate (name : string) (now now2 : Z) (e e1 : AudioEngine)
    (a : PlayAction) :
  (play name now e = (e1, Some a) ->
   (now2 - now < _sound_gate_ms e)%Z ->
   play name now2 e1 = (e1, None))
  /\ (_last_play e name = None ->
      (now < _sound_gate_ms e)%Z ->
      play name now e = (e, None)).
Proof.
  split.
  - unfold play at 1.
    destruct (negb (enabled e)) eqn:Een; [discriminate|].
    destruct (negb (sounds e name)) eqn:Eso; [discriminate|].
    destruct (now - dict_get (_last_play e) name 0 <? _sound_gate_ms e)%Z;
      [discriminate|].
    set (e0 := set_last_play (dict_set (_last_play e) name now) e).
    assert (H0 : same_config e0 e1 -> (now2 - now < _sound_gate_ms e)%Z ->
                 play name now2 e1 = (e1, None)).
    { intros [C1 [C2 [_ [_ [_ [C6 [C7 _]]]]]]] Hgate.
      unfold play. rewrite C1, C2. cbn [enabled sounds e0 set_last_play].
      rewrite Een, Eso.
      assert (Hl : dict_get (_last_play e1) name 0%Z = now).
      { rewrite C7. unfold dict_get, e0, set_last_play, dict_set.
        cbn [_last_play]. rewrite String.eqb_refl. reflexivity. }
      rewrite Hl, C6. cbn [_sound_gate_ms e0 set_last_play].
      rewrite (proj2 (Z.ltb_lt _ _) Hgate). reflexivity. }
    destruct (reserved_get (_reserved_channels e0) name) as [i|].
    + intros H Hgate. apply start_on_spec in H. destruct H as [Hc _].
      exact (H0 Hc Hgate).
    + destruct (_find_channel e0) as [[k|] chs] eqn:Ef; [|discriminate].
      intros H Hgate. apply start_on_spec in H. destruct H as [Hc _].
      apply H0; [|exact Hgate].
      destruct (find_channel_some e0 k chs Ef) as [_ [_ Hlen]].
      destruct Hc as [C1 [C2 [C3 [C4 [C5 [C6 [C7 C8]]]]]]].
      cbn [set_channels enabled sounds sound_fades mix_levels
           _reserved_channels _sound_gate_ms _last_play channels] in *.
      unfold same_config. rewrite C8, Hlen. auto 10.
  - intros Hnone Hearly. unfold play.
    destruct (negb (enabled e)); [reflexivity|].
    destruct (negb (sounds e name)); [reflexivity|].
    unfold dict_get. rewrite Hnone. rewrite Z.sub_0_r.
    rewrite (proj2 (Z.ltb_lt _ _) Hearly). reflexivity.
Qed.

(** X16. Whenever [play] starts a sound, the engine is enabled and
    knows the effect, the volume it sets lies in [[0, 1]] (at least
    0.12 when the engine has channels), the fade-in is not negative
    and the request time is recorded.  An effect bound to a reserved
    channel plays on that channel; any other effect plays on a
    channel that is not reserved, which ends up busy. *)
Theorem play_routes (name : string) (now : Z) (e e1 : AudioEngine)
    (a : PlayAction) :
  play name now e = (e1, Some a) ->
  enabled e = true /\ sounds e name = true
  /\ 0 <= a_volume a <= 1
  /\ (channels e <> [] -> 12 # 100 <= a_volume a)
  /\ (0 <= a_fade_ms a)%Z
  /\ _last_play e1 name = Some now
  /\ match reserved_get (_reserved_channels e) name with
     | Some i => a_channel a = i
     | None =>
         is_reserved (_reserved_channels e) (a_channel a) = false
         /\ (a_channel a < length (channels e))%nat
         /\ nth (a_channel a) (channels e1) false = true
     end.
Proof.
  unfold play.
  destruct (enabled e) eqn:Een; cbn [negb]; [|discriminate].
  destruct (sounds e name) eqn:Eso; cbn [negb]; [|discriminate].
  destruct (now - dict_get (_last_play e) name 0 <? _sound_gate_ms e)%Z;
    [discriminate|].
  set (e0 := set_last_play (dict_set (_last_play e) name now) e).
  assert (Hlast : _last_play e0 name = Some now).
  { unfold e0, set_last_play, dict_set. cbn [_last_play].
    rewrite String.eqb_refl. reflexivity. }
  change (_reserved_channels e0) with (_reserved_channels e).
  destruct (reserved_get (_reserved_channels e) name) as [i|].
  - intro H. apply start_on_spec in H.
    destruct H as [[_ [_ [_ [_ [_ [_ [C7 _]]]]]]]
                     [_ [a0 [Ea [Hch [Hfade [Hvol Hfloor]]]]]]].
    injection Ea as <-.
    split; [reflexivity|]. split; [reflexivity|]. split; [exact Hvol|].
    split; [exact Hfloor|]. split; [rewrite Hfade; lia|].
    split; [rewrite C7; exact Hlast | exact Hch].
  - destruct (_find_channel e0) as [[k|] chs] eqn:Ef; [|discriminate].
    destruct (find_channel_some e0 k chs Ef) as [Hk [Hres Hlen]].
    change (channels e0) with (channels e) in Hk, Hlen.
    change (_reserved_channels e0) with (_reserved_channels e) in Hres.
    intro H. apply start_on_spec in H.
    destruct H as [[_ [_ [_ [_ [_ [_ [C7 _]]]]]]]
                     [Hchs [a0 [Ea [Hch [Hfade [Hvol Hfloor]]]]]]].
    injection Ea as <-.
    cbn [set_channels channels _last_play] in *.
    split; [reflexivity|]. split; [reflexivity|]. split; [exact Hvol|].
    split.
    { intros _. apply Hfloor. intro E. rewrite E in Hlen.
      cbn in Hlen. lia. }
    split; [rewrite Hfade; lia|].
    split; [rewrite C7; exact Hlast|].
    rewrite Hch. split; [exact Hres|]. split; [exact Hk|].
    rewrite Hchs. apply set_busy_nth. lia.
Qed.

End PlayFacts.

Section PlayRuns.

Import Audio Props.
Local Open Scope Q_scope.

(** Scenario D: the reserved effect requested twice within the gate
    is started once, on the reserved channel. *)
Example ripple_twice_within_gate :
  exists e1 a,
    play "ripple" 1100 sample_engine = (e1, Some a)
    /\ a_channel a = 23%nat
    /\ a_fadeout a = None
    /\ play "ripple" 1140 e1 = (e1, None).
Proof.
  destruct (play "ripple" 1100 sample_engine) as [e1 r] eqn:E.
  vm_compute in E. injection E as <- <-.
  eexists. eexists. split; [reflexivity|].
  split; [reflexivity|]. split; [reflexivity|].
  vm_compute. reflexivity.
Qed.

Lemma play_gate_witness :
  exists e1 a,
    play "ripple" 1100 sample_engine = (e1, Some a)
    /\ (1140 - 1100 < _sound_gate_ms sample_engine)%Z
    /\ play "ripple" 1140 e1 = (e1, None)
    /\ _last_play sample_engine "ripple"%string = None
    /\ (30 < _sound_gate_ms sample_engine)%Z
    /\ play "ripple" 30 sample_engine = (sample_engine, None).
Proof.
  destruct (play "ripple" 1100 sample_engine) as [e1 [a|]] eqn:E;
    [|vm_compute in E; discriminate].
  assert (Hg : (1140 - 1100 < _sound_gate_ms sample_engine)%Z)
    by reflexivity.
  assert (Hn : _last_play sample_engine "ripple"%string = None) by reflexivity.
  assert (He : (30 < _sound_gate_ms sample_engine)%Z) by reflexivity.
  exists e1, a. split; [reflexivity|]. split; [exact Hg|].
  split; [exact (proj1 (play_gate "ripple" 1100 1140 sample_engine e1 a)
                   E Hg)|].
  split; [exact Hn|]. split; [exact He|].
  exact (proj2 (play_gate "ripple" 30 0 sample_engine sample_engine a)
           Hn He).
Defined.

Lemma play_routes_witness :
  exists e1 a,
    play "fruit" 1100 sample_engine = (e1, Some a)
    /\ a_channel a = 2%nat
    /\ 12 # 100 <= a_volume a <= 1
    /\ nth 2 (channels e1) false = true
    /\ _last_play e1 "fruit"%string = Some 1100%Z.
Proof.
  destruct (play "fruit" 1100 sample_engine) as [e1 [a|]] eqn:E;
    [|vm_compute in E; discriminate].
  exists e1, a. split; [reflexivity|].
  destruct (play_routes "fruit" 1100 sample_engine e1 a E)
    as [_ [_ [[_ Hhi] [Hlo [_ [Hlast Hroute]]]]]].
  cbn in Hroute. destruct Hroute as [_ [_ Hbusy]].
  assert (Hch : a_channel a = 2%nat).
  { vm_compute in E. injection E as _ <-. reflexivity. }
  rewrite Hch in Hbusy.
  split; [exact Hch|]. split; [split; [|exact Hhi]|].
  - apply Hlo. discriminate.
  - split; [exact Hbusy | exact Hlast].
Defined.

End PlayRuns.

(** ** Game: speed *)

Section SpeedFacts.

Import Config Game Spec Props.
Local Open Scope Q_scope.

Lemma update_speed_fields (g : NeonSnake) :
  current_speed (_update_speed g) = speed_for (score g)
  /\ move_interval (_update_speed g) = 1 / speed_for (score g)
  /\ score (_update_speed g) = score g.
Proof. repeat split. Qed.

Lemma speed_for_range (s : Z) : 1 <= speed_for s <= 16.
Proof.
  unfold speed_for. split.
  - apply py_min_glb; [vm_compute; discriminate | apply py_max_bounds].
  - apply py_min_bounds.
Qed.

Lemma raw_speed_mono (s t : Z) :
  (s <= t)%Z ->
  inject_Z MOVES_PER_SECOND + inject_Z s / inject_Z SPEED_STEP
  <= inject_Z MOVES_PER_SECOND + inject_Z t / inject_Z SPEED_STEP.
Proof.
  intro H. rewrite Zle_Qle in H.
  assert (Hd : inject_Z s / inject_Z SPEED_STEP
               <= inject_Z t / inject_Z SPEED_STEP).
  { unfold Qdiv. apply Qmult_le_compat_r; [exact H|].
    vm_compute. discriminate. }
  lra.
Qed.

Lemma speed_for_mono (s t : Z) :
  (s <= t)%Z -> speed_for s <= speed_for t.
Proof.
  intro H. pose proof (raw_speed_mono s t H) as Hr.
  unfold speed_for.
  set (a := inject_Z MOVES_PER_SECOND + inject_Z s / inject_Z SPEED_STEP)
    in *.
  set (b := inject_Z MOVES_PER_SECOND + inject_Z t / inject_Z SPEED_STEP)
    in *.
  apply py_min_glb; [apply py_min_bounds|].
  destruct (py_min_bounds (inject_Z MAX_MOVES_PER_SECOND) (Py.max 1 a))
    as [_ H2].
  destruct (py_max_bounds 1 b) as [H3 H4].
  assert (H5 : Py.max 1 a <= Py.max 1 b) by (apply py_max_lub; lra).
  lra.
Qed.

Lemma raw_speed_value (s : Z) :
  inject_Z MOVES_PER_SECOND + inject_Z s / inject_Z SPEED_STEP
  == 10 + inject_Z s / 60.
Proof. reflexivity. Qed.

(** X17. For a non-negative score [_update_speed] sets the speed to
    [10 + score / 60] moves per second, capped at 16 (reached from
    score 360 on), so the speed lies in [[10, 16]]; the step interval
    is its inverse, between 1/16 s and 1/10 s.  A higher score never
    gives a lower speed. *)
Theorem update_speed_range (g : NeonSnake) :
  (0 <= score g)%Z ->
  let g' := _update_speed g in
  10 <= current_speed g' <= 16
  /\ move_interval g' == 1 / current_speed g'
  /\ 1 # 16 <= move_interval g' <= 1 # 10
  /\ ((score g <= 360)%Z ->
      current_speed g' == 10 + inject_Z (score g) / 60)
  /\ ((360 <= score g)%Z -> current_speed g' == 16)
  /\ forall g2, (score g <= score g2)%Z ->
       current_speed g' <= current_speed (_update_speed g2).
Proof.
  intros Hs g'. subst g'.
  destruct (update_speed_fields g) as [Ec [Em _]]. rewrite Ec, Em.
  pose proof (speed_for_range (score g)) as [_ Hhi].
  assert (Hraw : 10 <= 10 + inject_Z (score g) / 60).
  { assert (H0 : 0 <= inject_Z (score g) / 60).
    { apply Qle_shift_div_l; [reflexivity|].
      rewrite Qmult_0_l. change 0 with (inject_Z 0).
      rewrite <- Zle_Qle. exact Hs. }
    lra. }
  assert (Hlo : 10 <= speed_for (score g)).
  { unfold speed_for. rewrite raw_speed_value.
    apply py_min_glb; [vm_compute; discriminate|].
    destruct (py_max_bounds 1 (10 + inject_Z (score g) / 60)). lra. }
  assert (Hcut : (score g <= 360)%Z <-> 10 + inject_Z (score g) / 60 <= 16).
  { split; intro H.
    - rewrite Zle_Qle in H. change (inject_Z 360) with 360 in H.
      assert (Hd : inject_Z (score g) / 60 <= 6).
      { apply Qle_shift_div_r; [reflexivity | lra]. }
      lra.
    - rewrite Zle_Qle. change (inject_Z 360) with 360.
      assert (Hd : inject_Z (score g) / 60 <= 6) by lra.
      assert (Hm : inject_Z (score g) / 60 * 60 <= 6 * 60).
      { apply Qmult_le_compat_r; [exact Hd | discriminate]. }
      assert (E : inject_Z (score g) / 60 * 60 == inject_Z (score g))
        by (field).
      lra. }
  split; [split; [exact Hlo | exact Hhi]|].
  split; [reflexivity|]. split.
  { assert (Hpos : 0 < speed_for (score g)) by lra.
    split.
    - apply Qle_shift_div_l; [exact Hpos | lra].
    - apply Qle_shift_div_r; [exact Hpos | lra]. }
  split; [|split].
  - intro H. apply Hcut in H. unfold speed_for.
    rewrite raw_speed_value. unfold Py.min, Py.max.
    rewrite (Q.max_r 1 _) by lra. apply Q.min_r. exact H.
  - intro H. unfold speed_for. rewrite raw_speed_value.
    unfold Py.min, Py.max.
    assert (H16 : 16 <= 10 + inject_Z (score g) / 60).
    { destruct (Qlt_le_dec (10 + inject_Z (score g) / 60) 16) as [Hlt | Hge];
        [|exact Hge].
      assert (Hle : (score g <= 360)%Z) by (apply Hcut; lra).
      assert (Heq : score g = 360%Z) by lia.
      rewrite Heq. vm_compute. discriminate. }
    rewrite (Q.max_r 1 _) by lra. apply Q.min_l. exact H16.
  - intros g2 H2. destruct (update_speed_fields g2) as [Ec2 _].
    rewrite Ec2. apply speed_for_mono. exact H2.
Qed.

Lemma update_speed_range_witness :
  (0 <= score (set_score 150 scenario_A))%Z
  /\ 10 <= current_speed (_update_speed (set_score 150 scenario_A)) <= 16
  /\ current_speed (_update_speed (set_score 150 scenario_A))
     == 10 + inject_Z 150 / 60.
Proof.
  assert (H : (0 <= score (set_score 150 scenario_A))%Z)
    by (vm_compute; congruence).
  split; [exact H|].
  destruct (update_speed_range (set_score 150 scenario_A) H)
    as [Hr [_ [_ [Hf _]]]].
  split; [exact Hr|]. apply Hf. vm_compute. congruence.
Defined.

End SpeedFacts.

(** ** Game: game over *)

Section GameOverFacts.

Import Config Game Spec Props.
Local Open Scope Q_scope.



End GameOverFacts.

(** ** Game: what a step does to score, spawner and speed *)

Section ScoreFacts.

Import Config Game Spec Props.
Local Open Scope Q_scope.

Lemma maybe_spawn_bonus_tally (chance roll : Q) (pick : nat)
    (g : NeonSnake) :
  tally (_maybe_spawn_bonus chance roll pick g) = tally g
  /\ enemy_spawns_active (_maybe_spawn_bonus chance roll pick g)
     = enemy_spawns_active g.
Proof.
  unfold _maybe_spawn_bonus.
  destruct (bonus g); [split; reflexivity|].
  destruct (Py.gt roll chance); [split; reflexivity|].
  destruct (_reachable_bonus_spots g); split; reflexivity.
Qed.

Lemma start_enemy_spawns_tally (u : Q) (g : NeonSnake) :
  tally (_start_enemy_spawns u g) = tally g
  /\ enemy_spawns_active (_start_enemy_spawns u g) = true.
Proof.
  unfold _start_enemy_spawns.
  destruct (enemy_spawns_active g) eqn:E; split; try reflexivity.
  exact E.
Qed.

Lemma pop_tail_tally (g : NeonSnake) :
  tally (pop_tail g) = tally g
  /\ enemy_spawns_active (pop_tail g) = enemy_spawns_active g.
Proof.
  unfold pop_tail. destruct (snake_blocks g); split; reflexivity.
Qed.

Lemma game_over_tally (g : NeonSnake) : tally (game_over g) = tally g.
Proof.
  unfold game_over. destruct (state g); try reflexivity;
    cbn [score high_score set_state];
    destruct (score g >? high_score g)%Z; reflexivity.
Qed.

Lemma eat_fruit_tally (d : StepDraw) (g g' : NeonSnake) :
  eat_fruit d g = Some g' ->
  tally g' = ((score g + 10)%Z, (fruits_eaten g + 1)%Z,
              speed_for (score g + 10), 1 / speed_for (score g + 10))
  /\ (fruits_eaten g = 0%Z -> enemy_spawns_active g' = true)
  /\ (enemy_spawns_active g = true -> enemy_spawns_active g' = true).
Proof.
  unfold eat_fruit.
  set (g1 := _update_speed (set_score (score g + 10)%Z g)).
  set (g2 := _emit_ripple _ _ _ _ _ _ g1).
  set (g3 := set_snake_washes _ g2).
  unfold spawn_fruit.
  destruct (_random_fruit_pos (fruit_cells d) (snake_blocks g3)) as [p|];
    [|discriminate].
  set (g4 := set_fruit p (fruit_color_pick d) g3).
  assert (H4 : tally g4 = ((score g + 10)%Z, fruits_eaten g,
                           speed_for (score g + 10),
                           1 / speed_for (score g + 10))
               /\ enemy_spawns_active g4 = enemy_spawns_active g)
    by (split; reflexivity).
  destruct (maybe_spawn_bonus_tally BONUS_CHANCE (bonus_roll d)
              (bonus_pick d) g4) as [T5 A5].
  set (g5 := _maybe_spawn_bonus _ _ _ g4) in *.
  set (g6 := set_fruits_eaten (fruits_eaten g5 + 1)%Z g5).
  assert (H6 : tally g6 = ((score g + 10)%Z, (fruits_eaten g + 1)%Z,
                           speed_for (score g + 10),
                           1 / speed_for (score g + 10))
               /\ enemy_spawns_active g6 = enemy_spawns_active g).
  { destruct H4 as [T4 A4]. rewrite T4 in T5. unfold tally in T5.
    injection T5 as S5 F5 C5 M5.
    unfold tally, g6. cbn [score fruits_eaten current_speed move_interval
                           set_fruits_eaten enemy_spawns_active].
    rewrite S5, F5, C5, M5, A5, A4. split; reflexivity. }
  destruct H6 as [T6 A6].
  destruct (start_enemy_spawns_tally (delay_u d) g6) as [T7 A7].
  intro H. injection H as <-.
  assert (Hf : fruits_eaten g6 = (fruits_eaten g + 1)%Z).
  { unfold tally in T6. injection T6 as _ F6 _ _. exact F6. }
  change (fruits_eaten g5 + 1)%Z with (fruits_eaten g6).
  destruct (fruits_eaten g6 =? 1)%Z eqn:E1.
  - rewrite T7, T6. split; [reflexivity|]. split; intros _; exact A7.
  - rewrite T6. split; [reflexivity|]. split.
    + intro H0. apply Z.eqb_neq in E1. lia.
    + intro Ha. rewrite A6. exact Ha.
Qed.

Lemma handle_bonus_pickup_tally (roll : Q) (pick : nat) (g : NeonSnake)
    (b : BonusFruit) :
  bonus g = Some b ->
  tally (_handle_bonus_pickup roll pick g)
  = ((score g + BONUS_POINTS)%Z, fruits_eaten g,
     speed_for (score g + BONUS_POINTS),
     1 / speed_for (score g + BONUS_POINTS))
  /\ enemy_spawns_active (_handle_bonus_pickup roll pick g)
     = enemy_spawns_active g.
Proof.
  intro Hb. unfold _handle_bonus_pickup. rewrite Hb.
  match goal with
  | |- context [_maybe_spawn_bonus ?c roll pick ?g4] =>
      destruct (maybe_spawn_bonus_tally c roll pick g4) as [T A];
      rewrite T, A
  end.
  split; reflexivity.
Qed.

(** X19. What one returning step does to the score.  A collision
    changes neither score nor speed.  Picking up the fruit adds
    exactly 10 points and one eaten fruit, and the first fruit
    switches the enemy spawner on; picking up the bonus adds exactly
    35 points; any other step leaves score and fruit count alone.  In
    every case the score does not decrease, and when speed and step
    interval matched the score before the step they match it
    after. *)
Theorem step_scores (d : StepDraw) (g g' : NeonSnake) :
  step d g = Some g' ->
  (In (new_head g) (snake_blocks g) -> tally g' = tally g)
  /\ (~ In (new_head g) (snake_blocks g) ->
      (new_head g = fruit_pos g ->
       score g' = (score g + 10)%Z
       /\ fruits_eaten g' = (fruits_eaten g + 1)%Z
       /\ (fruits_eaten g = 0%Z -> enemy_spawns_active g' = true))
      /\ (new_head g <> fruit_pos g ->
          forall b, bonus g = Some b -> new_head g = pos b ->
                    score g' = (score g + BONUS_POINTS)%Z
                    /\ fruits_eaten g' = fruits_eaten g)
      /\ (new_head g <> fruit_pos g ->
          (forall b, bonus g = Some b -> new_head g <> pos b) ->
          tally g' = tally g))
  /\ (score g <= score g')%Z
  /\ (in_sync g -> in_sync g').
Proof.
  intro Hstep.
  assert (Hsync : forall s f, tally g' = (s, f, speed_for s, 1 / speed_for s)
                              -> in_sync g').
  { intros s f T. unfold tally in T. injection T as S _ C M.
    unfold in_sync. rewrite C, M, S. split; reflexivity. }
  assert (Hkeep : tally g' = tally g ->
                  (score g <= score g')%Z /\ (in_sync g -> in_sync g')).
  { intro T. unfold tally in T. injection T as S _ C M.
    split; [lia|]. unfold in_sync. rewrite C, M, S. tauto. }
  destruct (cell_in (new_head g) (snake_blocks g)) eqn:Ecol.
  - apply cell_in_iff in Ecol.
    rewrite (step_collision d g Ecol) in Hstep. injection Hstep as <-.
    assert (T : tally (game_over (set_direction (pending_direction g) g))
                = tally g) by (rewrite game_over_tally; reflexivity).
    split; [intros _; exact T|].
    split; [intro H; contradiction|]. exact (Hkeep T).
  - apply cell_in_false_iff in Ecol.
    split; [intro Hin; contradiction|].
    assert (Hcases :
      (new_head g = fruit_pos g ->
       score g' = (score g + 10)%Z
       /\ fruits_eaten g' = (fruits_eaten g + 1)%Z
       /\ (fruits_eaten g = 0%Z -> enemy_spawns_active g' = true))
      /\ (new_head g <> fruit_pos g ->
          forall b, bonus g = Some b -> new_head g = pos b ->
                    score g' = (score g + BONUS_POINTS)%Z
                    /\ fruits_eaten g' = fruits_eaten g)
      /\ (new_head g <> fruit_pos g ->
          (forall b, bonus g = Some b -> new_head g <> pos b) ->
          tally g' = tally g)
      /\ (score g <= score g')%Z
      /\ (in_sync g -> in_sync g')).
    2: { destruct Hcases as [C1 [C2 [C3 [C4 C5]]]].
         split; [intros _; split; [exact C1 | split; [exact C2 | exact C3]]|].
         split; [exact C4 | exact C5]. }
    revert Hstep. unfold step.
    change (snake_blocks (set_direction (pending_direction g) g))
      with (snake_blocks g).
    rewrite (proj2 (cell_in_false_iff _ _) Ecol).
    set (g1 := set_snake_blocks _ (set_head _ (set_direction _ g))).
    assert (H1 : tally g1 = tally g /\ head g1 = new_head g
                 /\ fruit_pos g1 = fruit_pos g /\ bonus g1 = bonus g
                 /\ fruits_eaten g1 = fruits_eaten g
                 /\ score g1 = score g)
      by (repeat split).
    destruct H1 as [T1 [Hh [Hf [Hb [Hfe Hsc]]]]].
    rewrite Hh, Hf, Hb.
    destruct (cell_eqb (new_head g) (fruit_pos g)) eqn:Efruit.
    + apply cell_eqb_eq in Efruit.
      destruct (eat_fruit d g1) as [g2|] eqn:Eeat; [|discriminate].
      intro Hst. injection Hst as <-.
      destruct (eat_fruit_tally d g1 g2 Eeat) as [T2 [Hact _]].
      destruct (pop_tail_tally g2) as [Tp Ap].
      rewrite Hsc, Hfe in T2. rewrite T2 in Tp.
      assert (Tp' := Tp). unfold tally in Tp'. injection Tp' as S F _ _.
      split; [|split; [|split; [|split]]].
      * intros _. split; [exact S|]. split; [exact F|].
        intro H0. rewrite Ap. apply Hact. rewrite Hfe. exact H0.
      * intro Hn. contradiction.
      * intros Hn _. contradiction.
      * lia.
      * intros _. exact (Hsync _ _ Tp).
    + assert (Hne : new_head g <> fruit_pos g).
      { intro E. apply cell_eqb_eq in E. congruence. }
      destruct (bonus g) as [b|] eqn:Ebonus.
      * destruct (cell_eqb (new_head g) (pos b)) eqn:Epos.
        -- apply cell_eqb_eq in Epos.
           intro Hst. injection Hst as <-.
           assert (Hb1 : bonus g1 = Some b) by exact Hb.
           destruct (handle_bonus_pickup_tally (bonus_roll d) (bonus_pick d)
                       g1 b Hb1) as [T2 _].
           destruct (pop_tail_tally
                       (_handle_bonus_pickup (bonus_roll d) (bonus_pick d)
                          g1)) as [Tp _].
           rewrite Hsc, Hfe in T2. rewrite T2 in Tp.
           assert (Tp' := Tp). unfold tally in Tp'.
           injection Tp' as S F _ _.
           split; [|split; [|split; [|split]]].
           ++ intro Hn. contradiction.
           ++ intros _ b' Hb' _. split; [exact S | exact F].
           ++ intros _ Hno. exfalso. exact (Hno b eq_refl Epos).
           ++ unfold BONUS_POINTS in S. lia.
           ++ intros _. exact (Hsync _ _ Tp).
        -- assert (Hnb : new_head g <> pos b).
           { intro E. apply cell_eqb_eq in E. congruence. }
           intro Hst. injection Hst as <-.
           destruct (pop_tail_tally g1) as [Tp _]. rewrite T1 in Tp.
           destruct (Hkeep Tp) as [K1 K2].
           split; [|split; [|split; [|split]]].
           ++ intro Hn. contradiction.
           ++ intros _ b' Hb' Hp. injection Hb' as <-. contradiction.
           ++ intros _ _. exact Tp.
           ++ exact K1.
           ++ exact K2.
      * intro Hst. injection Hst as <-.
        destruct (pop_tail_tally g1) as [Tp _]. rewrite T1 in Tp.
        destruct (Hkeep Tp) as [K1 K2].
        split; [|split; [|split; [|split]]].
        -- intro Hn. contradiction.
        -- intros _ b' Hb'. discriminate.
        -- intros _ _. exact Tp.
        -- exact K1.
        -- exact K2.
Qed.

End ScoreFacts.

Section ScoreRuns.

Import Config Game Spec Props.
Local Open Scope Q_scope.

Lemma step_scores_witness :
  exists g',
    step quiet_draw scenario_B = Some g'
    /\ ~ In (new_head scenario_B) (snake_blocks scenario_B)
    /\ new_head scenario_B = fruit_pos scenario_B
    /\ score g' = (score scenario_B + 10)%Z
    /\ fruits_eaten g' = (fruits_eaten scenario_B + 1)%Z
    /\ enemy_spawns_active g' = true.
Proof.
  destruct (step quiet_draw scenario_B) as [g'|] eqn:E;
    [|vm_compute in E; discriminate].
  assert (Hfree : ~ In (new_head scenario_B) (snake_blocks scenario_B)).
  { apply cell_in_false_iff. reflexivity. }
  assert (Hfruit : new_head scenario_B = fruit_pos scenario_B)
    by reflexivity.
  exists g'. split; [reflexivity|]. split; [exact Hfree|].
  split; [exact Hfruit|].
  destruct (step_scores quiet_draw scenario_B g' E) as [_ [Hmove _]].
  destruct (proj1 (Hmove Hfree) Hfruit) as [Hs [Hf Ha]].
  split; [exact Hs|]. split; [exact Hf|]. apply Ha. reflexivity.
Defined.

End ScoreRuns.

(** ** Game: after a self-collision *)

Section CollisionStepFacts.

Import Config Game Spec Props.
Local Open Scope Q_scope.

(** X20. Once a step has ended the match on a self-collision, every
    further step is a no-op, whatever it draws: the state it returns
    is the state it was given.  The stepping loop of one frame can go
    on calling [step] after the collision without moving the snake or
    changing the score. *)
Theorem step_after_collision_is_noop (d d' : StepDraw) (g g1 : NeonSnake) :
  In (new_head g) (snake_blocks g) ->
  step d g = Some g1 ->
  step d' g1 = Some g1.
Proof.
  intros Hin Hstep.
  rewrite (step_collision d g Hin) in Hstep. injection Hstep as <-.
  set (g0 := set_direction (pending_direction g) g).
  assert (Hnh : new_head (game_over g0) = new_head g).
  { unfold game_over. destruct (state g0); try reflexivity;
      cbn [score high_score set_state];
      destruct (score g0 >? high_score g0)%Z; reflexivity. }
  assert (Hb : snake_blocks (game_over g0) = snake_blocks g).
  { unfold game_over. destruct (state g0); try reflexivity;
      cbn [score high_score set_state];
      destruct (score g0 >? high_score g0)%Z; reflexivity. }
  assert (Hin' : In (new_head (game_over g0)) (snake_blocks (game_over g0))).
  { rewrite Hnh, Hb. exact Hin. }
  rewrite (step_collision d' (game_over g0) Hin'). f_equal.
  clear Hnh Hb Hin' Hin. subst g0.
  destruct g as [sc hd sb dir pd st fe fp fc bo cs mi hs en si act tm gr sw].
  unfold game_over, set_direction.
  cbn [state score high_score pending_direction set_state].
  destruct st; cbn [state score high_score pending_direction set_state
                    set_high_score]; try reflexivity;
    destruct (sc >? hs)%Z eqn:E;
    cbn [state score high_score pending_direction set_state set_high_score
         head snake_blocks direction fruits_eaten fruit_pos fruit_color
         bonus current_speed move_interval enemies spawn_indicators
         enemy_spawns_active enemy_spawn_timer grid_ripples snake_washes];
    reflexivity.
Qed.

Lemma step_after_collision_is_noop_witness :
  In (new_head scenario_coiled) (snake_blocks scenario_coiled)
  /\ step quiet_draw scenario_coiled
     = Some (game_over (set_direction LEFT scenario_coiled))
  /\ step quiet_draw (game_over (set_direction LEFT scenario_coiled))
     = Some (game_over (set_direction LEFT scenario_coiled)).
Proof.
  assert (Hin : In (new_head scenario_coiled) (snake_blocks scenario_coiled)).
  { apply cell_in_iff. reflexivity. }
  assert (Hstep : step quiet_draw scenario_coiled
                  = Some (game_over (set_direction LEFT scenario_coiled)))
    by reflexivity.
  split; [exact Hin|]. split; [exact Hstep|].
  exact (step_after_collision_is_noop quiet_draw quiet_draw scenario_coiled
           _ Hin Hstep).
Defined.

End CollisionStepFacts.

(** ** Game: the shape of the snake *)

Section ShapeFacts.

Import Config Game Spec Props.
Local Open Scope Q_scope.

Lemma new_head_advance (g : NeonSnake) :
  new_head g = advance_cell (head g) (pending_direction g).
Proof. unfold new_head, advance_cell. destruct (pending_direction g); reflexivity. Qed.

Lemma advance_on_arena (c : Cell) (d : Direction) :
  on_arena c -> on_arena (advance_cell c d).
Proof.
  unfold on_arena, advance_cell, WINDOW_SIZE, BLOCK.
  destruct c as [a b]. cbn [fst snd].
  intros [Ha [Hb [Ha' Hb']]].
  destruct d; cbn [DIRECTIONS fst snd];
    repeat apply conj; Z.div_mod_to_equations; lia.
Qed.

Lemma removelast_cons2 {A : Type} (a b : A) (l : list A) :
  removelast (a :: b :: l) = a :: removelast (b :: l).
Proof. reflexivity. Qed.

Lemma Forall_removelast {A : Type} (P : A -> Prop) (l : list A) :
  Forall P l -> Forall P (removelast l).
Proof.
  intro H. apply Forall_forall. intros a Ha.
  rewrite Forall_forall in H. apply H. apply In_removelast. exact Ha.
Qed.

Lemma step_no_reverse (d : StepDraw) (g g' : NeonSnake) :
  step d g = Some g' ->
  direction g' = pending_direction g
  /\ pending_direction g' = pending_direction g.
Proof.
  intro Hstep.
  destruct (cell_in (new_head g) (snake_blocks g)) eqn:Ecol.
  - apply cell_in_iff in Ecol.
    rewrite (step_collision d g Ecol) in Hstep. injection Hstep as <-.
    unfold game_over.
    destruct (state (set_direction (pending_direction g) g));
      try (split; reflexivity);
      cbn [score high_score set_state];
      match goal with |- context [if ?c then _ else _] => destruct c end;
      split; reflexivity.
  - revert Hstep. unfold step.
    change (snake_blocks (set_direction (pending_direction g) g))
      with (snake_blocks g).
    rewrite Ecol.
    set (g1 := set_snake_blocks _ (set_head _ (set_direction _ g))).
    assert (Hpop : forall g2,
              direction g2 = pending_direction g
              /\ pending_direction g2 = pending_direction g ->
              direction (pop_tail g2) = pending_direction g
              /\ pending_direction (pop_tail g2) = pending_direction g).
    { intros g2 H2. unfold pop_tail. destruct (snake_blocks g2); exact H2. }
    assert (H1 : direction g1 = pending_direction g
                 /\ pending_direction g1 = pending_direction g)
      by (split; reflexivity).
    assert (Hbonus : forall c r k g2,
              direction g2 = pending_direction g
              /\ pending_direction g2 = pending_direction g ->
              direction (_maybe_spawn_bonus c r k g2) = pending_direction g
              /\ pending_direction (_maybe_spawn_bonus c r k g2)
                 = pending_direction g).
    { intros c r k g2 H2. unfold _maybe_spawn_bonus.
      destruct (bonus g2); [exact H2|].
      destruct (Py.gt r c); [exact H2|].
      destruct (_reachable_bonus_spots g2); exact H2. }
    destruct (cell_eqb (head g1) (fruit_pos g1)).
    + unfold eat_fruit, spawn_fruit.
      match goal with
      | |- context [_random_fruit_pos ?ds ?bl] =>
          destruct (_random_fruit_pos ds bl) as [p|]
      end; [|discriminate].
      intro H. injection H as <-. apply Hpop.
      match goal with
      | |- context [_maybe_spawn_bonus ?c ?r ?k ?g4] =>
          pose proof (Hbonus c r k g4 (conj eq_refl eq_refl)) as H5;
          set (g5 := _maybe_spawn_bonus c r k g4) in *
      end.
      match goal with |- context [if ?c then _ else _] => destruct c end;
        [|exact H5].
      unfold _start_enemy_spawns.
      match goal with |- context [if ?c then _ else _] => destruct c end;
        exact H5.
    + destruct (bonus g1) as [b|] eqn:Eb.
      * destruct (cell_eqb (head g1) (pos b)).
        -- intro H. injection H as <-. apply Hpop.
           unfold _handle_bonus_pickup. rewrite Eb.
           apply Hbonus. split; reflexivity.
        -- intro H. injection H as <-. apply Hpop. exact H1.
      * intro H. injection H as <-. apply Hpop. exact H1.
Qed.

Lemma opposite_irreflexive (d : Direction) : d <> OPPOSITE d.
Proof. destruct d; discriminate. Qed.

(** Going one cell on and one cell further brings the head back only
    when the second direction is the opposite of the first. *)
Lemma advance_back_only_opposite (n : Cell) (d p : Direction) :
  on_arena n ->
  advance_cell (advance_cell n d) p = n -> p = OPPOSITE d.
Proof.
  unfold on_arena, advance_cell, WINDOW_SIZE, BLOCK.
  destruct n as [a b]. cbn [fst snd].
  intros [Ha [Hb _]] H. injection H as Hx Hy.
  destruct d, p; cbn [DIRECTIONS OPPOSITE fst snd] in *;
    try reflexivity; exfalso; Z.div_mod_to_equations; lia.
Qed.

(** X21. The shape of the snake is kept by [step]: when the body
    lies on the arena grid and starts with the head, it does so after
    every returning step (the head wrapping at the edges), the second
    cell is the one the head came from while the match goes on, and
    the current direction is the buffered one, which is not its own
    opposite. *)
Theorem step_keeps_snake_shape (d : StepDraw) (g g' : NeonSnake) :
  snake_shape g ->
  step d g = Some g' ->
  snake_shape g'
  /\ direction g' = pending_direction g'
  /\ no_reverse g'.
Proof.
  intros [Harena [Hhd Hneck]] Hstep.
  destruct (step_no_reverse d g g' Hstep) as [Hdir Hpend].
  assert (Hrev : direction g' = pending_direction g' /\ no_reverse g').
  { split; [congruence|]. unfold no_reverse. rewrite Hdir, Hpend.
    apply opposite_irreflexive. }
  split; [|exact Hrev].
  destruct (snake_blocks g) as [|h rest] eqn:Eb; [discriminate|].
  cbn in Hhd. injection Hhd as Hh.
  destruct (cell_in (new_head g) (h :: rest)) eqn:Ecol.
  - apply cell_in_iff in Ecol. rewrite <- Eb in Ecol.
    rewrite (step_collision d g Ecol) in Hstep. injection Hstep as <-.
    destruct (game_over_frame (set_direction (pending_direction g) g))
      as [Hst [Hb' [Hh' _]]].
    unfold snake_shape. rewrite Hb', Hh', Hst.
    cbn [snake_blocks head set_direction]. rewrite Eb.
    split; [exact Harena|]. split; [cbn; congruence|].
    intro H. congruence.
  - apply cell_in_false_iff in Ecol. rewrite <- Eb in Ecol.
    destruct (step_moves d g g' Ecol Hstep) as [Hb' [Hh' [Hst' _]]].
    assert (Hon : on_arena (new_head g)).
    { rewrite new_head_advance. apply advance_on_arena.
      rewrite <- Hh. inversion Harena. assumption. }
    unfold snake_shape. rewrite Hb', Hh', Hst', Eb.
    rewrite removelast_cons2. split; [|split].
    + constructor; [exact Hon|]. apply Forall_removelast. exact Harena.
    + reflexivity.
    + intros Hrun n Hn. rewrite Hdir, new_head_advance.
      destruct rest as [|r rest']; [discriminate|].
      cbn in Hn. injection Hn as <-. rewrite Hh. reflexivity.
Qed.

Lemma reset_snake_shape (draws : list (Z * Z)) (color_pick : Z)
    (g g' : NeonSnake) :
  _reset_game_state draws color_pick g = Some g' ->
  snake_shape g' /\ no_reverse g' /\ state g' = running.
Proof.
  unfold _reset_game_state, spawn_fruit.
  match goal with
  | |- context [_random_fruit_pos draws ?bl] =>
      destruct (_random_fruit_pos draws bl) as [p|]
  end; [|discriminate].
  intro H. injection H as <-.
  split; [|split; [discriminate | reflexivity]].
  unfold snake_shape. cbn. split; [|split].
  - repeat constructor; vm_compute; try congruence; reflexivity.
  - reflexivity.
  - intros _ n Hn. injection Hn as <-. reflexivity.
Qed.

Lemma step_keeps_snake_shape_witness :
  snake_shape scenario_A
  /\ exists g',
       step quiet_draw scenario_A = Some g'
       /\ snake_shape g'
       /\ direction g' = pending_direction g'
       /\ no_reverse g'.
Proof.
  assert (Hshape : snake_shape scenario_A).
  { unfold snake_shape. cbn. split; [|split].
    - repeat constructor; vm_compute; try congruence; reflexivity.
    - reflexivity.
    - intros _ n Hn. injection Hn as <-. reflexivity. }
  split; [exact Hshape|].
  destruct (step quiet_draw scenario_A) as [g'|] eqn:Hstep;
    [|vm_compute in Hstep; discriminate].
  exists g'. split; [reflexivity|].
  exact (step_keeps_snake_shape quiet_draw scenario_A g' Hshape Hstep).
Defined.

Lemma direction_eqb_false (a b : Direction) :
  direction_eqb a b = false -> a <> b.
Proof. destruct a, b; intros H E; discriminate. Qed.

Lemma set_state_shape (st : State) (g : NeonSnake) :
  state g <> game_over_state ->
  snake_shape g /\ no_reverse g ->
  snake_shape (set_state st g) /\ no_reverse (set_state st g).
Proof.
  intros Hrun [[Ha [Hh Hn]] Hr]. split; [|exact Hr].
  unfold snake_shape. cbn [set_state snake_blocks head state direction].
  split; [exact Ha|]. split; [exact Hh|].
  intros _. exact (Hn Hrun).
Qed.

Lemma set_pending_shape (d : Direction) (g : NeonSnake) :
  d <> OPPOSITE (direction g) ->
  snake_shape g ->
  snake_shape (set_pending_direction d g)
  /\ no_reverse (set_pending_direction d g).
Proof.
  intros Hd Hs. split; [exact Hs | exact Hd].
Qed.

Lemma handle_event_shape (dr : list (Z * Z) * Z) (ev : Event)
    (r r' : Runner) (b : bool) :
  handle_event dr ev r = Some (r', b) ->
  snake_shape (game r) /\ no_reverse (game r) ->
  snake_shape (game r') /\ no_reverse (game r').
Proof.
  intros H Hinv. unfold handle_event in H.
  destruct ev as [|key|];
    [injection H as <- <-; exact Hinv | | injection H as <- <-; exact Hinv].
  destruct (state (game r)) eqn:Est.
  - (* running *)
    destruct key;
      cbn -[direction_eqb OPPOSITE _toggle_pause _reset_game_state] in H;
      try (injection H as <- <-; exact Hinv);
      try (unfold _toggle_pause in H; rewrite Est in H;
           injection H as <- <-; cbn [game];
           apply set_state_shape; [rewrite Est; discriminate | exact Hinv]);
      match type of H with
      | context [direction_eqb ?a ?o] =>
          destruct (direction_eqb a o) eqn:Ed; cbn [negb] in H;
          injection H as <- <-; [exact Hinv|];
          cbn [game]; apply set_pending_shape;
          [exact (direction_eqb_false _ _ Ed) | exact (proj1 Hinv)]
      end.
  - (* paused *)
    destruct key;
      cbn -[direction_eqb OPPOSITE _toggle_pause _reset_game_state] in H;
      try (injection H as <- <-; exact Hinv);
      unfold _toggle_pause in H; rewrite Est in H;
      injection H as <- <-; cbn [game];
      apply set_state_shape; [rewrite Est; discriminate | exact Hinv].
  - (* game over *)
    destruct key;
      cbn -[direction_eqb OPPOSITE _toggle_pause _reset_game_state] in H;
      try (injection H as <- <-; exact Hinv).
    destruct (_reset_game_state (fst dr) (snd dr) (game r)) as [g|] eqn:Er;
      [|discriminate].
    injection H as <- <-. cbn [game].
    destruct (reset_snake_shape _ _ _ _ Er) as [Hs [Hn _]].
    split; assumption.
Qed.

Lemma handle_events_shape (draws : nat -> list (Z * Z) * Z)
    (events : list Event) :
  forall (i : nat) (r r' : Runner) (b : bool),
    handle_events draws i events r = Some (r', b) ->
    snake_shape (game r) /\ no_reverse (game r) ->
    snake_shape (game r') /\ no_reverse (game r').
Proof.
  induction events as [|ev rest IH]; intros i r r' b H Hinv.
  - injection H as <- <-. exact Hinv.
  - cbn [handle_events] in H.
    destruct (handle_event (draws i) ev r) as [[r1 b1]|] eqn:E1;
      [|discriminate].
    pose proof (handle_event_shape _ _ _ _ _ E1 Hinv) as H1.
    destruct b1.
    + exact (IH _ _ _ _ H H1).
    + injection H as <- <-. exact H1.
Qed.

(** X22. The snake cannot be steered back into its own neck.  When
    the body has its shape and the buffered direction is not the
    opposite of the current one, then after the key presses of a
    frame, whatever they are and in whatever order, both still hold,
    and while the match goes on the cell the next step moves the head
    to is not the second cell of the body. *)
Theorem input_never_reverses (draws : nat -> list (Z * Z) * Z)
    (i : nat) (events : list Event) (r r' : Runner) (b : bool) :
  snake_shape (game r) ->
  no_reverse (game r) ->
  handle_events draws i events r = Some (r', b) ->
  snake_shape (game r')
  /\ no_reverse (game r')
  /\ (state (game r') <> game_over_state ->
      forall n, nth_error (snake_blocks (game r')) 1 = Some n ->
                new_head (game r') <> n).
Proof.
  intros Hs Hn H.
  destruct (handle_events_shape draws events i r r' b H (conj Hs Hn))
    as [Hs' Hn'].
  split; [exact Hs'|]. split; [exact Hn'|].
  intros Hrun n Hnth Hback.
  destruct Hs' as [Harena [_ Hneck]].
  pose proof (Hneck Hrun n Hnth) as Hhead.
  assert (Hon : on_arena n).
  { rewrite Forall_forall in Harena. apply Harena.
    exact (nth_error_In _ _ Hnth). }
  rewrite new_head_advance, Hhead in Hback.
  exact (Hn' (advance_back_only_opposite n _ _ Hon Hback)).
Qed.

Lemma input_never_reverses_witness :
  snake_shape scenario_A
  /\ no_reverse scenario_A
  /\ exists r',
       handle_events (fun _ => ([], 0%Z)) 0
         [KEYDOWN K_UP; KEYDOWN K_LEFT; KEYDOWN K_s]
         (mkRunner scenario_A 0) = Some (r', true)
       /\ pending_direction (game r') = DOWN
       /\ snake_shape (game r')
       /\ no_reverse (game r')
       /\ (state (game r') <> game_over_state ->
           forall n, nth_error (snake_blocks (game r')) 1 = Some n ->
                     new_head (game r') <> n).
Proof.
  assert (Hshape : snake_shape scenario_A).
  { unfold snake_shape. cbn. split; [|split].
    - repeat constructor; vm_compute; try congruence; reflexivity.
    - reflexivity.
    - intros _ n Hn. injection Hn as <-. reflexivity. }
  assert (Hrev : no_reverse scenario_A) by (vm_compute; discriminate).
  split; [exact Hshape|]. split; [exact Hrev|].
  exists (mkRunner (set_pending_direction DOWN scenario_A) 0).
  assert (Hev : handle_events (fun _ => ([], 0%Z)) 0
                  [KEYDOWN K_UP; KEYDOWN K_LEFT; KEYDOWN K_s]
                  (mkRunner scenario_A 0)
                = Some (mkRunner (set_pending_direction DOWN scenario_A) 0,
                        true)) by reflexivity.
  split; [exact Hev|]. split; [reflexivity|].
  exact (input_never_reverses _ _ _ (mkRunner scenario_A 0) _ _
           Hshape Hrev Hev).
Defined.

End ShapeFacts.

(** ** Game: spawn markers and the enemy cap *)

Section TelegraphFacts.

Import Config Effects Enemies Game Spec Props.
Local Open Scope Q_scope.

Variable hypot : Q -> Q -> Q.

Lemma pending_of_app (l l' : list SpawnIndicator) :
  pending_of (l ++ l') = (pending_of l + pending_of l')%nat.
Proof. unfold pending_of. rewrite filter_app, length_app. reflexivity. Qed.

Lemma pending_of_cons (m : SpawnIndicator) (l : list SpawnIndicator) :
  pending_of (m :: l)
  = ((match payload m with Some _ => 1 | None => 0 end)
     + pending_of l)%nat.
Proof. unfold pending_of. cbn [filter]. destruct (payload m); reflexivity. Qed.

Lemma active_total_unfold (g : NeonSnake) :
  active_total g
  = (Z.of_nat (length (enemies g))
     + Z.of_nat (pending_of (spawn_indicators g)))%Z.
Proof. reflexivity. Qed.

Lemma indicators_loop_spec (dt : Q) (markers : list SpawnIndicator) :
  forall (enemies : list RippleEnemy) (survivors : list SpawnIndicator),
  exists admitted kept,
    indicators_loop dt markers enemies survivors
    = (enemies ++ admitted, survivors ++ kept)
    /\ Forall admitted_fresh admitted
    /\ Forall (fun m => 0 < time m) kept
    /\ (length admitted + pending_of kept)%nat = pending_of markers
    /\ (length admitted + length kept <= length markers)%nat.
Proof.
  induction markers as [|m rest IH]; intros enemies survivors.
  - exists [], []. rewrite !app_nil_r. repeat split; constructor.
  - cbn [indicators_loop].
    destruct (Py.le (Py.max 0 (time m - dt)) 0) eqn:Et.
    + destruct (payload m) as [p|] eqn:Ep.
      * destruct (IH (enemies
                        ++ [mkEnemy (e_x p) (e_y p) (e_speed p) (e_size p)
                              (e_color p) 0 (Py.max (35 # 100) (warmup p))])
                     survivors)
          as [adm [kept [Heq [Hadm [Hk [Hcount Hlen]]]]]].
        eexists (_ :: adm), kept. rewrite Heq, <- app_assoc.
        split; [reflexivity|]. split; [|split; [exact Hk|]].
        -- constructor; [|exact Hadm]. split; [reflexivity|].
           apply py_max_bounds.
        -- rewrite pending_of_cons, Ep. cbn [length]. lia.
      * destruct (IH enemies survivors)
          as [adm [kept [Heq [Hadm [Hk [Hcount Hlen]]]]]].
        exists adm, kept. split; [exact Heq|].
        split; [exact Hadm|]. split; [exact Hk|].
        rewrite pending_of_cons, Ep. cbn [length]. lia.
    + apply py_le_false_iff in Et.
      set (m' := mkIndicator (i_x m) (i_y m) (Py.max 0 (time m - dt))
                   (i_duration m) (i_color m) (payload m)).
      destruct (IH enemies (survivors ++ [m']))
        as [adm [kept [Heq [Hadm [Hk [Hcount Hlen]]]]]].
      exists adm, (m' :: kept). rewrite Heq, <- app_assoc.
      split; [reflexivity|]. split; [exact Hadm|].
      split; [constructor; [exact Et | exact Hk]|].
      rewrite !pending_of_cons.
      change (payload m') with (payload m).
      destruct (payload m); cbn [length]; lia.
Qed.

(** X23. [_update_spawn_indicators] loses no enemy.  Under a positive
    [dt] every marker it keeps has a positive countdown left and no
    marker is added; the enemies already alive stay in place and the
    ones released by expired markers are appended behind them with
    age 0 and a warm-up of at least 0.35 s; the number of enemies
    alive or announced is the same before and after. *)
Theorem spawn_indicators_conserve (dt : Q) (g : NeonSnake) :
  0 < dt ->
  let g' := _update_spawn_indicators dt g in
  active_total g' = active_total g
  /\ (exists admitted,
        enemies g' = enemies g ++ admitted
        /\ Forall admitted_fresh admitted)
  /\ Forall (fun m => 0 < time m) (spawn_indicators g')
  /\ (length (spawn_indicators g') <= length (spawn_indicators g))%nat.
Proof.
  intros Hdt g'. subst g'. unfold _update_spawn_indicators.
  assert (Hle : Py.le dt 0 = false) by (apply py_le_false_iff; exact Hdt).
  rewrite Hle.
  destruct (indicators_loop_spec dt (spawn_indicators g) (enemies g) [])
    as [adm [kept [Heq [Hadm [Hk [Hcount Hlen]]]]]].
  rewrite Heq. cbn [app].
  rewrite !active_total_unfold.
  cbn [set_spawn_indicators set_enemies enemies spawn_indicators].
  split; [rewrite length_app; lia|].
  split; [exists adm; split; [reflexivity | exact Hadm]|].
  split; [exact Hk | lia].
Qed.

Lemma spawn_indicators_conserve_witness :
  0 < 1 # 10
  /\ active_total scenario_telegraph = 3%Z
  /\ active_total (_update_spawn_indicators (1 # 10) scenario_telegraph)
     = active_total scenario_telegraph
  /\ (exists admitted,
        enemies (_update_spawn_indicators (1 # 10) scenario_telegraph)
        = enemies scenario_telegraph ++ admitted
        /\ Forall admitted_fresh admitted)
  /\ Forall (fun m => 0 < time m)
       (spawn_indicators
          (_update_spawn_indicators (1 # 10) scenario_telegraph))
  /\ (length (spawn_indicators
                (_update_spawn_indicators (1 # 10) scenario_telegraph))
      <= length (spawn_indicators scenario_telegraph))%nat.
Proof.
  assert (Hdt : 0 < 1 # 10) by reflexivity.
  split; [exact Hdt|]. split; [reflexivity|].
  exact (spawn_indicators_conserve (1 # 10) scenario_telegraph Hdt).
Defined.

(** The marker of the sample scenario that is due is released with
    its age reset and its warm-up raised to 0.35 s. *)
Example telegraph_releases_due_marker :
  enemies (_update_spawn_indicators (1 # 10) scenario_telegraph)
  = [sample_enemy; mkEnemy 56 56 64 12 0 0 (35 # 100)]
  /\ map time
       (spawn_indicators
          (_update_spawn_indicators (1 # 10) scenario_telegraph))
     = [(8 # 10) - (1 # 10)].
Proof. split; reflexivity. Qed.

Lemma spawn_enemy_count (d : SpawnDraw) (g : NeonSnake) :
  enemies (fst (_spawn_enemy hypot d g)) = enemies g
  /\ score (fst (_spawn_enemy hypot d g)) = score g
  /\ fruits_eaten (fst (_spawn_enemy hypot d g)) = fruits_eaten g
  /\ pending_of (spawn_indicators (fst (_spawn_enemy hypot d g)))
     = (pending_of (spawn_indicators g)
        + if snd (_spawn_enemy hypot d g) then 1 else 0)%nat.
Proof.
  unfold _spawn_enemy.
  match goal with
  | |- context [match ?r with Some _ => _ | None => _ end] => destruct r
  end.
  - cbn [fst snd]. unfold _register_spawn_indicator.
    cbn [set_spawn_indicators enemies score fruits_eaten spawn_indicators].
    rewrite pending_of_app. repeat split.
  - cbn [fst snd]. repeat split. lia.
Qed.

Lemma spawn_batch_count (budget : nat) :
  forall (i : nat) (draws : nat -> SpawnDraw) (any : bool) (g : NeonSnake),
    let g' := fst (spawn_batch hypot budget i draws any g) in
    enemies g' = enemies g
    /\ score g' = score g
    /\ fruits_eaten g' = fruits_eaten g
    /\ (pending_of (spawn_indicators g)
        <= pending_of (spawn_indicators g')
        <= pending_of (spawn_indicators g) + budget)%nat.
Proof.
  induction budget as [|b IH]; intros i draws any g.
  - cbn. repeat split; lia.
  - cbn [spawn_batch].
    destruct (spawn_enemy_count (draws i) g) as [He [Hs [Hf Hp]]].
    destruct (_spawn_enemy hypot (draws i) g) as [g1 spawned].
    cbn [fst snd] in *.
    destruct spawned.
    + specialize (IH (S i) draws (any || true)%bool g1).
      cbn zeta in IH. destruct IH as [He' [Hs' [Hf' Hp']]].
      cbn zeta. rewrite He', Hs', Hf', He, Hs, Hf.
      repeat split; lia.
    + cbn zeta. cbn [fst]. rewrite He, Hs, Hf.
      repeat split; lia.
Qed.

Lemma desired_enemy_count_depends (g g' : NeonSnake) :
  score g' = score g -> fruits_eaten g' = fruits_eaten g ->
  _desired_enemy_count g' = _desired_enemy_count g.
Proof.
  intros Hs Hf. unfold _desired_enemy_count. rewrite Hs, Hf. reflexivity.
Qed.

(** X24. The spawn scheduler never overshoots the enemy cap.  A call
    of [_tick_enemy_spawn_timer] leaves the living enemies alone and
    only ever adds markers, at most three of them, and only as many
    as are missing: afterwards the number of enemies alive or
    announced is at most the larger of what it was and
    [_desired_enemy_count], which is at most 5. *)
Theorem spawn_tick_respects_cap (d : TickDraw) (dt : Q) (g : NeonSnake) :
  let g' := _tick_enemy_spawn_timer hypot d dt g in
  enemies g' = enemies g
  /\ (active_total g <= active_total g')%Z
  /\ (active_total g' <= active_total g + 3)%Z
  /\ (active_total g'
      <= Z.max (active_total g) (_desired_enemy_count g))%Z
  /\ (active_total g' <= Z.max (active_total g) 5)%Z.
Proof.
  cbn zeta.
  assert (Hcap : (_desired_enemy_count g <= 5)%Z).
  { unfold _desired_enemy_count. lia. }
  assert (Hsame : forall g1,
            enemies g1 = enemies g ->
            spawn_indicators g1 = spawn_indicators g ->
            enemies g1 = enemies g
            /\ (active_total g <= active_total g1)%Z
            /\ (active_total g1 <= active_total g + 3)%Z
            /\ (active_total g1
                <= Z.max (active_total g) (_desired_enemy_count g))%Z
            /\ (active_total g1 <= Z.max (active_total g) 5)%Z).
  { intros g1 He Hi. rewrite !active_total_unfold, He, Hi.
    repeat split; lia. }
  unfold _tick_enemy_spawn_timer.
  destruct (negb (enemy_spawns_active g) || Py.le dt 0)%bool;
    [apply Hsame; reflexivity|].
  set (g0 := set_enemy_spawn_timer (Py.max 0 (enemy_spawn_timer g - dt)) g).
  destruct (Py.gt (enemy_spawn_timer g0) 0); [apply Hsame; reflexivity|].
  destruct (tick_deficit g0 <=? 0)%Z eqn:Ed;
    [apply Hsame; reflexivity|].
  apply Z.leb_gt in Ed.
  pose proof (spawn_batch_count
                (Z.to_nat (Z.max 1 (Z.min 3 (tick_deficit g0)))) 0
                (t_spawn d) false g0) as Hb.
  cbn zeta in Hb.
  destruct (spawn_batch hypot _ 0 (t_spawn d) false g0) as [g1 any].
  cbn [fst] in Hb. destruct Hb as [He [Hs [Hf Hp]]].
  assert (Hgoal : forall g2,
            enemies g2 = enemies g1 ->
            spawn_indicators g2 = spawn_indicators g1 ->
            enemies g2 = enemies g
            /\ (active_total g <= active_total g2)%Z
            /\ (active_total g2 <= active_total g + 3)%Z
            /\ (active_total g2
                <= Z.max (active_total g) (_desired_enemy_count g))%Z
            /\ (active_total g2 <= Z.max (active_total g) 5)%Z).
  { intros g2 He2 Hi2.
    unfold tick_deficit in Ed, Hp.
    change (_pending_spawn_count g0)
      with (Z.of_nat (pending_of (spawn_indicators g))) in Ed, Hp.
    change (enemies g0) with (enemies g) in *.
    change (spawn_indicators g0) with (spawn_indicators g) in *.
    change (_desired_enemy_count g0) with (_desired_enemy_count g) in *.
    rewrite !active_total_unfold, He2, Hi2, He.
    repeat split; lia. }
  destruct any; apply Hgoal; reflexivity.
Qed.

(** With the lucky draws of the sample match one marker is added,
    and a second call while it is pending adds none. *)
Example spawn_tick_fills_deficit_once :
  let g1 := _tick_enemy_spawn_timer hypot_q lucky_draw (2 # 10)
              scenario_spawning in
  let g2 := _tick_enemy_spawn_timer hypot_q lucky_draw 5 g1 in
  active_total scenario_spawning = 0%Z
  /\ _desired_enemy_count scenario_spawning = 1%Z
  /\ active_total g1 = 1%Z
  /\ active_total g2 = 1%Z.
Proof. vm_compute. repeat split. Qed.

End TelegraphFacts.

(** ** Game: the stepping loop of [start] *)

Section LoopFacts.

Import Config Game Spec Props.
Local Open Scope Q_scope.

Lemma step_tally_cases (d : StepDraw) (g g' : NeonSnake) :
  step d g = Some g' ->
  tally g' = tally g
  \/ exists s f, tally g' = (s, f, speed_for s, 1 / speed_for s).
Proof.
  intro Hstep.
  destruct (cell_in (new_head g) (snake_blocks g)) eqn:Ecol.
  - apply cell_in_iff in Ecol.
    rewrite (step_collision d g Ecol) in Hstep. injection Hstep as <-.
    left. rewrite game_over_tally. reflexivity.
  - revert Hstep. unfold step.
    change (snake_blocks (set_direction (pending_direction g) g))
      with (snake_blocks g).
    rewrite Ecol.
    set (g1 := set_snake_blocks _ (set_head _ (set_direction _ g))).
    assert (T1 : tally g1 = tally g) by reflexivity.
    destruct (cell_eqb (head g1) (fruit_pos g1)).
    + destruct (eat_fruit d g1) as [g2|] eqn:Eeat; [|discriminate].
      intro H. injection H as <-.
      destruct (eat_fruit_tally d g1 g2 Eeat) as [T2 _].
      destruct (pop_tail_tally g2) as [Tp _].
      right. rewrite Tp, T2. eexists _, _. reflexivity.
    + destruct (bonus g1) as [b|] eqn:Eb.
      * destruct (cell_eqb (head g1) (pos b)).
        -- intro H. injection H as <-.
           destruct (handle_bonus_pickup_tally (bonus_roll d)
                       (bonus_pick d) g1 b Eb) as [T2 _].
           destruct (pop_tail_tally
                       (_handle_bonus_pickup (bonus_roll d) (bonus_pick d)
                          g1)) as [Tp _].
           right. rewrite Tp, T2. eexists _, _. reflexivity.
        -- intro H. injection H as <-.
           destruct (pop_tail_tally g1) as [Tp _].
           left. rewrite Tp. exact T1.
      * intro H. injection H as <-.
        destruct (pop_tail_tally g1) as [Tp _].
        left. rewrite Tp. exact T1.
Qed.

Lemma step_in_sync (d : StepDraw) (g g' : NeonSnake) :
  in_sync g -> step d g = Some g' -> in_sync g'.
Proof.
  intros Hs Hstep.
  destruct (step_tally_cases d g g' Hstep) as [T | [s [f T]]];
    unfold tally in T; injection T as S _ C M; unfold in_sync.
  - rewrite C, M, S. exact Hs.
  - rewrite C, M, S. split; reflexivity.
Qed.

Lemma in_sync_interval (g : NeonSnake) :
  in_sync g -> 1 # 16 <= move_interval g /\ move_interval g <= 1.
Proof.
  intros [_ Hm]. rewrite Hm.
  destruct (speed_for_range (score g)) as [Hlo Hhi].
  set (v := speed_for (score g)) in *.
  assert (Hpos : 0 < v) by lra.
  split.
  - apply Qle_shift_div_l; [exact Hpos | lra].
  - apply Qle_shift_div_r; [exact Hpos | lra].
Qed.

Lemma step_loop_settles (fuel : nat) (draws : nat -> StepDraw) :
  forall (i : nat) (r : Runner),
    in_sync (game r) ->
    _move_accumulator r * 16 < inject_Z (Z.of_nat fuel) ->
    step_loop fuel draws i r <> OutOfFuel
    /\ forall r', step_loop fuel draws i r = Done r' ->
                  in_sync (game r')
                  /\ _move_accumulator r' < move_interval (game r').
Proof.
  induction fuel as [|fuel IH]; intros i r Hs Hb.
  - destruct (in_sync_interval _ Hs) as [Hlo _].
    assert (Hg : Py.le (move_interval (game r)) (_move_accumulator r)
                 = false).
    { apply py_le_false_iff.
      change (inject_Z (Z.of_nat 0)) with 0 in Hb. lra. }
    cbn [step_loop]. rewrite Hg. split; [discriminate|].
    intros r' H. injection H as <-. split; [exact Hs|].
    apply py_le_false_iff. exact Hg.
  - cbn [step_loop].
    destruct (Py.le (move_interval (game r)) (_move_accumulator r)) eqn:Hg.
    + destruct (step (draws i) (game r)) as [g|] eqn:Hstep.
      * pose proof (step_in_sync _ _ _ Hs Hstep) as Hs'.
        destruct (in_sync_interval _ Hs') as [Hlo _].
        apply IH; [exact Hs'|].
        cbn [_move_accumulator].
        rewrite Nat2Z.inj_succ in Hb. unfold Z.succ in Hb.
        rewrite inject_Z_plus in Hb.
        change (inject_Z 1) with 1 in Hb. lra.
      * split; [discriminate|]. intros r' H. discriminate.
    + split; [discriminate|].
      intros r' H. injection H as <-. split; [exact Hs|].
      apply py_le_false_iff. exact Hg.
Qed.

(** X25. The stepping loop of [start] ends.  When speed and step
    interval are the ones of the score, a frame whose accumulated
    time is below [fuel / 16] seconds never needs more than [fuel]
    iterations of the
    [while self._move_accumulator >= self.move_interval] loop (16
    being the top speed in moves per second): it leaves the loop, or
    stops in a step whose fruit placement does not return.  On
    leaving the loop the accumulator is below the step interval and
    speed and interval still match the score.  While paused or after
    game over the frame does not step at all. *)
Theorem advance_settles (fuel : nat) (draws : nat -> StepDraw) (dt : Q)
    (r : Runner) :
  in_sync (game r) ->
  (_move_accumulator r + dt) * 16 < inject_Z (Z.of_nat fuel) ->
  advance fuel draws dt r <> OutOfFuel
  /\ (forall r', advance fuel draws dt r = Done r' ->
                 in_sync (game r')
                 /\ (state (game r) = running ->
                     _move_accumulator r' < move_interval (game r')))
  /\ (state (game r) <> running -> advance fuel draws dt r = Done r).
Proof.
  intros Hs Hb. unfold advance.
  destruct (state (game r)) eqn:Est.
  - destruct (step_loop_settles fuel draws 0
                (mkRunner (game r) (_move_accumulator r + dt)) Hs Hb)
      as [Hne Hdone].
    split; [exact Hne|]. split.
    + intros r' H. destruct (Hdone r' H) as [H1 H2].
      split; [exact H1 | intros _; exact H2].
    + intro H. exfalso. apply H. reflexivity.
  - split; [discriminate|]. split.
    + intros r' H. injection H as <-. split; [exact Hs|].
      intro H. discriminate.
    + reflexivity.
  - split; [discriminate|]. split.
    + intros r' H. injection H as <-. split; [exact Hs|].
      intro H. discriminate.
    + reflexivity.
Qed.

Lemma advance_settles_witness :
  in_sync (game (mkRunner scenario_A (9 # 100)))
  /\ (_move_accumulator (mkRunner scenario_A (9 # 100)) + (1 # 60)) * 16
     < inject_Z (Z.of_nat 2)
  /\ (exists r',
        advance 2 (fun _ => quiet_draw) (1 # 60)
          (mkRunner scenario_A (9 # 100)) = Done r'
        /\ head (game r') = (176, 80)%Z
        /\ in_sync (game r')
        /\ _move_accumulator r' < move_interval (game r')).
Proof.
  assert (Hs : in_sync (game (mkRunner scenario_A (9 # 100))))
    by (split; reflexivity).
  assert (Hb : (_move_accumulator (mkRunner scenario_A (9 # 100))
                + (1 # 60)) * 16 < inject_Z (Z.of_nat 2))
    by reflexivity.
  split; [exact Hs|]. split; [exact Hb|].
  destruct (advance 2 (fun _ => quiet_draw) (1 # 60)
              (mkRunner scenario_A (9 # 100))) as [r'| |] eqn:Hadv;
    [|vm_compute in Hadv; discriminate|vm_compute in Hadv; discriminate].
  exists r'. split; [reflexivity|].
  split; [vm_compute in Hadv; injection Hadv as <-; reflexivity|].
  destruct (advance_settles 2 (fun _ => quiet_draw) (1 # 60)
              (mkRunner scenario_A (9 # 100)) Hs Hb) as [_ [Hdone _]].
  destruct (Hdone r' Hadv) as [H1 H2].
  split; [exact H1 | exact (H2 eq_refl)].
Defined.

End LoopFacts.

(** ** Game: the life of a bonus fruit *)

Section BonusTimerFacts.

Import Config Game Spec Props.
Local Open Scope Q_scope.

Lemma elapsed_nonneg (dts : list Q) :
  Forall (fun dt => 0 < dt) dts -> 0 <= elapsed dts.
Proof.
  induction 1 as [|dt rest Hdt _ IH]; cbn [elapsed fold_right].
  - apply Qle_refl.
  - fold (elapsed rest). lra.
Qed.

Lemma tick_bonus_frames_none (dts : list Q) :
  forall g, bonus g = None -> bonus (tick_bonus_frames dts g) = None.
Proof.
  induction dts as [|dt rest IH]; intros g Hg; [exact Hg|].
  cbn [tick_bonus_frames fold_left]. apply IH.
  unfold _tick_bonus. rewrite Hg. exact Hg.
Qed.

Lemma tick_bonus_once (dt : Q) (g : NeonSnake) (b : BonusFruit) :
  bonus g = Some b -> 0 < dt ->
  (b_timer b - dt <= 0 -> bonus (_tick_bonus dt g) = None)
  /\ (0 < b_timer b - dt ->
      bonus (_tick_bonus dt g) = Some (mkBonus (pos b) (b_timer b - dt))).
Proof.
  intros Hb Hdt. unfold _tick_bonus. rewrite Hb.
  rewrite (proj2 (py_le_false_iff dt 0) Hdt).
  destruct (Py.le (b_timer b - dt) 0) eqn:Et.
  - apply py_le_iff in Et. split; [reflexivity|]. intro H. lra.
  - apply py_le_false_iff in Et. split; [intro H; lra | reflexivity].
Qed.

(** X26. A bonus fruit left alone lasts exactly as long as its timer.
    Over frames of positive length, [_tick_bonus] keeps the fruit in
    its cell, with the timer reduced by the time played, as long as
    that time is below the timer; once the frames add up to the timer
    or more the fruit is gone, and it stays gone. *)
Theorem bonus_expires_on_time (dts : list Q) :
  forall (g : NeonSnake) (b : BonusFruit),
    bonus g = Some b ->
    0 < b_timer b ->
    Forall (fun dt => 0 < dt) dts ->
    (b_timer b <= elapsed dts ->
     bonus (tick_bonus_frames dts g) = None)
    /\ (elapsed dts < b_timer b ->
        exists b',
          bonus (tick_bonus_frames dts g) = Some b'
          /\ pos b' = pos b
          /\ b_timer b' == b_timer b - elapsed dts).
Proof.
  induction dts as [|dt rest IH]; intros g b Hb Hpos Hall.
  - cbn [elapsed fold_right tick_bonus_frames fold_left]. split.
    + intro H. exfalso. lra.
    + intros _. exists b. split; [exact Hb|]. split; [reflexivity|]. lra.
  - inversion Hall as [|? ? Hdt Hrest]; subst.
    pose proof (elapsed_nonneg rest Hrest) as Hnn.
    destruct (tick_bonus_once dt g b Hb Hdt) as [Hgone Hkept].
    cbn [elapsed fold_right tick_bonus_frames fold_left].
    fold (elapsed rest). fold (tick_bonus_frames rest (_tick_bonus dt g)).
    destruct (Qlt_le_dec 0 (b_timer b - dt)) as [Hlive | Hdead].
    + destruct (IH (_tick_bonus dt g) _ (Hkept Hlive) Hlive Hrest)
        as [IH1 IH2].
      cbn [b_timer pos] in IH1, IH2. split.
      * intro H. apply IH1. lra.
      * intro H. destruct IH2 as [b' [Hb' [Hp Ht]]]; [lra|].
        exists b'. split; [exact Hb'|]. split; [exact Hp|].
        rewrite Ht. lra.
    + split.
      * intros _. apply tick_bonus_frames_none. exact (Hgone Hdead).
      * intro H. exfalso. lra.
Qed.

Lemma bonus_expires_on_time_witness :
  bonus scenario_bonus = Some (mkBonus (176, 96)%Z BONUS_DURATION)
  /\ 0 < BONUS_DURATION
  /\ Forall (fun dt => 0 < dt) [1; 1; 1 # 2; 1]
  /\ elapsed [1; 1; 1 # 2] < BONUS_DURATION
  /\ (exists b',
        bonus (tick_bonus_frames [1; 1; 1 # 2] scenario_bonus) = Some b'
        /\ pos b' = (176, 96)%Z
        /\ b_timer b' == 1)
  /\ BONUS_DURATION <= elapsed [1; 1; 1 # 2; 1]
  /\ bonus (tick_bonus_frames [1; 1; 1 # 2; 1] scenario_bonus) = None.
Proof.
  assert (Hb : bonus scenario_bonus
               = Some (mkBonus (176, 96)%Z BONUS_DURATION)) by reflexivity.
  assert (Hpos : 0 < BONUS_DURATION) by reflexivity.
  assert (Hall : Forall (fun dt => 0 < dt) [1; 1; 1 # 2; 1])
    by (repeat constructor).
  assert (Hall3 : Forall (fun dt => 0 < dt) [1; 1; 1 # 2])
    by (repeat constructor).
  assert (Hlt : elapsed [1; 1; 1 # 2] < BONUS_DURATION) by reflexivity.
  assert (Hge : BONUS_DURATION <= elapsed [1; 1; 1 # 2; 1])
    by (vm_compute; discriminate).
  split; [exact Hb|]. split; [exact Hpos|]. split; [exact Hall|].
  split; [exact Hlt|].
  split.
  - destruct (proj2 (bonus_expires_on_time [1; 1; 1 # 2] scenario_bonus _
                       Hb Hpos Hall3) Hlt) as [b' [H1 [H2 H3]]].
    exists b'. split; [exact H1|]. split; [exact H2|].
    rewrite H3. reflexivity.
  - split; [exact Hge|].
    exact (proj1 (bonus_expires_on_time [1; 1; 1 # 2; 1] scenario_bonus _
                    Hb Hpos Hall) Hge).
Defined.

End BonusTimerFacts.
